(** * A top-down splay tree (splay.c, splay.h): model and verification

    The C code keeps a binary search tree of heap nodes without parent
    pointers.  Every node is owned by exactly one link (the root field of
    the tree, or the left or right field of its parent), so a value of type
    [struct splay_Node *] is modelled by what it designates: [NULL], or the
    node at some address together with its four fields, the two child
    pointers being such values again.  A store through a pointer becomes
    the construction of the updated value.

    What the owning-tree view cannot show, the state of the allocator, is
    kept in a separate [Heap]: the set of node blocks that malloc has handed
    out and free has not taken back, and the answers malloc is going to
    give.  Functions that call malloc or free pass the heap along.

    [int] keys are integers ([Z]); the code only compares them.  The
    [unsigned] size counter is an integer, reduced modulo 2^32 where the C
    code computes with it.

    Assertions: with the default SPLAY_DEBUG a failing SPLAY_ASSERT stops
    the program.  The assertion on the size of the destination in
    splay_tree_copy and splay_tree_move can fail on a tree object that a
    caller can hold, and is modelled (result [None]).  The other assertions
    state facts that hold on every path of the model (a history slot that
    has just been written is not null, a tip points to a null link, the
    node found holds the key); they are left out. *)

From Stdlib Require Import ZArith List Lia Sorted Permutation Bool.
From stdpp Require Import base gmap sets list sorting.

Local Open Scope Z_scope.

#[local] Set Warnings "-clear-no-such-hyp".

(** * The program *)

(** ** Types of splay.h *)

(** Address of a heap block that holds one [struct splay_Node]. *)
Abbreviation addr := positive.

(** [typedef int splay_Key;] *)
Definition splay_Key := Z.

(** [typedef void* splay_Satellite;]: the value of the pointer, which the
    tree never dereferences; 0 is the null pointer. *)
Definition splay_Satellite := Z.

Definition INT_MIN : Z := - 2 ^ 31.
Definition INT_MAX : Z := 2 ^ 31 - 1.
Definition UINT_MAX : Z := 2 ^ 32 - 1.

(** The result of arithmetic in type [unsigned]. *)
Definition unsigned (z : Z) : Z := z mod 2 ^ 32.

Definition EXIT_SUCCESS : Z := 0.
Definition EXIT_FAILURE : Z := 1.

(** [struct splay_Node *]: null, or the node at address [a] with the
    fields keiy, sat, left, right (in the order of the struct). *)
Inductive splay_Node : Type :=
| NULL
| Node (a : addr) (keiy : splay_Key) (sat : splay_Satellite)
       (left right : splay_Node).

(** [struct splay_Result] *)
Record splay_Result : Type := mkResult {
  found : Z;
  key : splay_Key;
  sat : splay_Satellite
}.

(** [struct splay_Tree] *)
Record splay_Tree : Type := mkTree {
  root : splay_Node;
  size : Z
}.

(** [#define SPLAY_BLANK_RESULT {0, 0, NULL}] *)
Definition SPLAY_BLANK_RESULT : splay_Result := mkResult 0 0 0.

(** ** The allocator *)

(** [live] is the set of node blocks currently allocated.  [oracle] lists
    the answers of the coming calls of malloc: [Some a] offers the block at
    [a], [None] is a refusal.  An offer of a block that is still live is
    not an answer malloc can give; it is read as a refusal, as is an
    exhausted list. *)
Record Heap : Type := mkHeap {
  live : gset addr;
  oracle : list (option addr)
}.

Definition malloc (h : Heap) : option addr * Heap :=
  match oracle h with
  | Some a :: rest =>
      if decide (a ∈ live h) then (None, mkHeap (live h) rest)
      else (Some a, mkHeap ({[a]} ∪ live h) rest)
  | None :: rest => (None, mkHeap (live h) rest)
  | [] => (None, h)
  end.

Definition free (a : addr) (h : Heap) : Heap :=
  mkHeap (live h ∖ {[a]}) (oracle h).

(** [#define FREENODE(n) free(n)]; free(NULL) does nothing. *)
Definition FREENODE (n : splay_Node) (h : Heap) : Heap :=
  match n with
  | NULL => h
  | Node a _ _ _ _ => free a h
  end.

(** ** Nodes *)

(** [NULL == n] *)
Definition is_null (n : splay_Node) : bool :=
  match n with NULL => true | Node _ _ _ _ _ => false end.

(** [n -> keiy], [n -> sat], [n -> left], [n -> right] *)
Definition node_keiy (n : splay_Node) : splay_Key :=
  match n with Node _ k _ _ _ => k | NULL => 0 end.

Definition node_sat (n : splay_Node) : splay_Satellite :=
  match n with Node _ _ s _ _ => s | NULL => 0 end.

Definition node_left (n : splay_Node) : splay_Node :=
  match n with Node _ _ _ l _ => l | NULL => NULL end.

Definition node_right (n : splay_Node) : splay_Node :=
  match n with Node _ _ _ _ r => r | NULL => NULL end.

(** [n -> left = x], [n -> right = x], [n -> sat = s] *)
Definition set_left (n x : splay_Node) : splay_Node :=
  match n with
  | Node a k s _ r => Node a k s x r
  | NULL => NULL
  end.

Definition set_right (n x : splay_Node) : splay_Node :=
  match n with
  | Node a k s l _ => Node a k s l x
  | NULL => NULL
  end.

Definition set_sat (n : splay_Node) (s : splay_Satellite) : splay_Node :=
  match n with
  | Node a k _ l r => Node a k s l r
  | NULL => NULL
  end.

(** [#define LESSKEY(p,k) ((p) -> keiy < (k))] *)
Definition LESSKEY (p : splay_Node) (k : splay_Key) : bool :=
  match p with
  | Node _ pk _ _ _ => pk <? k
  | NULL => false
  end.

(** [#define KEYLESS(k,p) ((k) < (p) -> keiy)] *)
Definition KEYLESS (k : splay_Key) (p : splay_Node) : bool :=
  match p with
  | Node _ pk _ _ _ => k <? pk
  | NULL => false
  end.

(** left_rot: [u = t->right; t->right = u->left; u->left = t; return u]. *)
Definition left_rot (t : splay_Node) : splay_Node :=
  match t with
  | Node a k s l (Node ua uk us ul ur) => Node ua uk us (Node a k s l ul) ur
  | _ => t
  end.

(** right_rot: [s = t->left; t->left = s->right; s->right = t; return s]. *)
Definition right_rot (t : splay_Node) : splay_Node :=
  match t with
  | Node a k s (Node sa sk ss sl sr) r => Node sa sk ss sl (Node a k s sr r)
  | _ => t
  end.

(** node_ctor: a fresh leaf holding (k, s), or NULL when malloc refuses. *)
Definition node_ctor (k : splay_Key) (s : splay_Satellite) (h : Heap)
  : splay_Node * Heap :=
  match malloc h with
  | (Some a, h') => (Node a k s NULL NULL, h')
  | (None, h') => (NULL, h')
  end.

(** ** struct splay_Topdown *)

(** [enum td_history_keys] *)
Inductive td_history_keys : Type :=
| RIGHT_FIRST | LEFT_FIRST | RIGHT_2ND | LEFT_2ND.

(** One remainder tree, an element of [rem[2]]: its root and its tip.  The
    tip points to a link: to [root], or to the field of the node that was
    hung at the tip last, [right] in the left remainder tree and [left] in
    the right one.  So the tip is reached from [root] by links of that one
    side only, and is kept as their number: 0 is [&root]. *)
Record remainder : Type := mkRem {
  rem_root : splay_Node;
  rem_tip : nat
}.

(** The two remainder trees, [rem[0]] the left and [rem[1]] the right one,
    and the four slots of [history]. *)
Record splay_Topdown : Type := mkTopdown {
  rem0 : remainder;
  rem1 : remainder;
  hist_right_first : splay_Node;
  hist_left_first : splay_Node;
  hist_right_2nd : splay_Node;
  hist_left_2nd : splay_Node
}.

(** [td.history[i]] *)
Definition history (td : splay_Topdown) (i : td_history_keys) : splay_Node :=
  match i with
  | RIGHT_FIRST => hist_right_first td
  | LEFT_FIRST => hist_left_first td
  | RIGHT_2ND => hist_right_2nd td
  | LEFT_2ND => hist_left_2nd td
  end.

(** [td.history[i] = n] *)
Definition set_history (td : splay_Topdown) (i : td_history_keys)
    (n : splay_Node) : splay_Topdown :=
  match i with
  | RIGHT_FIRST =>
      mkTopdown (rem0 td) (rem1 td) n (hist_left_first td)
                (hist_right_2nd td) (hist_left_2nd td)
  | LEFT_FIRST =>
      mkTopdown (rem0 td) (rem1 td) (hist_right_first td) n
                (hist_right_2nd td) (hist_left_2nd td)
  | RIGHT_2ND =>
      mkTopdown (rem0 td) (rem1 td) (hist_right_first td)
                (hist_left_first td) n (hist_left_2nd td)
  | LEFT_2ND =>
      mkTopdown (rem0 td) (rem1 td) (hist_right_first td)
                (hist_left_first td) (hist_right_2nd td) n
  end.

(** The pointer [t] after a store of [x] to the link [d] right links below
    it, and [d] left links below it. *)
Fixpoint store_right (d : nat) (t x : splay_Node) : splay_Node :=
  match d with
  | O => x
  | S d' =>
      match t with
      | Node a k s l r => Node a k s l (store_right d' r x)
      | NULL => NULL
      end
  end.

Fixpoint store_left (d : nat) (t x : splay_Node) : splay_Node :=
  match d with
  | O => x
  | S d' =>
      match t with
      | Node a k s l r => Node a k s (store_left d' l x) r
      | NULL => NULL
      end
  end.

(** [* td.rem[0].tip = x] and [* td.rem[1].tip = x]: the root of the
    remainder tree after the store. *)
Definition store_tip0 (rm : remainder) (x : splay_Node) : splay_Node :=
  store_right (rem_tip rm) (rem_root rm) x.

Definition store_tip1 (rm : remainder) (x : splay_Node) : splay_Node :=
  store_left (rem_tip rm) (rem_root rm) x.

Definition initialize_td_history (td : splay_Topdown) : splay_Topdown :=
  mkTopdown (rem0 td) (rem1 td) NULL NULL NULL NULL.

(** initialize_topdown: both remainder trees empty, the tips at the roots,
    the history blank. *)
Definition initialize_topdown : splay_Topdown :=
  mkTopdown (mkRem NULL 0) (mkRem NULL 0) NULL NULL NULL NULL.

Definition is_td_history_blank (td : splay_Topdown) : bool :=
  is_null (history td RIGHT_FIRST) && is_null (history td LEFT_FIRST).

(** update_right_tip: [*tip = n; n->left = NULL; tip = &n->left]. *)
Definition update_right_tip (td : splay_Topdown) (n : splay_Node)
  : splay_Topdown :=
  mkTopdown (rem0 td)
            (mkRem (store_tip1 (rem1 td) (set_left n NULL))
                   (S (rem_tip (rem1 td))))
            (hist_right_first td) (hist_left_first td)
            (hist_right_2nd td) (hist_left_2nd td).

(** update_left_tip: [*tip = n; n->right = NULL; tip = &n->right]. *)
Definition update_left_tip (td : splay_Topdown) (n : splay_Node)
  : splay_Topdown :=
  mkTopdown (mkRem (store_tip0 (rem0 td) (set_right n NULL))
                   (S (rem_tip (rem0 td))))
            (rem1 td)
            (hist_right_first td) (hist_left_first td)
            (hist_right_2nd td) (hist_left_2nd td).

(** topdown_set_aside: move the history into the remainder trees. *)
Definition topdown_set_aside (td : splay_Topdown) : splay_Topdown :=
  let pl := history td RIGHT_2ND in
  let pr := history td LEFT_2ND in
  initialize_td_history
    (if is_null pl && is_null pr then
       (* just a zig *)
       if negb (is_null (history td RIGHT_FIRST)) then
         update_left_tip td (history td RIGHT_FIRST)
       else
         update_right_tip td (history td LEFT_FIRST)
     else if is_null pr then
       if negb (is_null (history td RIGHT_FIRST)) then
         (* zigzig \\ *)
         update_left_tip td (left_rot (history td RIGHT_FIRST))
       else
         (* zigzag < *)
         update_left_tip (update_right_tip td (history td LEFT_FIRST))
                         (history td RIGHT_2ND)
     else
       if negb (is_null (history td LEFT_FIRST)) then
         (* zigzig // *)
         update_right_tip td (right_rot (history td LEFT_FIRST))
       else
         (* zigzag > *)
         update_right_tip (update_left_tip td (history td RIGHT_FIRST))
                          (history td LEFT_2ND)).

(** undo_first_step: take the pointer out of level-1 history. *)
Definition undo_first_step (td : splay_Topdown) : splay_Node * splay_Topdown :=
  if negb (is_null (history td RIGHT_FIRST)) then
    (history td RIGHT_FIRST, set_history td RIGHT_FIRST NULL)
  else
    (history td LEFT_FIRST, set_history td LEFT_FIRST NULL).

(** undo_2nd_step: take the pointer out of level-2 history. *)
Definition undo_2nd_step (td : splay_Topdown) : splay_Node * splay_Topdown :=
  if negb (is_null (history td RIGHT_2ND)) then
    (history td RIGHT_2ND, set_history td RIGHT_2ND NULL)
  else
    (history td LEFT_2ND, set_history td LEFT_2ND NULL).

(** [STEP_RIGHT_FIRST(t, r)] and the three other step macros store the
    pointer [r] in a history slot and move [r] down one link.  The store is
    [set_history]; the move is written out in the loops below, where the
    child is a pattern variable. *)

(** ** Searching *)

(** The loop of search_and_splay,
    [for (initialize_topdown(&td); 1; topdown_set_aside(&td)) { ... }],
    from the current [root] and cursor [td] to the state at its [break]:
    the cursor, the root and the value of [*found]. *)
Fixpoint search_loop (k : splay_Key) (td : splay_Topdown) (root : splay_Node)
    {struct root} : splay_Topdown * splay_Node * Z :=
  match root with
  | NULL => (td, NULL, 0)                  (* SPLAY_ASSERT(root) *)
  | Node _ _ _ l r =>
      (* First step down? *)
      if LESSKEY root k || KEYLESS k root then
        let td1 :=
          if LESSKEY root k then set_history td RIGHT_FIRST root
          else set_history td LEFT_FIRST root in
        let root1 := if LESSKEY root k then r else l in
        match root1 with
        | NULL =>
            (* Not found: no steps down. *)
            let '(root', td') := undo_first_step td1 in (td', root', 0)
        | Node _ _ _ l1 r1 =>
            (* Second step down? *)
            if LESSKEY root1 k || KEYLESS k root1 then
              let td2 :=
                if LESSKEY root1 k then set_history td1 RIGHT_2ND root1
                else set_history td1 LEFT_2ND root1 in
              let root2 := if LESSKEY root1 k then r1 else l1 in
              match root2 with
              | NULL =>
                  (* Not found.  Final zig done outside this loop. *)
                  let '(root', td') := undo_2nd_step td2 in (td', root', 0)
              | Node _ _ _ _ _ =>
                  search_loop k (topdown_set_aside td2) root2
              end
            else
              (* Found at root's child.  Final zig done outside. *)
              (td1, root1, 1)
        end
      else
        (* Found at root: no steps down. *)
        (td, root, 1)
  end.

(** The final splice: the subtrees of [root] go to the tips of the remainder
    trees, and the remainder trees become the subtrees of [root]. *)
Definition splice (td : splay_Topdown) (root : splay_Node) : splay_Node :=
  match root with
  | NULL => NULL
  | Node a k s l r =>
      Node a k s (store_tip0 (rem0 td) l) (store_tip1 (rem1 td) r)
  end.

(** search_and_splay: the new root and [*found]. *)
Definition search_and_splay (root : splay_Node) (k : splay_Key)
  : splay_Node * Z :=
  match root with
  | NULL => (NULL, 0)
  | Node _ _ _ _ _ =>
      let '(td, root', found') := search_loop k initialize_topdown root in
      let td' :=
        if negb (is_td_history_blank td) then topdown_set_aside td else td in
      (splice td' root', found')
  end.

(** splay_find.  The handle [t] is a pointer to a tree object: [None] is
    the null handle.  The function returns its result and the tree object
    as it has left it. *)
Definition splay_find (t : option splay_Tree) (k : splay_Key)
  : splay_Result * option splay_Tree :=
  match t with
  | None => (SPLAY_BLANK_RESULT, None)
  | Some t0 =>
      let '(root', found') := search_and_splay (root t0) k in
      let t1 := mkTree root' (size t0) in
      if found' =? 0 then (mkResult found' 0 0, Some t1)
      else (mkResult found' k (node_sat root'), Some t1)
  end.

(** The loop of splay_min: walk down the left links, two at a time. *)
Fixpoint min_loop (td : splay_Topdown) (root : splay_Node) {struct root}
  : splay_Topdown * splay_Node :=
  match root with
  | NULL => (td, NULL)
  | Node _ _ _ l _ =>
      match l with
      | NULL => (td, root)
      | Node _ _ _ l1 _ =>
          let td1 := set_history td LEFT_FIRST root in
          match l1 with
          | NULL => min_loop (topdown_set_aside td1) l
          | Node _ _ _ _ _ =>
              let td2 := set_history td1 LEFT_2ND l in
              min_loop (topdown_set_aside td2) l1
          end
      end
  end.

Definition splay_min (t : option splay_Tree)
  : splay_Result * option splay_Tree :=
  match t with
  | None => (SPLAY_BLANK_RESULT, None)
  | Some t0 =>
      match root t0 with
      | NULL => (SPLAY_BLANK_RESULT, t)
      | Node _ _ _ _ _ =>
          let '(td, root') := min_loop initialize_topdown (root t0) in
          let root'' :=
            set_right root' (store_tip1 (rem1 td) (node_right root')) in
          (mkResult 1 (node_keiy root'') (node_sat root''),
           Some (mkTree root'' (size t0)))
      end
  end.

(** The loop of splay_max: walk down the right links, two at a time. *)
Fixpoint max_loop (td : splay_Topdown) (root : splay_Node) {struct root}
  : splay_Topdown * splay_Node :=
  match root with
  | NULL => (td, NULL)
  | Node _ _ _ _ r =>
      match r with
      | NULL => (td, root)
      | Node _ _ _ _ r1 =>
          let td1 := set_history td RIGHT_FIRST root in
          match r1 with
          | NULL => max_loop (topdown_set_aside td1) r
          | Node _ _ _ _ _ =>
              let td2 := set_history td1 RIGHT_2ND r in
              max_loop (topdown_set_aside td2) r1
          end
      end
  end.

Definition splay_max (t : option splay_Tree)
  : splay_Result * option splay_Tree :=
  match t with
  | None => (SPLAY_BLANK_RESULT, None)
  | Some t0 =>
      match root t0 with
      | NULL => (SPLAY_BLANK_RESULT, t)
      | Node _ _ _ _ _ =>
          let '(td, root') := max_loop initialize_topdown (root t0) in
          let root'' :=
            set_left root' (store_tip0 (rem0 td) (node_left root')) in
          (mkResult 1 (node_keiy root'') (node_sat root''),
           Some (mkTree root'' (size t0)))
      end
  end.

(** ** Erasing *)

(** splay_erase.  [psat] is the output parameter: [None] for a null pointer,
    [Some v] for a pointer to a location that holds [v]; its contents after
    the call are returned. *)
Definition splay_erase (t : option splay_Tree) (k : splay_Key)
    (psat : option splay_Satellite) (h : Heap)
  : Z * option splay_Tree * option splay_Satellite * Heap :=
  let '(r, t1) := splay_find t k in
  if found r =? 0 then (EXIT_FAILURE, t1, psat, h)
  else
    match t1 with
    | None => (EXIT_FAILURE, t1, psat, h)   (* found implies a handle *)
    | Some t2 =>
        (* Save the satellite data if the user asked us to. *)
        let psat' :=
          match psat with Some _ => Some (sat r) | None => None end in
        (* Temporarily store the root (which is the target to delete). *)
        let radix := root t2 in
        let t3 := mkTree (node_right (root t2)) (size t2) in
        let t4 :=
          if negb (is_null (root t3)) then
            match snd (splay_min (Some t3)) with
            | Some t' => mkTree (set_left (root t') (node_left radix)) (size t')
            | None => t3
            end
          else mkTree (node_left radix) (size t3) in
        (EXIT_SUCCESS, Some (mkTree (root t4) (unsigned (size t4 - 1))),
         psat', FREENODE radix h)
    end.

(** ** Inserting *)

(** The loop of insert_and_splay,
    [for (initialize_topdown(&td); root; topdown_set_aside(&td)) { ... }]:
    every old node goes to one of the remainder trees. *)
Fixpoint insert_loop (nk : splay_Key) (td : splay_Topdown) (root : splay_Node)
    {struct root} : splay_Topdown :=
  match root with
  | NULL => td
  | Node _ _ _ l r =>
      let td1 :=
        if LESSKEY root nk then set_history td RIGHT_FIRST root
        else set_history td LEFT_FIRST root in
      let root1 := if LESSKEY root nk then r else l in
      match root1 with
      | NULL => topdown_set_aside td1
      | Node _ _ _ l1 r1 =>
          let td2 :=
            if LESSKEY root1 nk then set_history td1 RIGHT_2ND root1
            else set_history td1 LEFT_2ND root1 in
          let root2 := if LESSKEY root1 nk then r1 else l1 in
          insert_loop nk (topdown_set_aside td2) root2
      end
  end.

(** insert_and_splay: graft the remainder trees onto the new node [n]. *)
Definition insert_and_splay (root n : splay_Node) : splay_Node :=
  match root with
  | NULL => n
  | Node _ _ _ _ _ =>
      let td := insert_loop (node_keiy n) initialize_topdown root in
      set_right (set_left n (rem_root (rem0 td))) (rem_root (rem1 td))
  end.

(** splay_insert.  The handle is dereferenced without a test, so the
    function is given the tree object. *)
Definition splay_insert (t : splay_Tree) (k : splay_Key)
    (s : splay_Satellite) (h : Heap) : Z * splay_Tree * Heap :=
  let '(n, h') := node_ctor k s h in
  if is_null n then (EXIT_FAILURE, t, h')
  else
    (EXIT_SUCCESS,
     mkTree (insert_and_splay (root t) n) (unsigned (size t + 1)), h').

(** splay_update; like splay_insert it dereferences the handle at once. *)
Definition splay_update (t : splay_Tree) (k : splay_Key)
    (s : splay_Satellite) : Z * splay_Tree :=
  let '(root', found') := search_and_splay (root t) k in
  if found' =? 0 then (EXIT_FAILURE, mkTree root' (size t))
  else (EXIT_SUCCESS, mkTree (set_sat root' s) (size t)).

(** ** Construction, clearing, copy and move *)

(** splay_tree_empty_ctor: the object the handle points to is overwritten. *)
Definition splay_tree_empty_ctor (t : option splay_Tree)
  : Z * option splay_Tree :=
  match t with
  | None => (EXIT_FAILURE, None)
  | Some _ => (EXIT_SUCCESS, Some (mkTree NULL 0))
  end.

(** splay_dtor_helper: postorder traverse and destroy. *)
Fixpoint splay_dtor_helper (n : splay_Node) (h : Heap) : Heap :=
  match n with
  | NULL => h
  | Node _ _ _ l r => FREENODE n (splay_dtor_helper r (splay_dtor_helper l h))
  end.

Definition splay_tree_clear (t : option splay_Tree) (h : Heap)
  : Z * option splay_Tree * Heap :=
  let h' := match t with
            | Some t0 => splay_dtor_helper (root t0) h
            | None => h
            end in
  (splay_tree_empty_ctor t, h').

Definition splay_tree_dtor (t : option splay_Tree) (h : Heap)
  : option splay_Tree * Heap :=
  let '(_, t', h') := splay_tree_clear t h in (t', h').

(** copy_helper: postorder deep copy of [ni].  [no] is what [*no] holds
    before the call, the second component of the result what it holds
    after; the locals [l] and [r] of the C function are uninitialised when
    their addresses are passed down, which is [NULL] here (they are read
    only after a successful call has written them). *)
Fixpoint copy_helper (ni no : splay_Node) (h : Heap)
  : Z * splay_Node * Heap :=
  match ni with
  | NULL => (EXIT_SUCCESS, NULL, h)
  | Node _ k s nl nr =>
      let '(rcl, l, h1) := copy_helper nl NULL h in
      if rcl =? EXIT_FAILURE then (EXIT_FAILURE, no, h1)
      else
        let '(rcr, r, h2) := copy_helper nr NULL h1 in
        if rcr =? EXIT_FAILURE then
          (* release memory in l *)
          (EXIT_FAILURE, no, splay_dtor_helper l h2)
        else
          let '(n, h3) := node_ctor k s h2 in
          if is_null n then
            (* release memory already allocated *)
            (EXIT_FAILURE, NULL, splay_dtor_helper r (splay_dtor_helper l h3))
          else
            (EXIT_SUCCESS, set_right (set_left n l) r, h3)
  end.

(** splay_tree_copy.  The source is const; the result is the return code,
    the destination object and the heap, or [None] when
    SPLAY_ASSERT(0 == to->size) stops the program. *)
Definition splay_tree_copy (ti to : option splay_Tree) (h : Heap)
  : option (Z * option splay_Tree * Heap) :=
  match ti, to with
  | Some ti0, Some to0 =>
      if negb (is_null (root to0)) then Some (EXIT_FAILURE, to, h)
      else if negb (size to0 =? 0) then None
      else
        let '(rc, no, h') := copy_helper (root ti0) (root to0) h in
        Some (rc, Some (mkTree no (size ti0)), h')
  | _, _ => Some (EXIT_FAILURE, to, h)
  end.

(** splay_tree_move: return code, source object and destination object, or
    [None] when SPLAY_ASSERT(0 == to->size) stops the program.  If both
    handles point to one object, the two objects returned are equal: the
    call fails and changes nothing, or the object is the empty tree and
    stays so. *)
Definition splay_tree_move (ti to : option splay_Tree)
  : option (Z * option splay_Tree * option splay_Tree) :=
  match ti, to with
  | Some ti0, Some to0 =>
      if negb (is_null (root to0)) then Some (EXIT_FAILURE, ti, to)
      else if negb (size to0 =? 0) then None
      else Some (EXIT_SUCCESS, Some (mkTree NULL 0),
                 Some (mkTree (root ti0) (size ti0)))
  | _, _ => Some (EXIT_FAILURE, ti, to)
  end.

(** ** Health check *)

(** The text that snprintf writes to [buf], by format and arguments. *)
Inductive diagnostic : Type :=
| BstViolation (keiy minkey maxkey : Z)
| SizeZeroNonNilRoot
| SizeNilRoot (size : Z)
| SizeMismatch (size count : Z).

(** breaks_bst_property: is the key of some node of [t] outside the range
    that its ancestors leave it?  With the message for the first one. *)
Fixpoint breaks_bst_property (t : splay_Node) (minkey maxkey : splay_Key)
  : bool * option diagnostic :=
  match t with
  | NULL => (false, None)
  | Node _ k _ l r =>
      if LESSKEY t minkey || KEYLESS maxkey t then
        (true, Some (BstViolation k minkey maxkey))
      else
        let '(bl, ml) := breaks_bst_property l minkey k in
        if bl then (true, ml)
        else breaks_bst_property r k maxkey
  end.

(** splay_nodecount, in unsigned arithmetic. *)
Fixpoint splay_nodecount (t : splay_Node) : Z :=
  match t with
  | NULL => 0
  | Node _ _ _ l r =>
      unsigned (unsigned (1 + splay_nodecount l) + splay_nodecount r)
  end.

Definition splay_size_failure (t : splay_Tree) : bool * option diagnostic :=
  if negb (is_null (root t)) && (size t =? 0) then
    (true, Some SizeZeroNonNilRoot)
  else if is_null (root t) && negb (size t =? 0) then
    (true, Some (SizeNilRoot (size t)))
  else if negb (size t =? splay_nodecount (root t)) then
    (true, Some (SizeMismatch (size t) (splay_nodecount (root t))))
  else (false, None).

(** splay_health_check, called with a buffer: the return code and the
    message left in the buffer ([None]: the buffer is untouched or holds
    the empty string). *)
Definition splay_health_check (t : option splay_Tree)
  : Z * option diagnostic :=
  match t with
  | None => (EXIT_SUCCESS, None)
  | Some t0 =>
      if (size t0 =? 0) && is_null (root t0) then (EXIT_SUCCESS, None)
      else
        let '(sf, ms) := splay_size_failure t0 in
        if sf then (EXIT_FAILURE, ms)
        else
          let '(bb, mb) := breaks_bst_property (root t0) INT_MIN INT_MAX in
          if bb then (EXIT_FAILURE, mb)
          else (EXIT_SUCCESS, None)
  end.

(** ** The assertions of the dictionary operations

    The conditions of the SPLAY_ASSERT statements that guard the results of
    the loops, as functions of the values they test. *)

(** is_bst_leaf: [n && NULL == n->left && NULL == n->right]. *)
Definition is_bst_leaf (n : splay_Node) : bool :=
  negb (is_null n) && is_null (node_left n) && is_null (node_right n).

(** [p == q] for two pointers to nodes. *)
Definition ptr_eqb (p q : splay_Node) : bool :=
  match p, q with
  | NULL, NULL => true
  | Node a _ _ _ _, Node b _ _ _ _ => Pos.eqb a b
  | _, _ => false
  end.

(** search_and_splay, after its loop:
    [SPLAY_ASSERT(root);]
    [SPLAY_ASSERT(1 == *found || LESSKEY(root, k) || KEYLESS(k, root));]
    [SPLAY_ASSERT(0 == *found || k == root -> keiy);] *)
Definition search_exit_asserts (k : splay_Key) (root : splay_Node)
    (found' : Z) : bool :=
  negb (is_null root)
  && ((1 =? found') || LESSKEY root k || KEYLESS k root)
  && ((0 =? found') || (k =? node_keiy root)).

(** splay_min, after its loop:
    [SPLAY_ASSERT(root && NULL == root -> left);]
    [SPLAY_ASSERT(NULL == td.rem[0].root);] *)
Definition min_exit_asserts (td : splay_Topdown) (root : splay_Node) : bool :=
  negb (is_null root) && is_null (node_left root)
  && is_null (rem_root (rem0 td)).

(** splay_max, after its loop:
    [SPLAY_ASSERT(root && NULL == root -> right);]
    [SPLAY_ASSERT(NULL == td.rem[1].root);] *)
Definition max_exit_asserts (td : splay_Topdown) (root : splay_Node) : bool :=
  negb (is_null root) && is_null (node_right root)
  && is_null (rem_root (rem1 td)).

(** splay_erase, once splay_find has reported the key:
    [SPLAY_ASSERT(r.key == k);]
    [SPLAY_ASSERT(t && t -> root && t -> root -> keiy == k);]
    [SPLAY_ASSERT(r.sat == t -> root -> sat);]
    and, when the root has a right subtree, after splay_min on it:
    [SPLAY_ASSERT(succ.found && t -> root && NULL == t -> root -> left);] *)
Definition erase_asserts (t : option splay_Tree) (k : splay_Key) : bool :=
  let '(r, t1) := splay_find t k in
  if found r =? 0 then true
  else
    (key r =? k)
    && match t1 with
       | None => false
       | Some t2 =>
           negb (is_null (root t2)) && (node_keiy (root t2) =? k)
           && (sat r =? node_sat (root t2))
           && (if negb (is_null (node_right (root t2))) then
                 let '(succ, t') :=
                   splay_min
                     (Some (mkTree (node_right (root t2)) (size t2))) in
                 negb (found succ =? 0)
                 && match t' with
                    | Some t3 =>
                        negb (is_null (root t3))
                        && is_null (node_left (root t3))
                    | None => false
                    end
               else true)
       end.

(** splay_insert, once node_ctor has returned a node [n]:
    [SPLAY_ASSERT(is_bst_leaf(n));] in insert_and_splay and
    [SPLAY_ASSERT(n == t -> root);] after it. *)
Definition insert_asserts (t : splay_Tree) (k : splay_Key)
    (s : splay_Satellite) (h : Heap) : bool :=
  let '(n, _) := node_ctor k s h in
  if is_null n then true
  else is_bst_leaf n && ptr_eqb n (insert_and_splay (root t) n).

(** ** The insertion without splaying

    naive_insert is compiled out ([#if 0]), as is its use in the set_up of
    the first demo program; it is the insertion of a plain binary search
    tree.  It does not touch the size field of a tree object. *)
Fixpoint naive_insert (radix : splay_Node) (k : splay_Key)
    (sat : splay_Satellite) (h : Heap) : splay_Node * Heap :=
  match radix with
  | NULL => node_ctor k sat h
  | Node _ _ _ l r =>
      if LESSKEY radix k then
        let '(r', h') := naive_insert r k sat h in (set_right radix r', h')
      else
        let '(l', h') := naive_insert l k sat h in (set_left radix l', h')
  end.

(** ** DOT output *)

(** What one call of fputs or fprintf writes to the DOT file, by format
    string and arguments:
    - [DotOpen]: ["digraph {\n  bgcolor=lightblue;\n"];
    - [DotRoot k]: ["  %d %s;\n"] with [k] and the shape string;
    - [DotChild k p]: ["  %d %s;\n  %d -> %d\n"] with [k], the shape
      string, [p], [k];
    - [DotPhantom x p]: ["  %d [style=invis];\n  %d -> %d [style=invis];\n"]
      with [x], [p], [x];
    - [DotClose]: ["}\n"]. *)
Inductive dot_text : Type :=
| DotOpen
| DotRoot (keiy : Z)
| DotChild (keiy parent : Z)
| DotPhantom (phantom parent : Z)
| DotClose.

(** The part of the C library that splay_dot_output uses.  [fopen_ok] and
    [fclose_ok] tell whether fopen and fclose are going to succeed;
    [write_ok] lists the outcomes of the coming calls of fputs and fprintf
    ([true]: the text is written; an exhausted list: every further call
    succeeds); [rand_values] lists the coming values of rand(), 0 when
    exhausted; [written] is what the file holds. *)
Record Stdio : Type := mkStdio {
  fopen_ok : bool;
  fclose_ok : bool;
  write_ok : list bool;
  rand_values : list Z;
  written : list dot_text
}.

(** [fopen(filename, "w")]: the stream on the emptied file, or [None]. *)
Definition fopen (io : Stdio) : option Stdio :=
  if fopen_ok io then
    Some (mkStdio (fopen_ok io) (fclose_ok io) (write_ok io)
                  (rand_values io) [])
  else None.

(** [EOF != fclose(f)] *)
Definition fclose (f : Stdio) : bool := fclose_ok f.

(** [0 <= fprintf(f, ...)], where the call would write [x], and the stream
    after the call. *)
Definition fprintf (x : dot_text) (f : Stdio) : bool * Stdio :=
  match write_ok f with
  | false :: rest =>
      (false,
       mkStdio (fopen_ok f) (fclose_ok f) rest (rand_values f) (written f))
  | true :: rest =>
      (true,
       mkStdio (fopen_ok f) (fclose_ok f) rest (rand_values f)
               (written f ++ [x]))
  | [] =>
      (true,
       mkStdio (fopen_ok f) (fclose_ok f) [] (rand_values f)
               (written f ++ [x]))
  end.

(** [0 <= fputs(s, f)], the same as [EOF != fputs(s, f)]. *)
Definition fputs (x : dot_text) (f : Stdio) : bool * Stdio := fprintf x f.

Definition rand (f : Stdio) : Z * Stdio :=
  match rand_values f with
  | v :: rest =>
      (v, mkStdio (fopen_ok f) (fclose_ok f) (write_ok f) rest (written f))
  | [] => (0, f)
  end.

(** print_phantom: an invisible DOT node, child of [parent_key]. *)
Definition print_phantom (f : Stdio) (parent_key : Z) : Z * Stdio :=
  let '(phantom_key, f1) := rand f in
  let '(ok, f2) := fprintf (DotPhantom phantom_key parent_key) f1 in
  if ok then (EXIT_SUCCESS, f2) else (EXIT_FAILURE, f2).

(** The result of a step of dot_out_help: the return code and the stream,
    or [None] when the step reads a field through a null pointer.
    [and_then e k] is [if (e != EXIT_SUCCESS) return EXIT_FAILURE; k]. *)
Definition and_then (e : option (Z * Stdio))
    (k : Stdio -> option (Z * Stdio)) : option (Z * Stdio) :=
  match e with
  | None => None
  | Some (rc, f) => if rc =? EXIT_SUCCESS then k f else Some (EXIT_FAILURE, f)
  end.

(** The return code of a call of fprintf tested by [0 > fprintf(...)]. *)
Definition printed (r : bool * Stdio) : option (Z * Stdio) :=
  Some (if fst r then EXIT_SUCCESS else EXIT_FAILURE, snd r).

(** dot_out_help: print the node [*t] and, if it has a parent [*tpar], the
    edge from the parent, with an invisible sibling if it is an only
    child; then the subtrees.  The first branch reads [t -> keiy] without
    a test of [t]. *)
Fixpoint dot_out_help (t tpar : splay_Node) (f : Stdio) {struct t}
  : option (Z * Stdio) :=
  and_then
    match tpar with
    | NULL =>
        (* Print *t, which must be the root, but print no in-edge. *)
        match t with
        | NULL => None
        | Node _ k _ _ _ => printed (fprintf (DotRoot k) f)
        end
    | Node _ pk _ pl pr =>
        match t with
        | NULL => Some (EXIT_SUCCESS, f)
        | Node _ k _ _ _ =>
            (* Print a non-root node plus its in-edge. *)
            and_then
              (if is_null pl then Some (print_phantom f pk)
               else Some (EXIT_SUCCESS, f))
              (fun f1 =>
                 and_then (printed (fprintf (DotChild k pk) f1))
                   (fun f2 =>
                      if is_null pr then Some (print_phantom f2 pk)
                      else Some (EXIT_SUCCESS, f2)))
        end
    end
    (fun f' =>
       match t with
       | NULL => Some (EXIT_SUCCESS, f')
       | Node _ _ _ l r =>
           (* recurse *)
           and_then (dot_out_help l t f')
             (fun fl =>
                and_then (dot_out_help r t fl)
                  (fun fr => Some (EXIT_SUCCESS, fr)))
       end).

(** splay_dot_output: the return code and the C library afterwards, or
    [None] when a null pointer is dereferenced.  The file name only selects
    the file. *)
Definition splay_dot_output (t : option splay_Tree) (io : Stdio)
  : option (Z * Stdio) :=
  match t with
  | None => Some (EXIT_FAILURE, io)
  | Some t0 =>
      match fopen io with
      | None => Some (EXIT_FAILURE, io)
      | Some f =>
          let '(ok, f1) := fputs DotOpen f in
          let body :=
            if ok then
              match dot_out_help (root t0) NULL f1 with
              | None => None
              | Some (rc, f2) =>
                  if rc =? EXIT_SUCCESS then
                    let '(ok', f3) := fputs DotClose f2 in
                    Some (if ok' then rc else EXIT_FAILURE, f3)
                  else Some (rc, f2)
              end
            else Some (EXIT_FAILURE, f1) in
          match body with
          | None => None
          | Some (rc, f4) =>
              Some (if fclose f4 then rc else EXIT_FAILURE, f4)
          end
      end
  end.

(** ** The shutdown of the command-line program (cli.cpp) *)

(** The loop of cleanup,
    [for (struct splay_Result r; (r = splay_max(tree)).found; free(r.sat))
       if (splay_erase(tree, r.key, NULL) != EXIT_SUCCESS)
         return fail("Error cleaning up tree");]
    The satellites of this program are strings on its heap; [freed] lists
    the ones passed to free, the latest first.  The loop is run for at most
    [fuel] turns; [None] when they do not suffice. *)
Fixpoint cleanup_loop (fuel : nat) (tree : option splay_Tree) (h : Heap)
    (freed : list splay_Satellite)
  : option (Z * option splay_Tree * Heap * list splay_Satellite) :=
  match fuel with
  | O => None
  | S fuel' =>
      let '(r, tree1) := splay_max tree in
      if found r =? 0 then Some (EXIT_SUCCESS, tree1, h, freed)
      else
        let '(rc, tree2, _, h2) := splay_erase tree1 (key r) None h in
        if negb (rc =? EXIT_SUCCESS) then
          Some (EXIT_FAILURE, tree2, h2, freed)
        else cleanup_loop fuel' tree2 h2 (sat r :: freed)
  end.

(** cleanup: the loop, then [splay_tree_dtor(tree); return EXIT_SUCCESS;].
    The parameter [rc] is not used by the function. *)
Definition cleanup (fuel : nat) (rc : Z) (tree : option splay_Tree)
    (h : Heap)
  : option (Z * option splay_Tree * Heap * list splay_Satellite) :=
  match cleanup_loop fuel tree h [] with
  | None => None
  | Some (rc', tree', h', freed) =>
      if negb (rc' =? EXIT_SUCCESS) then Some (EXIT_FAILURE, tree', h', freed)
      else
        let '(tree'', h'') := splay_tree_dtor tree' h' in
        Some (EXIT_SUCCESS, tree'', h'', freed)
  end.

(** * Specification

    The words of the specification, independent of the cursor: the records
    of a tree in symmetric order, the ordering property, the count
    invariant, the node at which a plain search stops, sequences of
    operations. *)

(** What a node holds: its address, key and satellite. *)
Definition record : Type := addr * splay_Key * splay_Satellite.

Definition raddr (x : record) : addr := fst (fst x).
Definition rkey (x : record) : splay_Key := snd (fst x).
Definition rsat (x : record) : splay_Satellite := snd x.

(** The node a pointer designates, without its links. *)
Definition node_record (n : splay_Node) : option record :=
  match n with
  | NULL => None
  | Node a k s _ _ => Some (a, k, s)
  end.

(** The records of the nodes reachable from [t], left to right. *)
Fixpoint inorder (t : splay_Node) : list record :=
  match t with
  | NULL => []
  | Node a k s l r => inorder l ++ (a, k, s) :: inorder r
  end.

(** The keys held by the nodes reachable from [t]. *)
Definition keys (t : splay_Node) : list splay_Key := map rkey (inorder t).

(** What the nodes reachable from [t] hold for the user. *)
Definition contents (t : splay_Node) : list (splay_Key * splay_Satellite) :=
  map (fun x => (rkey x, rsat x)) (inorder t).

(** The addresses of the nodes reachable from [t]. *)
Fixpoint addrs (t : splay_Node) : gset addr :=
  match t with
  | NULL => ∅
  | Node a _ _ l r => {[a]} ∪ addrs l ∪ addrs r
  end.

(** The number of nodes reachable from [t]. *)
Fixpoint nodes (t : splay_Node) : nat :=
  match t with
  | NULL => 0%nat
  | Node _ _ _ l r => S (nodes l + nodes r)
  end.

(** BST ordering: at every reachable node, every key in the left subtree is
    at most the node's key, which is at most every key in the right
    subtree. *)
Fixpoint bst (t : splay_Node) : Prop :=
  match t with
  | NULL => True
  | Node _ k _ l r =>
      Forall (fun x => rkey x <= k) (inorder l) /\
      Forall (fun x => k <= rkey x) (inorder r) /\
      bst l /\ bst r
  end.

(** The count invariant of [struct splay_Tree]: the size field is the
    number of reachable nodes, and is zero exactly when the root is null. *)
Definition count_ok (t : splay_Tree) : Prop :=
  size t = Z.of_nat (nodes (root t)) /\ (size t = 0 <-> root t = NULL).

(** The last node that a search for [k] compares with [k]: the first node
    on the search path that holds [k], or the node at which the path runs
    off the tree. *)
Fixpoint search_stop (k : splay_Key) (t : splay_Node) : splay_Node :=
  match t with
  | NULL => NULL
  | Node _ tk _ l r =>
      if tk <? k then (if is_null r then t else search_stop k r)
      else if k <? tk then (if is_null l then t else search_stop k l)
      else t
  end.

(** The node at the end of the chain of left links, and of right links. *)
Fixpoint leftmost (t : splay_Node) : splay_Node :=
  match t with
  | NULL => NULL
  | Node _ _ _ l _ => if is_null l then t else leftmost l
  end.

Fixpoint rightmost (t : splay_Node) : splay_Node :=
  match t with
  | NULL => NULL
  | Node _ _ _ _ r => if is_null r then t else rightmost r
  end.

(** A bound of a key interval; [None] is the infinite one. *)
Definition above (lo : option splay_Key) (k : splay_Key) : Prop :=
  match lo with None => True | Some b => b <= k end.

Definition below (hi : option splay_Key) (k : splay_Key) : Prop :=
  match hi with None => True | Some b => k <= b end.

(** Range propagation: the key of every node lies within the interval that
    its ancestors imply, from the interval between [lo] and [hi] at the
    root. *)
Fixpoint in_bounds (lo hi : option splay_Key) (t : splay_Node) : Prop :=
  match t with
  | NULL => True
  | Node _ k _ l r =>
      above lo k /\ below hi k /\
      in_bounds lo (Some k) l /\ in_bounds (Some k) hi r
  end.

(** The keys are values of type [int]. *)
Definition int_keys (t : splay_Node) : Prop :=
  Forall (fun x => INT_MIN <= rkey x <= INT_MAX) (inorder t).

(** ** Sequences of dictionary operations *)

(** The dictionary operations of splay.h on one tree object. *)
Inductive operation : Type :=
| op_insert (k : splay_Key) (s : splay_Satellite)
| op_update (k : splay_Key) (s : splay_Satellite)
| op_erase (k : splay_Key) (psat : option splay_Satellite)
| op_find (k : splay_Key)
| op_min
| op_max.

(** One call on the tree object [t], through the handle [Some t]: the tree
    object and the heap after the call. *)
Definition run_op (o : operation) (st : splay_Tree * Heap)
  : splay_Tree * Heap :=
  let '(t, h) := st in
  match o with
  | op_insert k s => let '(_, t', h') := splay_insert t k s h in (t', h')
  | op_update k s => (snd (splay_update t k s), h)
  | op_erase k psat =>
      let '(_, t', _, h') := splay_erase (Some t) k psat h in
      (default t t', h')
  | op_find k => (default t (snd (splay_find (Some t) k)), h)
  | op_min => (default t (snd (splay_min (Some t))), h)
  | op_max => (default t (snd (splay_max (Some t))), h)
  end.

(** The states after each operation of a sequence. *)
Fixpoint run_ops (ops : list operation) (st : splay_Tree * Heap)
  : list (splay_Tree * Heap) :=
  match ops with
  | [] => []
  | o :: ops' => run_op o st :: run_ops ops' (run_op o st)
  end.

(** ** Auxiliary definitions of the proofs *)

(** [x] hung at the null link that ends the right spine of [t], and the
    left spine. *)
Fixpoint graft_right (t x : splay_Node) : splay_Node :=
  match t with
  | NULL => x
  | Node a k s l r => Node a k s l (graft_right r x)
  end.

Fixpoint graft_left (t x : splay_Node) : splay_Node :=
  match t with
  | NULL => x
  | Node a k s l r => Node a k s (graft_left l x) r
  end.

(** The number of nodes on the right spine, and on the left spine. *)
Fixpoint rspine (t : splay_Node) : nat :=
  match t with
  | NULL => O
  | Node _ _ _ _ r => S (rspine r)
  end.

Fixpoint lspine (t : splay_Node) : nat :=
  match t with
  | NULL => O
  | Node _ _ _ l _ => S (lspine l)
  end.

(** A remainder tree in the state the struct describes: the tip of the left
    remainder tree is the null link that ends its right spine, the tip of
    the right one the null link that ends its left spine. *)
Definition left_rem (t : splay_Node) : remainder := mkRem t (rspine t).
Definition right_rem (t : splay_Node) : remainder := mkRem t (lspine t).

(** The cursor with blank history whose remainder trees are [L] and [R]. *)
Definition cursor (L R : splay_Node) : splay_Topdown :=
  mkTopdown (left_rem L) (right_rem R) NULL NULL NULL NULL.

(** The cursor after [if (! is_td_history_blank(&td))
    topdown_set_aside(&td);]. *)
Definition final_zig (td : splay_Topdown) : splay_Topdown :=
  if negb (is_td_history_blank td) then topdown_set_aside td else td.

(** The root that splay_min and splay_max give a non-empty tree. *)
Definition min_root (root : splay_Node) : splay_Node :=
  let '(td, root') := min_loop initialize_topdown root in
  set_right root' (store_tip1 (rem1 td) (node_right root')).

Definition max_root (root : splay_Node) : splay_Node :=
  let '(td, root') := max_loop initialize_topdown root in
  set_left root' (store_tip0 (rem0 td) (node_left root')).

(** The two-node tree with root 2 and left child 1, and a heap in which its
    two blocks are live and malloc is going to offer block 7. *)
Definition two_nodes : splay_Tree :=
  mkTree (Node 2 2 20 (Node 1 1 10 NULL NULL) NULL) 2.

Definition two_nodes_heap : Heap :=
  mkHeap {[1%positive; 2%positive]} [Some 7%positive].

(** The first scenario of the specification: fifteen keys inserted into an
    empty tree, every offer of malloc accepted. *)
Definition scenario_keys : list splay_Key :=
  [2; 6; 10; 14; 18; 22; 26; 30; 4; 12; 20; 28; 8; 24; 16].

Definition scenario_heap : Heap :=
  mkHeap ∅ (map (fun i => Some (Pos.of_nat i)) (seq 1 15)).

Definition scenario_states : list (splay_Tree * Heap) :=
  run_ops (map (fun k => op_insert k 0) scenario_keys)
          (mkTree NULL 0, scenario_heap).

Definition scenario_tree : splay_Tree :=
  fst (List.last scenario_states (mkTree NULL 0, scenario_heap)).

(** The second scenario: the keys 1 to 1000 inserted in this order, then
    eight searches. *)
Definition thousand_heap : Heap :=
  mkHeap ∅ (map (fun i => Some (Pos.of_nat i)) (seq 1 1000)).

Definition thousand_tree : splay_Tree :=
  fst (List.last
         (run_ops (map (fun i => op_insert (Z.of_nat i) 0) (seq 1 1000))
                  (mkTree NULL 0, thousand_heap))
         (mkTree NULL 0, thousand_heap)).

(** The results of searching for the keys [ks] one after the other, and the
    tree after the last search. *)
Fixpoint find_each (ks : list splay_Key) (t : option splay_Tree)
  : list splay_Result * option splay_Tree :=
  match ks with
  | [] => ([], t)
  | k :: ks' =>
      let '(r, t') := splay_find t k in
      let '(rs, t'') := find_each ks' t' in
      (r :: rs, t'')
  end.

(** ** The properties can be decided *)

#[global] Instance bst_dec (t : splay_Node) : Decision (bst t).
Proof. induction t; cbn [bst]; apply _. Defined.

#[global] Instance in_bounds_dec (lo hi : option splay_Key) (t : splay_Node) :
  Decision (in_bounds lo hi t).
Proof.
  revert lo hi. induction t as [|a k s l IHl r IHr]; intros lo hi;
    cbn [in_bounds]; [apply _|].
  destruct lo, hi; cbn [above below]; apply _.
Defined.

#[global] Instance splay_Node_eq_dec : EqDecision splay_Node.
Proof. solve_decision. Defined.

#[global] Instance count_ok_dec (t : splay_Tree) : Decision (count_ok t).
Proof. unfold count_ok. apply _. Defined.

#[global] Instance int_keys_dec (t : splay_Node) : Decision (int_keys t).
Proof. unfold int_keys. apply _. Defined.

(** ** Further notions *)

(** The addresses of the nodes reachable from [t], left to right. *)
Definition addresses (t : splay_Node) : list addr := map raddr (inorder t).

(** Two trees are the same but for the addresses of their nodes. *)
Fixpoint same_tree (t u : splay_Node) : Prop :=
  match t, u with
  | NULL, NULL => True
  | Node _ k s l r, Node _ k' s' l' r' =>
      k = k' /\ s = s' /\ same_tree l l' /\ same_tree r r'
  | _, _ => False
  end.

(** The tree object [t] owns its nodes in the heap [h], beside the blocks
    [F] of other owners: the nodes lie in distinct live blocks, and the live
    blocks are those and [F]. *)
Definition tree_heap (F : gset addr) (t : splay_Tree) (h : Heap) : Prop :=
  NoDup (addresses (root t)) /\
  live h = addrs (root t) ∪ F /\
  addrs (root t) ## F.

(** The key that an operation brings into the tree, if it brings one, is a
    value of type [int]. *)
Definition int_op (o : operation) : Prop :=
  match o with
  | op_insert k _ => INT_MIN <= k <= INT_MAX
  | _ => True
  end.

(** The number of nodes that have exactly one child. *)
Fixpoint only_children (t : splay_Node) : nat :=
  match t with
  | NULL => O
  | Node _ _ _ l r =>
      ((if is_null l then (if is_null r then 0 else 1)
        else (if is_null r then 1 else 0))
       + only_children l + only_children r)%nat
  end.

(** The keys of the nodes, each node before its subtrees. *)
Fixpoint preorder_keys (t : splay_Node) : list splay_Key :=
  match t with
  | NULL => []
  | Node _ k _ l r => k :: preorder_keys l ++ preorder_keys r
  end.

(** The links of the tree, as pairs of the key of the parent and the key of
    the child, in the same order. *)
Fixpoint links (t : splay_Node) : list (splay_Key * splay_Key) :=
  match t with
  | NULL => []
  | Node _ k _ l r =>
      (if is_null l then [] else (k, node_keiy l) :: links l)
      ++ (if is_null r then [] else (k, node_keiy r) :: links r)
  end.

(** The visible nodes and edges that a DOT text declares. *)
Definition dot_nodes (w : list dot_text) : list Z :=
  flat_map (fun x => match x with
                     | DotRoot k => [k]
                     | DotChild k _ => [k]
                     | _ => []
                     end) w.

Definition dot_links (w : list dot_text) : list (Z * Z) :=
  flat_map (fun x => match x with
                     | DotChild k p => [(p, k)]
                     | _ => []
                     end) w.

Definition dot_phantoms (w : list dot_text) : nat :=
  length (flat_map (fun x => match x with
                             | DotPhantom _ _ => [x]
                             | _ => []
                             end) w).

(** The number of invisible siblings that dot_out_help prints around a
    child of [tpar]. *)
Definition phantoms_of (tpar : splay_Node) : nat :=
  match tpar with
  | NULL => 0
  | Node _ _ _ l r =>
      (if is_null l then 1 else 0) + (if is_null r then 1 else 0)
  end.

(** The stream [f'] is the stream [f] after as many calls of fputs or
    fprintf as [body] has elements, all successful, which have appended
    [body] to the file. *)
Definition writes (body : list dot_text) (f f' : Stdio) : Prop :=
  fopen_ok f' = fopen_ok f /\ fclose_ok f' = fclose_ok f /\
  written f' = written f ++ body /\
  write_ok f' = drop (length body) (write_ok f) /\
  Forall (eq true) (take (length body) (write_ok f)).

(** The step [e], run from the stream [f], dereferences no null pointer and
    makes at most [n] writes: either all [n] succeed, their texts satisfy
    [P] and the step returns EXIT_SUCCESS, or one of them fails and the
    step returns EXIT_FAILURE. *)
Definition runs (e : option (Z * Stdio)) (f : Stdio) (n : nat)
    (P : list dot_text -> Prop) : Prop :=
  exists rc f',
    e = Some (rc, f') /\
    (rc = EXIT_SUCCESS /\
     (exists body, writes body f f' /\ length body = n /\ P body) \/
     rc = EXIT_FAILURE /\ ~ Forall (eq true) (take n (write_ok f))).

(** What a drawing of the subtree [t] below the node [tpar] holds. *)
Definition draws (t tpar : splay_Node) (body : list dot_text) : Prop :=
  dot_nodes body = preorder_keys t /\
  dot_links body
    = match tpar with
      | NULL => []
      | Node _ pk _ _ _ => [(pk, node_keiy t)]
      end ++ links t /\
  dot_phantoms body = (phantoms_of tpar + only_children t)%nat.

(** Concrete inputs: three operations on an empty tree and a heap for
    them; a heap for a copy of [two_nodes], and one in which the second
    allocation fails; a C library in which nothing fails. *)
Definition three_ops : list operation :=
  [op_insert 1 10; op_find 1; op_erase 1 None].

Definition one_block_heap : Heap := mkHeap ∅ [Some 1%positive].

Definition copy_heap : Heap :=
  mkHeap {[1%positive; 2%positive]} [Some 7%positive; Some 8%positive].

Definition short_heap : Heap :=
  mkHeap {[1%positive; 2%positive]} [Some 7%positive; None].

Definition quiet_stdio : Stdio := mkStdio true true [] [] [].

(** The chain of [n] nodes linked by their right fields, all with key 0 and
    a null satellite, in blocks of their own. *)
Fixpoint long_chain (n : nat) : splay_Node :=
  match n with
  | O => NULL
  | S n' => Node (Pos.of_succ_nat n') 0 0 NULL (long_chain n')
  end.

(** * Proofs *)

(** ** Trees and lists *)

(** Induction on the number of nodes: the loops step down two links at a
    time. *)
Lemma nodes_ind (P : splay_Node -> Prop) :
  (forall t, (forall t', (nodes t' < nodes t)%nat -> P t') -> P t) ->
  forall t, P t.
Proof.
  intros step t. remember (nodes t) as n eqn:E. revert t E.
  induction n as [n IH] using lt_wf_ind. intros t ->.
  apply step. intros t' Hlt. exact (IH _ Hlt t' eq_refl).
Qed.

Lemma inorder_length t : length (inorder t) = nodes t.
Proof.
  induction t as [|a k s l IHl r IHr]; simpl; [reflexivity|].
  rewrite length_app. simpl. lia.
Qed.

Lemma inorder_nil t : inorder t = [] -> t = NULL.
Proof.
  destruct t as [|a k s l r]; [reflexivity|]. simpl. intros H.
  destruct (inorder l); discriminate.
Qed.

Lemma nodes_zero t : nodes t = 0%nat <-> t = NULL.
Proof. destruct t; split; try reflexivity; discriminate. Qed.

Lemma inorder_graft_right L x :
  inorder (graft_right L x) = inorder L ++ inorder x.
Proof.
  induction L as [|a k s l _ r IH]; simpl; [reflexivity|].
  rewrite IH, <- app_assoc. reflexivity.
Qed.

Lemma inorder_graft_left R x :
  inorder (graft_left R x) = inorder x ++ inorder R.
Proof.
  induction R as [|a k s l IH r _]; simpl; [rewrite app_nil_r; reflexivity|].
  rewrite IH, <- app_assoc. reflexivity.
Qed.

(** The ordering property says that the keys are sorted in symmetric
    order. *)
Lemma bst_sorted t :
  bst t <-> StronglySorted (fun x y => rkey x <= rkey y) (inorder t).
Proof.
  induction t as [|a k s l IHl r IHr]; simpl.
  - split; [constructor | trivial].
  - rewrite StronglySorted_app, StronglySorted_cons, <- IHl, <- IHr.
    split.
    + intros (Hl & Hr & Bl & Br). repeat split; try assumption.
      intros x1 x2 H1 H2. rewrite Forall_forall in Hl, Hr.
      apply elem_of_cons in H2 as [->|H2].
      * apply (Hl _ H1).
      * specialize (Hl _ H1). specialize (Hr _ H2). unfold rkey in *.
        simpl in *. lia.
    + intros (Hlr & Bl & Hr & Br). repeat split; try assumption.
      rewrite Forall_forall. intros x Hx.
      apply (Hlr x (a, k, s)); [assumption | left].
Qed.

Lemma bst_of_inorder t t' : inorder t' = inorder t -> bst t -> bst t'.
Proof. rewrite !bst_sorted. intros ->. trivial. Qed.

(** ** The tips *)

(** A store through the tip of a remainder tree hangs the pointer at the
    end of the spine. *)
Lemma store_tip0_left_rem L x : store_tip0 (left_rem L) x = graft_right L x.
Proof.
  unfold store_tip0, left_rem. cbn [rem_tip rem_root].
  induction L as [|a k s l _ r IH]; cbn; [reflexivity|]. rewrite IH.
  reflexivity.
Qed.

Lemma store_tip1_right_rem R x : store_tip1 (right_rem R) x = graft_left R x.
Proof.
  unfold store_tip1, right_rem. cbn [rem_tip rem_root].
  induction R as [|a k s l IH r _]; cbn; [reflexivity|]. rewrite IH.
  reflexivity.
Qed.

Lemma rspine_graft_right L a k s l :
  rspine (graft_right L (Node a k s l NULL)) = S (rspine L).
Proof.
  induction L as [|? ? ? ? _ r IH]; cbn; [reflexivity|].
  rewrite IH. reflexivity.
Qed.

Lemma lspine_graft_left R a k s r :
  lspine (graft_left R (Node a k s NULL r)) = S (lspine R).
Proof.
  induction R as [|? ? ? l IH ? _]; cbn; [reflexivity|].
  rewrite IH. reflexivity.
Qed.

(** update_left_tip and update_right_tip keep the remainder trees in the
    state the struct describes: the new tip is again the null link that
    ends the spine. *)
Lemma update_left_rem L a k s l :
  mkRem (store_tip0 (left_rem L) (Node a k s l NULL))
        (S (rem_tip (left_rem L)))
  = left_rem (graft_right L (Node a k s l NULL)).
Proof.
  rewrite store_tip0_left_rem. unfold left_rem. cbn [rem_tip].
  rewrite rspine_graft_right. reflexivity.
Qed.

Lemma update_right_rem R a k s r :
  mkRem (store_tip1 (right_rem R) (Node a k s NULL r))
        (S (rem_tip (right_rem R)))
  = right_rem (graft_left R (Node a k s NULL r)).
Proof.
  rewrite store_tip1_right_rem. unfold right_rem. cbn [rem_tip].
  rewrite lspine_graft_left. reflexivity.
Qed.

(** ** Tactics for running the cursor *)

(** Evaluate the cursor operations on an explicit cursor; the loops and
    the specification functions stay folded. *)
Ltac td_compute :=
  cbv beta iota zeta delta
    [cursor topdown_set_aside initialize_td_history update_left_tip
     update_right_tip history set_history is_null is_td_history_blank
     undo_first_step undo_2nd_step left_rot right_rot set_left set_right
     negb andb orb LESSKEY KEYLESS node_keiy node_left node_right node_sat];
  cbn [rem0 rem1 hist_right_first hist_left_first hist_right_2nd
       hist_left_2nd];
  rewrite ?update_left_rem, ?update_right_rem.

(** Decide the key comparisons in the goal from the context. *)
Ltac cmp_keys :=
  repeat match goal with
  | |- context [?x <? ?y] => destruct (Z.ltb_spec x y); try (exfalso; lia)
  | |- context [?x =? ?y] => destruct (Z.eqb_spec x y); try (exfalso; lia)
  end.

Ltac crunch1 :=
  first
    [ progress cbn [LESSKEY KEYLESS orb andb negb is_null node_keiy node_sat
                    node_left node_right rem0 rem1 hist_right_first
                    hist_left_first hist_right_2nd hist_left_2nd]
    | progress cmp_keys
    | match goal with
      | |- context [match ?t with NULL => _ | Node _ _ _ _ _ => _ end] =>
          is_var t; destruct t
      end
    | progress td_compute ].

Ltac crunch := repeat crunch1.

(** Bring both sides of an equation between in-order lists to one form. *)
Ltac flatten_lists :=
  cbn [inorder]; rewrite ?inorder_graft_right, ?inorder_graft_left;
  cbn [inorder];
  repeat (rewrite <- ?app_assoc; cbn [app]); rewrite ?app_nil_r.

Ltac split_hyps :=
  repeat match goal with
  | H : _ /\ _ |- _ => destruct H
  end.

(** Unfold the ordering hypotheses down to bounds on subtrees and keys. *)
Ltac bst_facts :=
  cbn [bst inorder] in *;
  repeat match goal with
  | H : Forall _ (_ ++ _) |- _ => rewrite Forall_app in H
  | H : Forall _ (_ :: _) |- _ => rewrite Forall_cons in H
  | H : _ /\ _ |- _ => destruct H
  end;
  cbn [rkey fst snd] in *.

(** A bound on the keys of a list of records, from a bound in the context
    and the comparisons made on the way. *)
Ltac forall_keys :=
  repeat first [rewrite Forall_app | rewrite Forall_cons | rewrite Forall_nil];
  cbn [rkey fst snd];
  repeat split;
  solve [ trivial | lia
        | match goal with
          | H : Forall _ ?l |- Forall _ ?l =>
              refine (Forall_impl _ _ _ H _); cbn [rkey fst snd];
              intros; lia
          end ].

(** The ordering property of a tree given in full. *)
Ltac bst_by_computation :=
  cbn [bst inorder app]; repeat split; repeat constructor;
  cbn [rkey fst snd]; lia.

(** A key is not among the keys of a tree given in full. *)
Ltac absent_by_computation :=
  let H := fresh in
  cbn; intros H; rewrite ?elem_of_cons in H;
  repeat (destruct H as [H|H]; [discriminate|]); inversion H.

(** ** One turn of each loop *)

Lemma search_stop_eq k a tk s l r :
  search_stop k (Node a tk s l r) =
  if tk <? k then (if is_null r then Node a tk s l r else search_stop k r)
  else if k <? tk then (if is_null l then Node a tk s l r else search_stop k l)
  else Node a tk s l r.
Proof. reflexivity. Qed.

Lemma leftmost_eq a k s l r :
  leftmost (Node a k s l r) =
  if is_null l then Node a k s l r else leftmost l.
Proof. reflexivity. Qed.

Lemma rightmost_eq a k s l r :
  rightmost (Node a k s l r) =
  if is_null r then Node a k s l r else rightmost r.
Proof. reflexivity. Qed.

Lemma search_loop_eq k td a tk s l r :
  search_loop k td (Node a tk s l r) =
  let root := Node a tk s l r in
  if LESSKEY root k || KEYLESS k root then
    let td1 :=
      if LESSKEY root k then set_history td RIGHT_FIRST root
      else set_history td LEFT_FIRST root in
    let root1 := if LESSKEY root k then r else l in
    match root1 with
    | NULL => let '(root', td') := undo_first_step td1 in (td', root', 0)
    | Node _ _ _ l1 r1 =>
        if LESSKEY root1 k || KEYLESS k root1 then
          let td2 :=
            if LESSKEY root1 k then set_history td1 RIGHT_2ND root1
            else set_history td1 LEFT_2ND root1 in
          let root2 := if LESSKEY root1 k then r1 else l1 in
          match root2 with
          | NULL => let '(root', td') := undo_2nd_step td2 in (td', root', 0)
          | Node _ _ _ _ _ => search_loop k (topdown_set_aside td2) root2
          end
        else (td1, root1, 1)
    end
  else (td, root, 1).
Proof. reflexivity. Qed.

Lemma min_loop_eq td a k s l r :
  min_loop td (Node a k s l r) =
  match l with
  | NULL => (td, Node a k s l r)
  | Node _ _ _ l1 _ =>
      let td1 := set_history td LEFT_FIRST (Node a k s l r) in
      match l1 with
      | NULL => min_loop (topdown_set_aside td1) l
      | Node _ _ _ _ _ =>
          min_loop (topdown_set_aside (set_history td1 LEFT_2ND l)) l1
      end
  end.
Proof. destruct l; reflexivity. Qed.

Lemma max_loop_eq td a k s l r :
  max_loop td (Node a k s l r) =
  match r with
  | NULL => (td, Node a k s l r)
  | Node _ _ _ _ r1 =>
      let td1 := set_history td RIGHT_FIRST (Node a k s l r) in
      match r1 with
      | NULL => max_loop (topdown_set_aside td1) r
      | Node _ _ _ _ _ =>
          max_loop (topdown_set_aside (set_history td1 RIGHT_2ND r)) r1
      end
  end.
Proof. destruct r; reflexivity. Qed.

Lemma insert_loop_eq nk td a k s l r :
  insert_loop nk td (Node a k s l r) =
  let root := Node a k s l r in
  let td1 :=
    if LESSKEY root nk then set_history td RIGHT_FIRST root
    else set_history td LEFT_FIRST root in
  let root1 := if LESSKEY root nk then r else l in
  match root1 with
  | NULL => topdown_set_aside td1
  | Node _ _ _ l1 r1 =>
      let td2 :=
        if LESSKEY root1 nk then set_history td1 RIGHT_2ND root1
        else set_history td1 LEFT_2ND root1 in
      let root2 := if LESSKEY root1 nk then r1 else l1 in
      insert_loop nk (topdown_set_aside td2) root2
  end.
Proof. reflexivity. Qed.

(** ** The loop of search_and_splay *)

(** Started on a non-empty tree with blank history and the tips at the ends
    of the spines, the loop stops at the node where the plain search stops
    and reports whether that node holds [k].  Once the pending history is
    set aside, the history is blank, the tips are at the ends of the spines
    again, and the left remainder tree, the stop node and the right
    remainder tree hold, in this order, the records that the cursor and the
    tree held at the start. *)
Lemma search_loop_spec k : forall root L R,
  root <> NULL ->
  match search_loop k (cursor L R) root with
  | (td', root', f) =>
      exists L' R',
        final_zig td' = cursor L' R' /\
        inorder L' ++ inorder root' ++ inorder R'
          = inorder L ++ inorder root ++ inorder R /\
        root' = search_stop k root /\
        f = (if node_keiy root' =? k then 1 else 0)
  end.
Proof.
  intros root. induction root as [root IH] using nodes_ind. intros L R Hnn.
  destruct root as [|a tk s l r]; [congruence|].
  rewrite search_loop_eq. crunch.
  all: try (unfold final_zig; td_compute; eexists _, _;
            split; [reflexivity|]; flatten_lists; repeat split;
            rewrite ?search_stop_eq; cbn [is_null]; cmp_keys; reflexivity).
  all: match goal with
       | |- context [search_loop _ (mkTopdown (left_rem ?L') (right_rem ?R')
                                               _ _ _ _) ?n] =>
           specialize (IH n ltac:(simpl; lia) L' R' ltac:(discriminate));
           unfold cursor in IH;
           remember n as g eqn:Eg
       end;
       destruct (search_loop _ _ _) as [[td' root'] f];
       destruct IH as (L1 & R1 & IH0 & IH1 & IH2 & IH3);
       exists L1, R1; (split; [exact IH0|]);
       (split; [rewrite IH1; subst g; flatten_lists; reflexivity|]);
       (split; [|exact IH3]);
       rewrite IH2, !search_stop_eq; cmp_keys; subst g; reflexivity.
Qed.

(** ** The loops of splay_min and splay_max *)

(** The walk down the left links ends at the leftmost node, leaves the left
    remainder tree and the history as they were, and hangs every node it
    passed, with its right subtree, in the right remainder tree. *)
Lemma min_loop_spec : forall root L R,
  root <> NULL ->
  match min_loop (cursor L R) root with
  | (td', root') =>
      exists R',
        td' = cursor L R' /\
        inorder root' ++ inorder R' = inorder root ++ inorder R /\
        root' = leftmost root /\
        node_left root' = NULL
  end.
Proof.
  intros root. induction root as [root IH] using nodes_ind. intros L R Hnn.
  destruct root as [|a k s l r]; [congruence|].
  rewrite min_loop_eq. crunch.
  1: exists R; repeat split; reflexivity.
  all: match goal with
       | |- context [min_loop (mkTopdown (left_rem ?L') (right_rem ?R')
                                          _ _ _ _) ?n] =>
           specialize (IH n ltac:(simpl; lia) L' R' ltac:(discriminate));
           unfold cursor in IH;
           remember n as g eqn:Eg
       end;
       destruct (min_loop _ _) as [td' root'];
       destruct IH as (R1 & IH1 & IH2 & IH3 & IH4);
       exists R1; (split; [exact IH1|]);
       (split; [rewrite IH2; subst g; flatten_lists; reflexivity|]);
       (split; [|exact IH4]);
       rewrite IH3, !leftmost_eq; subst g; reflexivity.
Qed.

Lemma max_loop_spec : forall root L R,
  root <> NULL ->
  match max_loop (cursor L R) root with
  | (td', root') =>
      exists L',
        td' = cursor L' R /\
        inorder L' ++ inorder root' = inorder L ++ inorder root /\
        root' = rightmost root /\
        node_right root' = NULL
  end.
Proof.
  intros root. induction root as [root IH] using nodes_ind. intros L R Hnn.
  destruct root as [|a k s l r]; [congruence|].
  rewrite max_loop_eq. crunch.
  1: exists L; repeat split; reflexivity.
  all: match goal with
       | |- context [max_loop (mkTopdown (left_rem ?L') (right_rem ?R')
                                          _ _ _ _) ?n] =>
           specialize (IH n ltac:(simpl; lia) L' R' ltac:(discriminate));
           unfold cursor in IH;
           remember n as g eqn:Eg
       end;
       destruct (max_loop _ _) as [td' root'];
       destruct IH as (L1 & IH1 & IH2 & IH3 & IH4);
       exists L1; (split; [exact IH1|]);
       (split; [rewrite IH2; subst g; flatten_lists; reflexivity|]);
       (split; [|exact IH4]);
       rewrite IH3, !rightmost_eq; subst g; reflexivity.
Qed.

(** ** The loop of insert_and_splay *)

(** The loop hangs every node in one of the remainder trees, keeps the
    records in order (left remainder tree first) and leaves the history
    blank and the tips at the ends of the spines.  In an ordered tree the
    nodes with a key less than [nk] go to the left remainder tree and all
    others to the right one. *)
Lemma insert_loop_spec nk : forall root L R,
  exists L' R',
    insert_loop nk (cursor L R) root = cursor L' R' /\
    inorder L' ++ inorder R' = inorder L ++ inorder root ++ inorder R /\
    (bst root ->
     Forall (fun x => rkey x < nk) (inorder L) ->
     Forall (fun x => nk <= rkey x) (inorder R) ->
     Forall (fun x => rkey x < nk) (inorder L') /\
     Forall (fun x => nk <= rkey x) (inorder R')).
Proof.
  intros root. induction root as [root IH] using nodes_ind.
  intros L R.
  destruct root as [|a k s l r].
  { exists L, R. cbn. repeat split; assumption. }
  rewrite insert_loop_eq. crunch.
  all: try (eexists _, _; split; [reflexivity|];
            split; [flatten_lists; reflexivity|];
            intros Hb HL HR; bst_facts; split; flatten_lists; forall_keys).
  all: match goal with
       | |- context [insert_loop _ (mkTopdown (left_rem ?L') (right_rem ?R')
                                               _ _ _ _) ?n] =>
           specialize (IH n ltac:(simpl; lia) L' R');
           unfold cursor in IH
       end;
       destruct IH as (L1 & R1 & IH1 & IH2 & IH3);
       exists L1, R1; (split; [exact IH1|]);
       (split; [rewrite IH2; flatten_lists; reflexivity|]);
       intros Hb HL HR; bst_facts;
       apply IH3; [assumption | flatten_lists; forall_keys ..].
Qed.

(** ** The node where the search stops *)

Lemma search_stop_nonnull k t : t <> NULL -> search_stop k t <> NULL.
Proof.
  induction t as [|a tk s l IHl r IHr]; [congruence|]. intros _.
  rewrite search_stop_eq.
  destruct (tk <? k); [|destruct (k <? tk)]; try discriminate.
  - destruct r; [discriminate|]. apply IHr. discriminate.
  - destruct l; [discriminate|]. apply IHl. discriminate.
Qed.

(** The stop node is a node of the tree. *)
Lemma search_stop_elem k t x :
  node_record (search_stop k t) = Some x -> x ∈ inorder t.
Proof.
  induction t as [|a tk s l IHl r IHr]; [discriminate|].
  rewrite search_stop_eq. cbn [inorder]. intros H.
  rewrite elem_of_app, elem_of_cons.
  destruct (tk <? k); [|destruct (k <? tk)].
  - destruct r; cbn [is_null] in H; [injection H as <-; auto|].
    right. right. apply IHr, H.
  - destruct l; cbn [is_null] in H; [injection H as <-; auto|].
    left. apply IHl, H.
  - injection H as <-; auto.
Qed.

(** In an ordered tree the plain search finds a key that is present. *)
Lemma search_stop_finds k t :
  bst t -> k ∈ keys t -> node_keiy (search_stop k t) = k.
Proof.
  unfold keys.
  induction t as [|a tk s l IHl r IHr]; cbn [inorder bst].
  - intros _ H. inversion H.
  - intros (Hl & Hr & Bl & Br) H. rewrite search_stop_eq.
    rewrite map_app in H. cbn [map] in H.
    rewrite elem_of_app, elem_of_cons in H. cbn [rkey fst snd] in H.
    assert (HL : k ∈ map rkey (inorder l) -> k <= tk).
    { intros (x & -> & Hx)%(proj1 (list_elem_of_fmap rkey _ _)).
      rewrite Forall_forall in Hl. auto. }
    assert (HR : k ∈ map rkey (inorder r) -> tk <= k).
    { intros (x & -> & Hx)%(proj1 (list_elem_of_fmap rkey _ _)).
      rewrite Forall_forall in Hr. auto. }
    destruct (Z.ltb_spec tk k) as [H1|H1];
      [|destruct (Z.ltb_spec k tk) as [H2|H2]].
    + destruct H as [H|[H|H]]; try (specialize (HL H)); try lia.
      destruct r; [inversion H|]. cbn [is_null]. auto.
    + destruct H as [H|[H|H]]; try (specialize (HR H)); try lia.
      destruct l; [inversion H|]. cbn [is_null]. auto.
    + cbn [node_keiy]. lia.
Qed.

(** ** search_and_splay *)

Lemma inorder_splice L R a k s l r :
  inorder (splice (cursor L R) (Node a k s l r)) =
  inorder L ++ inorder (Node a k s l r) ++ inorder R.
Proof.
  unfold cursor. cbn [splice rem0 rem1].
  rewrite store_tip0_left_rem, store_tip1_right_rem.
  flatten_lists. reflexivity.
Qed.

Lemma node_record_splice td n : node_record (splice td n) = node_record n.
Proof. destruct n; reflexivity. Qed.

Lemma search_and_splay_unfold root k :
  root <> NULL ->
  search_and_splay root k =
  let '(td, root', found') := search_loop k (cursor NULL NULL) root in
  (splice (final_zig td) root', found').
Proof. destruct root; [congruence|reflexivity]. Qed.

(** search_and_splay on a non-empty tree: the records keep their order, the
    new root is the node where the plain search stops, and [*found] tells
    whether it holds [k]. *)
Lemma search_and_splay_spec root k :
  root <> NULL ->
  let '(root', f) := search_and_splay root k in
  inorder root' = inorder root /\
  node_record root' = node_record (search_stop k root) /\
  f = (if node_keiy root' =? k then 1 else 0) /\
  root' <> NULL.
Proof.
  intros Hnn. rewrite (search_and_splay_unfold _ _ Hnn).
  pose proof (search_loop_spec k root NULL NULL Hnn) as H.
  destruct (search_loop _ _ _) as [[td root'] f].
  destruct H as (L' & R' & H0 & H1 & H2 & H3). rewrite H0.
  pose proof (search_stop_nonnull k root Hnn) as Hs. rewrite <- H2 in *.
  destruct root' as [|a' k' s' l' r']; [congruence|].
  rewrite inorder_splice, H1. cbn [inorder app]. rewrite app_nil_r.
  repeat split; [exact H3 | discriminate].
Qed.

Lemma search_and_splay_at_root a k s l r :
  search_and_splay (Node a k s l r) k = (Node a k s l r, 1).
Proof.
  unfold search_and_splay. rewrite search_loop_eq.
  cbn [LESSKEY KEYLESS]. rewrite Z.ltb_irrefl. reflexivity.
Qed.

Lemma inorder_search_and_splay root k :
  inorder (fst (search_and_splay root k)) = inorder root.
Proof.
  destruct root as [|a tk s l r]; [reflexivity|].
  pose proof (search_and_splay_spec (Node a tk s l r) k) as H.
  destruct (search_and_splay _ _) as [root' f].
  destruct H as (H & _); [discriminate|]. exact H.
Qed.

(** Every value of [*found] is 0 or 1. *)
Lemma search_and_splay_found root k :
  snd (search_and_splay root k) = 0 \/ snd (search_and_splay root k) = 1.
Proof.
  destruct root as [|a tk s l r]; [left; reflexivity|].
  pose proof (search_and_splay_spec (Node a tk s l r) k) as H.
  destruct (search_and_splay _ _) as [root' f].
  destruct H as (_ & _ & H & _); [discriminate|]. cbn [snd]. subst f.
  destruct (_ =? _); auto.
Qed.

(** A key that no node holds is not found. *)
Lemma search_and_splay_absent root k :
  k ∉ keys root -> snd (search_and_splay root k) = 0.
Proof.
  intros Habs. destruct root as [|a tk s l r]; [reflexivity|].
  pose proof (search_and_splay_spec (Node a tk s l r) k) as H.
  destruct (search_and_splay _ _) as [root' f].
  destruct H as (H1 & H2 & H3 & H4); [discriminate|]. cbn [snd].
  destruct (Z.eqb_spec (node_keiy root') k) as [E|E]; [|exact H3].
  exfalso. apply Habs. unfold keys. rewrite <- H1.
  destruct root' as [|a' k' s' l' r']; [congruence|].
  cbn [node_keiy] in E. subst k'. cbn [inorder].
  rewrite map_app. cbn [map]. rewrite elem_of_app, elem_of_cons. auto.
Qed.

(** If the key is found, the new root holds it. *)
Lemma search_and_splay_found_key root k :
  snd (search_and_splay root k) <> 0 ->
  node_keiy (fst (search_and_splay root k)) = k /\
  fst (search_and_splay root k) <> NULL.
Proof.
  destruct root as [|a tk s l r]; [cbn; congruence|].
  pose proof (search_and_splay_spec (Node a tk s l r) k) as H.
  destruct (search_and_splay _ _) as [root' f].
  destruct H as (_ & _ & H3 & H4); [discriminate|]. cbn [fst snd].
  destruct (Z.eqb_spec (node_keiy root') k); [auto|congruence].
Qed.

(** In an ordered tree a key that some node holds is found. *)
Lemma search_and_splay_present root k :
  bst root -> k ∈ keys root ->
  snd (search_and_splay root k) = 1 /\
  node_keiy (fst (search_and_splay root k)) = k.
Proof.
  intros Hb Hin.
  assert (Hnn : root <> NULL) by (intros ->; inversion Hin).
  pose proof (search_and_splay_spec root k Hnn) as H.
  pose proof (search_stop_finds k root Hb Hin) as Hf.
  destruct (search_and_splay _ _) as [root' f].
  destruct H as (H1 & H2 & H3 & H4). cbn [fst snd].
  assert (E : node_keiy root' = k).
  { destruct root', (search_stop k root); cbn in *; congruence. }
  rewrite E, Z.eqb_refl in H3. auto.
Qed.

Lemma splay_find_some t k :
  splay_find (Some t) k =
  (mkResult (snd (search_and_splay (root t) k))
            (if snd (search_and_splay (root t) k) =? 0 then 0 else k)
            (if snd (search_and_splay (root t) k) =? 0 then 0
             else node_sat (fst (search_and_splay (root t) k))),
   Some (mkTree (fst (search_and_splay (root t) k)) (size t))).
Proof.
  unfold splay_find. destruct (search_and_splay _ _) as [root' f].
  cbn [fst snd]. destruct (f =? 0); reflexivity.
Qed.

(** ** splay_min and splay_max *)

Lemma leftmost_nonnull t : t <> NULL -> leftmost t <> NULL.
Proof.
  induction t as [|a k s l IHl r _]; [congruence|]. intros _.
  rewrite leftmost_eq. destruct l; [discriminate|]. apply IHl. discriminate.
Qed.

Lemma rightmost_nonnull t : t <> NULL -> rightmost t <> NULL.
Proof.
  induction t as [|a k s l _ r IHr]; [congruence|]. intros _.
  rewrite rightmost_eq. destruct r; [discriminate|]. apply IHr. discriminate.
Qed.

Lemma splay_min_unfold t :
  root t <> NULL ->
  splay_min (Some t) =
  (mkResult 1 (node_keiy (min_root (root t))) (node_sat (min_root (root t))),
   Some (mkTree (min_root (root t)) (size t))).
Proof.
  intros Hnn. unfold splay_min, min_root.
  destruct (root t); [congruence|].
  destruct (min_loop _ _) as [td root']. reflexivity.
Qed.

Lemma splay_max_unfold t :
  root t <> NULL ->
  splay_max (Some t) =
  (mkResult 1 (node_keiy (max_root (root t))) (node_sat (max_root (root t))),
   Some (mkTree (max_root (root t)) (size t))).
Proof.
  intros Hnn. unfold splay_max, max_root.
  destruct (root t); [congruence|].
  destruct (max_loop _ _) as [td root']. reflexivity.
Qed.

(** splay_min keeps the records in order and brings the leftmost node, which
    then has no left child, to the root. *)
Lemma min_root_spec root :
  root <> NULL ->
  inorder (min_root root) = inorder root /\
  node_record (min_root root) = node_record (leftmost root) /\
  node_left (min_root root) = NULL /\
  min_root root <> NULL.
Proof.
  intros Hnn. unfold min_root.
  change initialize_topdown with (cursor NULL NULL).
  pose proof (min_loop_spec root NULL NULL Hnn) as H.
  pose proof (leftmost_nonnull root Hnn) as Hl.
  destruct (min_loop _ _) as [td root'].
  destruct H as (R' & -> & H2 & H3 & H4). rewrite <- H3 in *.
  destruct root' as [|a k s l r]; [congruence|].
  cbn [node_left] in H4. subst l.
  unfold cursor. cbn [set_right node_right node_left rem1].
  rewrite store_tip1_right_rem.
  cbn [inorder app] in *. rewrite app_nil_r in H2.
  rewrite inorder_graft_left. repeat split; [exact H2 | discriminate].
Qed.

Lemma max_root_spec root :
  root <> NULL ->
  inorder (max_root root) = inorder root /\
  node_record (max_root root) = node_record (rightmost root) /\
  node_right (max_root root) = NULL /\
  max_root root <> NULL.
Proof.
  intros Hnn. unfold max_root.
  change initialize_topdown with (cursor NULL NULL).
  pose proof (max_loop_spec root NULL NULL Hnn) as H.
  pose proof (rightmost_nonnull root Hnn) as Hl.
  destruct (max_loop _ _) as [td root'].
  destruct H as (L' & -> & H2 & H3 & H4). rewrite <- H3 in *.
  destruct root' as [|a k s l r]; [congruence|].
  cbn [node_right] in H4. subst r.
  unfold cursor. cbn [set_left node_right node_left rem0].
  rewrite store_tip0_left_rem.
  cbn [inorder app] in *.
  rewrite inorder_graft_right, <- app_assoc, H2. repeat split. discriminate.
Qed.

(** ** insert_and_splay and splay_insert *)

Lemma insert_and_splay_spec root a k s :
  exists L' R',
    insert_and_splay root (Node a k s NULL NULL) = Node a k s L' R' /\
    inorder L' ++ inorder R' = inorder root /\
    (bst root ->
     Forall (fun x => rkey x < k) (inorder L') /\
     Forall (fun x => k <= rkey x) (inorder R')).
Proof.
  destruct root as [|a0 k0 s0 l0 r0].
  { exists NULL, NULL. cbn. repeat split; constructor. }
  unfold insert_and_splay. cbn [node_keiy].
  change initialize_topdown with (cursor NULL NULL).
  destruct (insert_loop_spec k (Node a0 k0 s0 l0 r0) NULL NULL)
    as (L' & R' & H1 & H2 & H3).
  exists L', R'. rewrite H1. unfold cursor, left_rem, right_rem.
  cbn [rem0 rem1 rem_root set_left set_right].
  split; [reflexivity|]. split.
  - rewrite H2. cbn [inorder app]. rewrite app_nil_r. reflexivity.
  - intros Hb. apply H3; [assumption | constructor | constructor].
Qed.

Lemma splay_insert_unfold t k s h :
  splay_insert t k s h =
  match malloc h with
  | (Some a, h') =>
      (EXIT_SUCCESS,
       mkTree (insert_and_splay (root t) (Node a k s NULL NULL))
              (unsigned (size t + 1)), h')
  | (None, h') => (EXIT_FAILURE, t, h')
  end.
Proof.
  unfold splay_insert, node_ctor. destruct (malloc h) as [[a|] h'];
    reflexivity.
Qed.

(** malloc hands out a block that was not live, or nothing. *)
Lemma malloc_spec h :
  match malloc h with
  | (Some a, h') => (a ∉ live h) /\ live h' = {[a]} ∪ live h
  | (None, h') => live h' = live h
  end.
Proof.
  unfold malloc. destruct (oracle h) as [|[a|] rest]; cbn; try reflexivity.
  destruct (decide (a ∈ live h)); cbn; auto.
Qed.

(** ** splay_erase *)

Lemma inorder_set_left_min m l :
  node_left m = NULL -> m <> NULL ->
  inorder (set_left m l) = inorder l ++ inorder m.
Proof.
  destruct m as [|a k s ml mr]; [congruence|]. cbn [node_left].
  intros -> _. reflexivity.
Qed.

(** What splay_erase does, by the outcome of its search: the tree it leaves
    holds the records of the two subtrees of the node found. *)
Lemma splay_erase_spec t k psat h :
  let root' := fst (search_and_splay (root t) k) in
  if snd (search_and_splay (root t) k) =? 0 then
    splay_erase (Some t) k psat h
    = (EXIT_FAILURE, Some (mkTree root' (size t)), psat, h)
  else
    exists new,
      splay_erase (Some t) k psat h
      = (EXIT_SUCCESS, Some (mkTree new (unsigned (size t - 1))),
         match psat with Some _ => Some (node_sat root') | None => None end,
         FREENODE root' h) /\
      inorder new = inorder (node_left root') ++ inorder (node_right root').
Proof.
  cbv zeta. unfold splay_erase. rewrite splay_find_some. cbn [found sat].
  destruct (snd (search_and_splay (root t) k) =? 0) eqn:Ef; [reflexivity|].
  set (root' := fst (search_and_splay (root t) k)).
  cbn [root size].
  destruct (node_right root') as [|ra rk rs rl rr] eqn:Er.
  - cbn [is_null negb root size]. eexists. split; [reflexivity|].
    cbn [inorder]. rewrite app_nil_r. reflexivity.
  - cbn [is_null negb root size].
    rewrite splay_min_unfold by (cbn [root]; discriminate).
    cbn [snd root size]. eexists. split; [reflexivity|].
    destruct (min_root_spec (Node ra rk rs rl rr)) as (H1 & _ & H3 & H4);
      [discriminate|].
    rewrite (inorder_set_left_min _ _ H3 H4), H1. reflexivity.
Qed.

(** ** Ordering is kept *)

Lemma bst_search_and_splay root k :
  bst root -> bst (fst (search_and_splay root k)).
Proof. apply bst_of_inorder, inorder_search_and_splay. Qed.

Lemma bst_set_sat n s : bst n -> bst (set_sat n s).
Proof. destruct n; trivial. Qed.

Lemma bst_insert_and_splay root a k s :
  bst root -> bst (insert_and_splay root (Node a k s NULL NULL)).
Proof.
  intros Hb.
  destruct (insert_and_splay_spec root a k s) as (L & R & -> & H2 & H3).
  destruct (H3 Hb) as [HL HR]. cbn [bst].
  apply bst_sorted in Hb. rewrite <- H2, StronglySorted_app in Hb.
  destruct Hb as (_ & SL & SR). rewrite !bst_sorted.
  repeat split; try assumption.
  eapply Forall_impl; [exact HL|]. cbn. intros. lia.
Qed.

Lemma bst_min_root root : root <> NULL -> bst root -> bst (min_root root).
Proof.
  intros Hnn. apply bst_of_inorder. apply (min_root_spec root Hnn).
Qed.

Lemma bst_max_root root : root <> NULL -> bst root -> bst (max_root root).
Proof.
  intros Hnn. apply bst_of_inorder. apply (max_root_spec root Hnn).
Qed.

Lemma bst_erased l x r new :
  StronglySorted (fun x y => rkey x <= rkey y) (l ++ x :: r) ->
  inorder new = l ++ r -> bst new.
Proof.
  intros Hs E. rewrite bst_sorted, E.
  rewrite StronglySorted_app, StronglySorted_cons in Hs.
  destruct Hs as (H1 & H2 & H3 & H4).
  rewrite StronglySorted_app. repeat split; try assumption.
  intros x1 x2 Hx1 Hx2. apply H1; [assumption|]. right. assumption.
Qed.

Lemma bst_run_op o t h : bst (root t) -> bst (root (fst (run_op o (t, h)))).
Proof.
  intros Hb. destruct o as [k s|k s|k psat|k| |]; cbn [run_op].
  - rewrite splay_insert_unfold. destruct (malloc h) as [[a|] h'];
      cbn [fst root]; [|assumption].
    apply bst_insert_and_splay, Hb.
  - unfold splay_update.
    pose proof (bst_search_and_splay (root t) k Hb) as H.
    destruct (search_and_splay (root t) k) as [root' f]. cbn [fst] in H.
    destruct (f =? 0); cbn [snd fst root]; [assumption|].
    apply bst_set_sat, H.
  - pose proof (splay_erase_spec t k psat h) as H. cbv zeta in H.
    pose proof (bst_search_and_splay (root t) k Hb) as Hs.
    destruct (snd (search_and_splay (root t) k) =? 0).
    + rewrite H. cbn. assumption.
    + destruct H as (new & -> & Hn). cbn [default fst root].
      destruct (fst (search_and_splay (root t) k)) as [|a k' s l r].
      * cbn in Hn. apply inorder_nil in Hn. subst new. exact I.
      * cbn [node_left node_right] in Hn. apply bst_sorted in Hs.
        exact (bst_erased _ _ _ _ Hs Hn).
  - rewrite splay_find_some. cbn. apply bst_search_and_splay, Hb.
  - destruct (root t) eqn:Er.
    + unfold splay_min. rewrite Er. cbn. rewrite Er. exact I.
    + rewrite splay_min_unfold by congruence. cbn [snd default fst root].
      apply bst_min_root; [congruence|rewrite Er; assumption].
  - destruct (root t) eqn:Er.
    + unfold splay_max. rewrite Er. cbn. rewrite Er. exact I.
    + rewrite splay_max_unfold by congruence. cbn [snd default fst root].
      apply bst_max_root; [congruence|rewrite Er; assumption].
Qed.

Lemma bst_run_ops ops : forall st,
  bst (root (fst st)) ->
  Forall (fun st' => bst (root (fst st'))) (run_ops ops st).
Proof.
  induction ops as [|o ops IH]; intros [t h] Hb; cbn [run_ops].
  - constructor.
  - pose proof (bst_run_op o t h Hb) as H. constructor; [exact H|].
    apply IH, H.
Qed.

(** ** The count is kept *)

Lemma count_ok_of_size r n :
  n = Z.of_nat (nodes r) -> count_ok (mkTree r n).
Proof.
  intros ->. unfold count_ok. cbn [root size]. split; [reflexivity|].
  rewrite <- nodes_zero. lia.
Qed.

Lemma nodes_of_inorder t t' : inorder t' = inorder t -> nodes t' = nodes t.
Proof. intros H. rewrite <- !inorder_length, H. reflexivity. Qed.

Lemma nodes_set_sat n s : nodes (set_sat n s) = nodes n.
Proof. destruct n; reflexivity. Qed.

Lemma count_ok_of_size_le r n m :
  n = Z.of_nat (nodes r) -> n <= m ->
  count_ok (mkTree r n) /\ size (mkTree r n) <= m.
Proof. intros E Hle. split; [apply count_ok_of_size, E | exact Hle]. Qed.

(** Each dictionary operation keeps the count invariant, as long as the
    counter of type [unsigned] can count one more node, and lets the size
    grow by one at most. *)
Lemma count_ok_run_op o t h :
  count_ok t -> size t < UINT_MAX ->
  count_ok (fst (run_op o (t, h))) /\
  size (fst (run_op o (t, h))) <= size t + 1.
Proof.
  intros Hc Hlt. pose proof Hc as [Hs _].
  assert (Hsame : count_ok t /\ size t <= size t + 1)
    by (split; [exact Hc|lia]).
  destruct o as [k s|k s|k psat|k| |]; cbn [run_op].
  - rewrite splay_insert_unfold. destruct (malloc h) as [[a|] h'];
      cbn [fst]; [|exact Hsame].
    destruct (insert_and_splay_spec (root t) a k s) as (L & R & -> & H2 & _).
    unfold unsigned, UINT_MAX in *. rewrite Z.mod_small by lia.
    apply count_ok_of_size_le; [|lia]. cbn [nodes].
    rewrite <- !inorder_length, <- length_app, H2, inorder_length. lia.
  - unfold splay_update.
    pose proof (inorder_search_and_splay (root t) k) as H.
    destruct (search_and_splay (root t) k) as [root' f]. cbn [fst] in H.
    apply nodes_of_inorder in H.
    destruct (f =? 0); cbn [snd fst]; (apply count_ok_of_size_le; [|lia]);
      rewrite ?nodes_set_sat; congruence.
  - pose proof (splay_erase_spec t k psat h) as H. cbv zeta in H.
    pose proof (inorder_search_and_splay (root t) k) as Hi.
    apply nodes_of_inorder in Hi.
    destruct (snd (search_and_splay (root t) k) =? 0) eqn:Ef.
    + rewrite H. cbn [fst default].
      apply count_ok_of_size_le; [congruence|lia].
    + destruct H as (new & -> & Hn). cbn [default fst].
      destruct (search_and_splay_found_key (root t) k) as [_ Hnn].
      { intros E. rewrite E in Ef. discriminate. }
      destruct (fst (search_and_splay (root t) k)) as [|a k' s l r];
        [congruence|].
      cbn [node_left node_right nodes] in *.
      assert (Hnew : nodes new = (nodes l + nodes r)%nat).
      { rewrite <- !inorder_length, Hn, length_app. reflexivity. }
      unfold unsigned, UINT_MAX in *. rewrite Z.mod_small by lia.
      apply count_ok_of_size_le; lia.
  - rewrite splay_find_some. cbn [snd default fst].
    apply count_ok_of_size_le; [|lia].
    rewrite (nodes_of_inorder _ _ (inorder_search_and_splay (root t) k)).
    exact Hs.
  - destruct (is_null (root t)) eqn:Er.
    + unfold splay_min. destruct (root t); [exact Hsame|discriminate].
    + assert (Hnn : root t <> NULL)
        by (intros E; rewrite E in Er; discriminate).
      rewrite splay_min_unfold by exact Hnn. cbn [snd default fst].
      apply count_ok_of_size_le; [|lia].
      destruct (min_root_spec (root t) Hnn) as (H1 & _).
      rewrite (nodes_of_inorder _ _ H1). exact Hs.
  - destruct (is_null (root t)) eqn:Er.
    + unfold splay_max. destruct (root t); [exact Hsame|discriminate].
    + assert (Hnn : root t <> NULL)
        by (intros E; rewrite E in Er; discriminate).
      rewrite splay_max_unfold by exact Hnn. cbn [snd default fst].
      apply count_ok_of_size_le; [|lia].
      destruct (max_root_spec (root t) Hnn) as (H1 & _).
      rewrite (nodes_of_inorder _ _ H1). exact Hs.
Qed.

(** After each operation of a sequence of at most UINT_MAX dictionary
    operations on a tree that starts empty, the count invariant holds. *)
Lemma count_ok_run_ops ops : forall t h n,
  count_ok t -> size t <= n ->
  n + Z.of_nat (length ops) <= UINT_MAX ->
  Forall (fun st => count_ok (fst st)) (run_ops ops (t, h)).
Proof.
  induction ops as [|o ops IH]; intros t h n Hc Hn Hlen; cbn [run_ops].
  - constructor.
  - cbn [length] in Hlen.
    destruct (count_ok_run_op o t h Hc) as [Hc' Hs']; [lia|].
    constructor; [exact Hc'|].
    destruct (run_op o (t, h)) as [t' h'] eqn:E. cbn [fst] in *.
    apply (IH t' h' (n + 1)); [exact Hc' | lia | lia].
Qed.

(** splay_tree_clear leaves the empty tree. *)
Lemma count_ok_clear t h :
  fst (splay_tree_clear (Some t) h) = (EXIT_SUCCESS, Some (mkTree NULL 0)) /\
  count_ok (mkTree NULL 0).
Proof. split; [reflexivity|]. apply count_ok_of_size. reflexivity. Qed.

(** splay_tree_move hands root and size over and leaves the source
    empty. *)
Lemma count_ok_move ti to rc ti' to' :
  count_ok ti -> count_ok to ->
  splay_tree_move (Some ti) (Some to) = Some (rc, Some ti', Some to') ->
  count_ok ti' /\ count_ok to'.
Proof.
  intros Hi Ho. unfold splay_tree_move.
  destruct (is_null (root to)); cbn [negb].
  - destruct (size to =? 0); cbn [negb]; [|discriminate].
    intros [= <- <- <-]. split; [apply count_ok_of_size; reflexivity|].
    destruct ti; exact Hi.
  - intros [= <- <- <-]. auto.
Qed.

(** ** Lists cut by a predicate *)

Lemma filter_all {A} (P : A -> Prop) `{forall x, Decision (P x)}
    (l : list A) :
  Forall P l -> filter P l = l.
Proof.
  induction 1 as [|x l Hx _ IH]; [reflexivity|].
  rewrite filter_cons_True by assumption. rewrite IH. reflexivity.
Qed.

Lemma filter_none {A} (P : A -> Prop) `{forall x, Decision (P x)}
    (l : list A) :
  Forall (fun x => ~ P x) l -> filter P l = [].
Proof.
  induction 1 as [|x l Hx _ IH]; [reflexivity|].
  rewrite filter_cons_False by assumption. exact IH.
Qed.

(** A list cut in two, the first part within [P] and the second outside it,
    is cut where filtering by [P] cuts it. *)
Lemma filter_partition {A} (P : A -> Prop) `{forall x, Decision (P x)}
    (l1 l2 : list A) :
  Forall P l1 -> Forall (fun x => ~ P x) l2 ->
  filter P (l1 ++ l2) = l1 /\ filter (fun x => ~ P x) (l1 ++ l2) = l2.
Proof.
  intros H1 H2. rewrite !filter_app.
  rewrite (filter_all P l1 H1), (filter_none P l2 H2), app_nil_r.
  rewrite (filter_all _ l2 H2), (filter_none (fun x => ~ P x) l1).
  - auto.
  - eapply Forall_impl; [exact H1|]. cbn. tauto.
Qed.

(** ** Health check *)

Lemma breaks_bst_property_spec t : forall lo hi,
  fst (breaks_bst_property t lo hi) = false <->
  in_bounds (Some lo) (Some hi) t.
Proof.
  induction t as [|a k s l IHl r IHr]; intros lo hi;
    cbn [breaks_bst_property in_bounds above below LESSKEY KEYLESS].
  - tauto.
  - destruct (Z.ltb_spec k lo); [cbn; split; [discriminate|lia]|].
    destruct (Z.ltb_spec hi k); [cbn; split; [discriminate|lia]|].
    cbn [orb]. rewrite <- IHl, <- IHr.
    destruct (breaks_bst_property l lo k) as [[|] ml]; cbn [fst].
    + split; [discriminate|]. intros (_ & _ & ? & _). discriminate.
    + tauto.
Qed.

(** For [int] keys the whole line is the interval from INT_MIN to
    INT_MAX. *)
Lemma in_bounds_int t : forall lo hi,
  int_keys t ->
  in_bounds lo hi t <->
  in_bounds (Some (default INT_MIN lo)) (Some (default INT_MAX hi)) t.
Proof.
  unfold int_keys.
  induction t as [|a k s l IHl r IHr]; intros lo hi Hk; cbn [in_bounds].
  - tauto.
  - cbn [inorder] in Hk. rewrite Forall_app, Forall_cons in Hk.
    destruct Hk as (Hl & Hk & Hr). cbn [rkey fst snd] in Hk.
    rewrite (IHl lo (Some k) Hl), (IHr (Some k) hi Hr). cbn [default].
    destruct lo, hi; cbn [above below default]; intuition lia.
Qed.

(** Range propagation says that the tree is ordered and all its keys are
    within the interval at the root. *)
Lemma in_bounds_bst t : forall lo hi,
  in_bounds lo hi t <->
  bst t /\
  Forall (fun x => above lo (rkey x) /\ below hi (rkey x)) (inorder t).
Proof.
  induction t as [|a k s l IHl r IHr]; intros lo hi;
    cbn [in_bounds bst inorder].
  - split; [intros _; split; [exact I|constructor] | trivial].
  - rewrite IHl, IHr, Forall_app, Forall_cons. cbn [rkey fst snd].
    rewrite !Forall_forall. cbn [above below]. split.
    + intros (Ha & Hb & (Bl & Hl) & (Br & Hr)).
      assert (Fl : forall x, x ∈ inorder l -> rkey x <= k)
        by (intros x Hx; apply (Hl x Hx)).
      assert (Fr : forall x, x ∈ inorder r -> k <= rkey x)
        by (intros x Hx; apply (Hr x Hx)).
      split; [auto|]. split; [|split; [auto|]].
      * intros x Hx. split; [apply (Hl x Hx)|].
        specialize (Fl x Hx). destruct hi; cbn [below] in *; [lia|exact I].
      * intros x Hx. split; [|apply (Hr x Hx)].
        specialize (Fr x Hx). destruct lo; cbn [above] in *; [lia|exact I].
    + intros ((Hl & Hr & Bl & Br) & Fl & (Ha & Hb) & Fr).
      split; [exact Ha|]. split; [exact Hb|]. split; (split; [assumption|]).
      * intros x Hx. split; [apply (Fl x Hx) | apply (Hl x Hx)].
      * intros x Hx. split; [apply (Hr x Hx) | apply (Fr x Hx)].
Qed.

Lemma in_bounds_line_bst t : in_bounds None None t <-> bst t.
Proof.
  rewrite in_bounds_bst. split; [tauto|]. intros Hb. split; [exact Hb|].
  apply Forall_forall. intros x _. split; exact I.
Qed.

(** splay_nodecount counts the nodes, in unsigned arithmetic. *)
Lemma splay_nodecount_spec t :
  splay_nodecount t = unsigned (Z.of_nat (nodes t)).
Proof.
  induction t as [|a k s l IHl r IHr]; cbn [splay_nodecount nodes].
  - reflexivity.
  - rewrite IHl, IHr. unfold unsigned.
    set (x := Z.of_nat (nodes l)). set (y := Z.of_nat (nodes r)).
    rewrite <- (Z.add_mod (1 + x mod 2 ^ 32) y) by lia.
    replace (1 + x mod 2 ^ 32 + y) with (1 + y + x mod 2 ^ 32) by lia.
    rewrite Zplus_mod_idemp_r. f_equal. lia.
Qed.

(** ** Copying *)

Lemma splay_dtor_helper_spec n : forall h,
  splay_dtor_helper n h = mkHeap (live h ∖ addrs n) (oracle h).
Proof.
  induction n as [|a k s l IHl r IHr]; intros h;
    cbn [splay_dtor_helper addrs FREENODE].
  - destruct h as [lv orc]. cbn. f_equal. set_solver.
  - rewrite IHl, IHr. unfold free. cbn [live oracle]. f_equal. set_solver.
Qed.

(** copy_helper either succeeds, and then has built a copy of [ni] in
    blocks that were not live and now are; or it fails, and then every block
    it was given is free again and [*no] is what it was or NULL. *)
Lemma copy_helper_spec ni : forall no h,
  match copy_helper ni no h with
  | (rc, no', h') =>
      (rc = EXIT_SUCCESS /\
       contents no' = contents ni /\ nodes no' = nodes ni /\
       live h' = addrs no' ∪ live h /\ addrs no' ## live h) \/
      (rc = EXIT_FAILURE /\ ni <> NULL /\
       live h' = live h /\ (no' = no \/ no' = NULL))
  end.
Proof.
  induction ni as [|a k s l IHl r IHr]; intros no h; cbn [copy_helper].
  - left. repeat split; set_solver.
  - specialize (IHl NULL h).
    destruct (copy_helper l NULL h) as [[rcl cl] h1].
    destruct IHl as [(-> & Cl & Nl & Ll & Dl)|(-> & _ & Ll & _)];
      [|right; split; [reflexivity|]; split; [discriminate|]; auto].
    change (EXIT_SUCCESS =? EXIT_FAILURE) with false. cbv iota.
    specialize (IHr NULL h1).
    destruct (copy_helper r NULL h1) as [[rcr cr] h2].
    destruct IHr as [(-> & Cr & Nr & Lr & Dr)|(-> & _ & Lr & _)].
    + change (EXIT_SUCCESS =? EXIT_FAILURE) with false. cbv iota.
      unfold node_ctor. pose proof (malloc_spec h2) as Hm.
      destruct (malloc h2) as [[a'|] h3]; cbn [is_null].
      * destruct Hm as [Hf Hm]. left.
        cbn [set_left set_right addrs nodes]. unfold contents in *.
        cbn [inorder]. rewrite !map_app. cbn [map rkey rsat fst snd].
        rewrite Cl, Cr, Nl, Nr, Hm, Lr, Ll.
        repeat split; set_solver.
      * right. rewrite !splay_dtor_helper_spec. cbn [live].
        split; [reflexivity|]. split; [discriminate|].
        split; [set_solver | auto].
    + change (EXIT_FAILURE =? EXIT_FAILURE) with true. cbv iota.
      right. rewrite splay_dtor_helper_spec. cbn [live].
      split; [reflexivity|]. split; [discriminate|].
      split; [set_solver | auto].
Qed.

(** When splay_tree_copy into an empty destination fails, every block
    allocated for the copy has been released and the destination has a null
    root; its size field holds the size of the source. *)
Lemma splay_tree_copy_failure ti to h to' h' :
  root to = NULL -> size to = 0 ->
  splay_tree_copy (Some ti) (Some to) h = Some (EXIT_FAILURE, to', h') ->
  live h' = live h /\ to' = Some (mkTree NULL (size ti)).
Proof.
  intros Hr Hs. unfold splay_tree_copy. rewrite Hr, Hs. cbn.
  pose proof (copy_helper_spec (root ti) NULL h) as H.
  destruct (copy_helper _ _ _) as [[rc no'] h''].
  intros [= -> <- <-].
  destruct H as [(? & _)|(_ & _ & Hl & Hn)]; [discriminate|].
  split; [exact Hl|]. destruct Hn as [->| ->]; reflexivity.
Qed.

(** When it succeeds, the destination holds a copy in fresh blocks, with
    the size of the source; the count invariant of the source is that of
    the destination. *)
Lemma splay_tree_copy_success ti to h to' h' :
  root to = NULL -> size to = 0 ->
  splay_tree_copy (Some ti) (Some to) h = Some (EXIT_SUCCESS, to', h') ->
  exists no,
    to' = Some (mkTree no (size ti)) /\
    contents no = contents (root ti) /\ nodes no = nodes (root ti) /\
    live h' = addrs no ∪ live h /\ addrs no ## live h /\
    (count_ok ti -> count_ok (mkTree no (size ti))).
Proof.
  intros Hr Hs. unfold splay_tree_copy. rewrite Hr, Hs. cbn.
  pose proof (copy_helper_spec (root ti) NULL h) as H.
  destruct (copy_helper _ _ _) as [[rc no'] h''].
  intros [= -> <- <-].
  destruct H as [(_ & H1 & H2 & H3 & H4)|(? & _)]; [|discriminate].
  exists no'. split; [reflexivity|]. do 4 (split; [assumption|]).
  intros [Hc _]. apply count_ok_of_size. congruence.
Qed.

(** * The claims *)

(** C1.  For every sequence of dictionary operations (insert, update, erase,
    find, min, max) on a tree object that splay_tree_empty_ctor has made
    empty, whatever the object held before and whatever the allocator
    answers, the tree has the BST-ordering property after each operation:
    at every reachable node every key in the left subtree is at most the
    node's key, and the node's key is at most every key in the right
    subtree. *)
Theorem bst_after_each_operation (raw : splay_Tree) (ops : list operation)
    (h : Heap) :
  Forall (fun st => bst (root (fst st)))
         (run_ops ops
            (default raw (snd (splay_tree_empty_ctor (Some raw))), h)).
Proof. apply bst_run_ops. exact I. Qed.

(** C2 fails on the code.  Copying the one-node tree {5} into an empty tree,
    with malloc refusing, returns failure and leaves the destination with a
    null root and size 1: the size is neither the number of reachable nodes
    nor zero.  The destination then fails the health check of the code, and
    a second splay_tree_copy into it stops at SPLAY_ASSERT(0 == to->size). *)
Theorem failed_copy_breaks_count :
  let ti := mkTree (Node 1 5 50 NULL NULL) 1 in
  let to := mkTree NULL 0 in
  let h := mkHeap {[1%positive]} [None] in
  count_ok ti /\ count_ok to /\
  splay_tree_copy (Some ti) (Some to) h
    = Some (EXIT_FAILURE, Some (mkTree NULL 1), mkHeap {[1%positive]} []) /\
  ~ count_ok (mkTree NULL 1) /\
  splay_health_check (Some (mkTree NULL 1))
    = (EXIT_FAILURE, Some (SizeNilRoot 1)) /\
  splay_tree_copy (Some ti) (Some (mkTree NULL 1)) (mkHeap {[1%positive]} [])
    = None.
Proof.
  cbv zeta. unfold count_ok. cbn [root size nodes].
  repeat split; try reflexivity; try discriminate; try (intros; lia).
Qed.

(** C3, as the code has it.  splay_erase of a key that no node of [t] holds
    returns failure, writes nothing through [psat], frees no node, and
    leaves the size field, the number of nodes and the stored records in
    their symmetric order as they were.  The root and the shape are not
    part of what is kept. *)
Theorem splay_erase_absent_keeps_records (t : splay_Tree) (k : splay_Key)
    (psat : option splay_Satellite) (h : Heap) :
  k ∉ keys (root t) ->
  let '(rc, t', psat', h') := splay_erase (Some t) k psat h in
  rc = EXIT_FAILURE /\ psat' = psat /\ h' = h /\
  exists t1,
    t' = Some t1 /\ size t1 = size t /\
    inorder (root t1) = inorder (root t) /\
    nodes (root t1) = nodes (root t).
Proof.
  intros Habs. pose proof (splay_erase_spec t k psat h) as He.
  cbv zeta in He. rewrite (search_and_splay_absent _ _ Habs) in He.
  change (0 =? 0) with true in He. cbv iota in He. rewrite He.
  repeat split. eexists. split; [reflexivity|]. cbn [root size].
  pose proof (inorder_search_and_splay (root t) k) as Hi.
  repeat split; [exact Hi|]. exact (nodes_of_inorder _ _ Hi).
Qed.

(** C3 as stated fails: erasing the absent key 0 from the two-node tree
    with root 2 and left child 1 returns failure and leaves the node with
    key 1 at the root, the former root its right child. *)
Lemma splay_erase_absent_reshapes :
  let t := mkTree (Node 2 2 0 (Node 1 1 0 NULL NULL) NULL) 2 in
  let h := mkHeap {[1%positive; 2%positive]} [] in
  (0 ∉ keys (root t)) /\
  splay_erase (Some t) 0 None h
    = (EXIT_FAILURE,
       Some (mkTree (Node 1 1 0 NULL (Node 2 2 0 NULL NULL)) 2), None, h) /\
  mkTree (Node 1 1 0 NULL (Node 2 2 0 NULL NULL)) 2 <> t.
Proof.
  cbv zeta. split; [|split].
  - absent_by_computation.
  - reflexivity.
  - discriminate.
Qed.

(** C4 fails on the code.  Copying a three-node tree into an empty tree,
    with malloc refusing the third block, returns failure, has released the
    two blocks it was given (the live blocks are those of the source again)
    and leaves the destination with a null root, but with size 3, not 0. *)
Theorem failed_copy_leaves_size :
  let ti :=
    mkTree (Node 1 5 50 (Node 2 3 30 NULL NULL) (Node 3 8 80 NULL NULL)) 3 in
  let to := mkTree NULL 0 in
  let h := mkHeap {[1%positive; 2%positive; 3%positive]}
                  [Some 10%positive; Some 11%positive; None] in
  splay_tree_copy (Some ti) (Some to) h
    = Some (EXIT_FAILURE, Some (mkTree NULL 3),
            mkHeap {[1%positive; 2%positive; 3%positive]} []) /\
  size (mkTree NULL 3) <> 0.
Proof. cbv zeta. split; [vm_compute; reflexivity | discriminate]. Qed.

(** C5.  splay_find on a non-empty tree [t].  The tree keeps its size, its
    records and their order, and the new root is the node that the search
    compared last.  If [t] is ordered and some node holds [k], the result
    is found=1 with the key and the satellite of the new root, whose key is
    [k].  If no node holds [k], the result is found=0, and the new root,
    the last node compared on the failed search path, is a node of [t]. *)
Theorem splay_find_splays_to_root (t : splay_Tree) (k : splay_Key) :
  root t <> NULL ->
  exists root',
    snd (splay_find (Some t) k) = Some (mkTree root' (size t)) /\
    inorder root' = inorder (root t) /\
    node_record root' = node_record (search_stop k (root t)) /\
    (bst (root t) -> k ∈ keys (root t) ->
       fst (splay_find (Some t) k)
         = mkResult 1 (node_keiy root') (node_sat root') /\
       node_keiy root' = k) /\
    (k ∉ keys (root t) ->
       fst (splay_find (Some t) k) = SPLAY_BLANK_RESULT /\
       node_keiy root' ∈ keys (root t)).
Proof.
  intros Hnn. rewrite splay_find_some. cbn [fst snd].
  exists (fst (search_and_splay (root t) k)).
  split; [reflexivity|]. split; [apply inorder_search_and_splay|].
  pose proof (search_and_splay_spec (root t) k Hnn) as H.
  split; [|split].
  - destruct (search_and_splay _ _) as [root' f]. apply H.
  - intros Hb Hin.
    destruct (search_and_splay_present _ _ Hb Hin) as [-> E].
    cbn. rewrite E. auto.
  - intros Habs. rewrite (search_and_splay_absent _ _ Habs). cbn.
    split; [reflexivity|].
    destruct (search_and_splay _ _) as [root' f]. cbn [fst].
    destruct H as (H1 & H2 & _ & H4).
    unfold keys. rewrite <- H1.
    destruct root' as [|a' k' s' l' r']; [congruence|]. cbn.
    rewrite map_app. cbn. rewrite elem_of_app, elem_of_cons. auto.
Qed.

(** C6.  splay_insert(t, k, s).  When malloc hands out a block, the call
    returns success, the node in that block, holding (k, s), is the root,
    its two subtrees hold the old nodes, and the size is incremented by one
    in unsigned arithmetic, that is by one unless it was UINT_MAX.  If [t]
    was ordered, the left subtree holds exactly the old nodes with a key
    less than [k] and the right subtree all the other old nodes, both in
    their old order.  When malloc refuses, and only then, the call returns
    failure; the tree is untouched. *)
Theorem splay_insert_partitions (t : splay_Tree) (k : splay_Key)
    (s : splay_Satellite) (h : Heap) :
  match malloc h with
  | (Some a, h') =>
      exists L R,
        splay_insert t k s h
          = (EXIT_SUCCESS, mkTree (Node a k s L R) (unsigned (size t + 1)), h')
        /\ (a ∉ live h)
        /\ inorder L ++ inorder R = inorder (root t)
        /\ (bst (root t) ->
            inorder L = filter (fun x => rkey x < k) (inorder (root t)) /\
            inorder R = filter (fun x => ~ rkey x < k) (inorder (root t)))
        /\ (0 <= size t < UINT_MAX -> unsigned (size t + 1) = size t + 1)
  | (None, h') => splay_insert t k s h = (EXIT_FAILURE, t, h')
  end.
Proof.
  rewrite splay_insert_unfold.
  pose proof (malloc_spec h) as Hm.
  destruct (malloc h) as [[a|] h']; [|reflexivity].
  destruct (insert_and_splay_spec (root t) a k s) as (L & R & -> & H2 & H3).
  exists L, R. split; [reflexivity|]. split; [apply Hm|].
  split; [exact H2|]. split.
  - intros Hb. destruct (H3 Hb) as [HL HR].
    assert (HR' : Forall (fun x => ~ rkey x < k) (inorder R)).
    { eapply Forall_impl; [exact HR|]. cbn. intros. lia. }
    destruct (filter_partition (fun x => rkey x < k) _ _ HL HR') as [F1 F2].
    rewrite H2 in F1, F2. split; congruence.
  - intros Hs. unfold unsigned, UINT_MAX in *. apply Z.mod_small. lia.
Qed.

(** C7.  For a tree [t] in which no node holds [k]: after a successful
    splay_insert(t, k, s), splay_find(t, k) returns found=1 with satellite
    [s]; then splay_erase(t, k, &out) succeeds and leaves [s] in [out];
    and after it splay_find(t, k) reports found=0. *)
Theorem insert_find_erase_round_trip (t : splay_Tree) (k : splay_Key)
    (s : splay_Satellite) (h : Heap) (t1 : splay_Tree) (h1 : Heap)
    (out : splay_Satellite) :
  k ∉ keys (root t) ->
  splay_insert t k s h = (EXIT_SUCCESS, t1, h1) ->
  let '(r1, t2) := splay_find (Some t1) k in
  found r1 = 1 /\ sat r1 = s /\
  let '(rc, t3, out', h3) := splay_erase t2 k (Some out) h1 in
  rc = EXIT_SUCCESS /\ out' = Some s /\
  found (fst (splay_find t3 k)) = 0.
Proof.
  intros Habs. rewrite splay_insert_unfold.
  destruct (malloc h) as [[a|] h']; [|discriminate].
  destruct (insert_and_splay_spec (root t) a k s) as (L & R & -> & H2 & _).
  intros [= <- <-].
  rewrite splay_find_some. cbn [root size].
  rewrite search_and_splay_at_root. cbn [fst snd found sat node_sat].
  change (1 =? 0) with false. cbn [found sat].
  split; [reflexivity|]. split; [reflexivity|].
  pose proof (splay_erase_spec
                (mkTree (Node a k s L R) (unsigned (size t + 1))) k
                (Some out) h') as He.
  cbv zeta in He. cbn [root size] in He.
  rewrite search_and_splay_at_root in He. cbn [fst snd] in He.
  change (1 =? 0) with false in He.
  destruct He as (new & -> & Hn). cbn [node_sat node_left node_right] in *.
  split; [reflexivity|]. split; [reflexivity|].
  rewrite splay_find_some. cbn [fst found root].
  apply search_and_splay_absent. unfold keys. rewrite Hn, H2. exact Habs.
Qed.

(** splay_health_check returns success exactly when the size field is the
    number of reachable nodes as splay_nodecount counts it, in type
    [unsigned], is zero exactly when the root is null, and every key lies
    within the interval implied by its ancestors. *)
Lemma splay_health_check_success t :
  int_keys (root t) ->
  fst (splay_health_check (Some t)) = EXIT_SUCCESS <->
  size t = unsigned (Z.of_nat (nodes (root t))) /\
  (size t = 0 <-> root t = NULL) /\
  in_bounds None None (root t).
Proof.
  intros Hk. rewrite (in_bounds_int _ None None Hk). cbn [default].
  rewrite <- breaks_bst_property_spec.
  unfold splay_health_check, splay_size_failure.
  rewrite splay_nodecount_spec.
  destruct (root t) as [|a k s l r] eqn:Er; cbn [is_null negb andb].
  - change (unsigned (Z.of_nat (nodes NULL))) with 0.
    destruct (Z.eqb_spec (size t) 0) as [E|E]; cbn.
    + rewrite E. intuition.
    + split; [discriminate|]. intros (? & _). contradiction.
  - rewrite andb_false_r.
    destruct (Z.eqb_spec (size t) 0) as [E|E]; cbn [negb andb fst].
    + split; [discriminate|]. intros (_ & [H _] & _).
      specialize (H E). discriminate.
    + destruct (Z.eqb_spec (size t)
                           (unsigned (Z.of_nat (nodes (Node a k s l r)))))
        as [E'|E']; cbn [negb fst].
      * destruct (breaks_bst_property _ _ _) as [[|] m]; cbn [fst].
        -- split; [discriminate|]. intros (_ & _ & ?). discriminate.
        -- split; [|reflexivity]. intros _. split; [exact E'|].
           split; [|reflexivity]. split; [contradiction|discriminate].
      * split; [discriminate|]. intros (? & _). contradiction.
Qed.

(** C8, as the code has it.  For a tree object [t] with [int] keys,
    splay_health_check returns success if and only if the size field
    equals the number of reachable nodes modulo 2^32 (splay_nodecount
    counts in type [unsigned]), is zero exactly when the root is null, and
    the key of every reachable node lies within the interval implied by
    its ancestors, starting from the whole line at the root; that last
    condition is the BST-ordering property.  For a tree of at most
    UINT_MAX nodes the first two conditions are the count invariant.  The
    tree is a const parameter of the function and no tree is part of its
    result. *)
Theorem splay_health_check_iff (t : splay_Tree) :
  int_keys (root t) ->
  (fst (splay_health_check (Some t)) = EXIT_SUCCESS <->
   size t = unsigned (Z.of_nat (nodes (root t))) /\
   (size t = 0 <-> root t = NULL) /\
   in_bounds None None (root t)) /\
  (in_bounds None None (root t) <-> bst (root t)) /\
  (Z.of_nat (nodes (root t)) <= UINT_MAX ->
   (fst (splay_health_check (Some t)) = EXIT_SUCCESS <->
    count_ok t /\ in_bounds None None (root t))).
Proof.
  intros Hk. split; [apply splay_health_check_success, Hk|].
  split; [apply in_bounds_line_bst|]. intros Hn.
  rewrite (splay_health_check_success _ Hk). unfold count_ok, unsigned.
  rewrite (Z.mod_small (Z.of_nat (nodes (root t))))
    by (unfold UINT_MAX in Hn; lia).
  tauto.
Qed.

(** The chain of [n] nodes: its size, its keys and its ordering. *)
Lemma long_chain_spec n :
  nodes (long_chain n) = n /\
  Forall (fun x => rkey x = 0) (inorder (long_chain n)) /\
  bst (long_chain n).
Proof.
  induction n as [|n (IH1 & IH2 & IH3)]; cbn [long_chain nodes inorder bst].
  - repeat split; constructor.
  - rewrite IH1. split; [reflexivity|]. split.
    + constructor; [reflexivity|exact IH2].
    + split; [constructor|]. split; [|split; [exact I|exact IH3]].
      eapply Forall_impl; [exact IH2|]. cbn. intros x ->. reflexivity.
Qed.

(** A chain of 2^32 + 1 nodes with the size field 1 passes the health
    check, though its size is not the number of its nodes. *)
Lemma wrapped_count_passes n :
  Z.of_nat n = 2 ^ 32 + 1 ->
  int_keys (root (mkTree (long_chain n) 1)) /\
  bst (root (mkTree (long_chain n) 1)) /\
  fst (splay_health_check (Some (mkTree (long_chain n) 1))) = EXIT_SUCCESS /\
  ~ count_ok (mkTree (long_chain n) 1).
Proof.
  intros Hn. destruct (long_chain_spec n) as (H1 & H2 & H3).
  cbn [root].
  assert (Hk : int_keys (long_chain n)).
  { unfold int_keys. eapply Forall_impl; [exact H2|]. cbn. intros x ->.
    unfold INT_MIN, INT_MAX. lia. }
  split; [exact Hk|]. split; [exact H3|]. split.
  - apply (splay_health_check_success (mkTree (long_chain n) 1) Hk).
    cbn [root size]. rewrite H1, Hn. split; [reflexivity|].
    split; [|apply in_bounds_line_bst, H3].
    split; [discriminate|]. intros E. rewrite E in H1. cbn in H1.
    subst n. discriminate.
  - intros [Hs _]. cbn [root size] in Hs. rewrite H1, Hn in Hs.
    discriminate.
Qed.

(** C8 as stated fails: the chain of 2^32 + 1 nodes with key 0, whose size
    field holds 1, is ordered and has [int] keys, and splay_health_check
    returns success for it, but its size field is not the number of its
    reachable nodes. *)
Lemma splay_health_check_wrapped_count :
  int_keys (root (mkTree (long_chain (Z.to_nat (2 ^ 32 + 1))) 1)) /\
  bst (root (mkTree (long_chain (Z.to_nat (2 ^ 32 + 1))) 1)) /\
  fst (splay_health_check
         (Some (mkTree (long_chain (Z.to_nat (2 ^ 32 + 1))) 1)))
    = EXIT_SUCCESS /\
  ~ count_ok (mkTree (long_chain (Z.to_nat (2 ^ 32 + 1))) 1).
Proof.
  apply (wrapped_count_passes (Z.to_nat (2 ^ 32 + 1))).
  apply Z2Nat.id. apply Z.lt_le_incl. reflexivity.
Qed.

(** C9.  splay_erase of a key that no node of [t] holds returns failure and
    leaves the size field and the multiset of stored records as they were;
    what changes is the shape: on a non-empty tree the node that the failed
    search compared last is the root afterwards. *)
Theorem splay_erase_absent_frame (t : splay_Tree) (k : splay_Key)
    (psat : option splay_Satellite) (h : Heap) :
  k ∉ keys (root t) ->
  exists root',
    splay_erase (Some t) k psat h
      = (EXIT_FAILURE, Some (mkTree root' (size t)), psat, h) /\
    inorder root' ≡ₚ inorder (root t) /\
    (root t <> NULL ->
     node_record root' = node_record (search_stop k (root t))).
Proof.
  intros Habs. pose proof (splay_erase_spec t k psat h) as He.
  cbv zeta in He. rewrite (search_and_splay_absent _ _ Habs) in He.
  change (0 =? 0) with true in He. cbv iota in He.
  exists (fst (search_and_splay (root t) k)). split; [exact He|].
  split; [rewrite inorder_search_and_splay; reflexivity|].
  intros Hnn. pose proof (search_and_splay_spec (root t) k Hnn) as H.
  destruct (search_and_splay _ _) as [root' f]. apply H.
Qed.

(** C10.  A null tree handle is tolerated by the search operations:
    splay_find(NULL, k) returns found=0, key 0 and a null satellite, and
    splay_min(NULL) and splay_max(NULL) return found=0 as well.  The
    functions have no other way to report. *)
Theorem search_with_null_handle (k : splay_Key) :
  splay_find None k = (mkResult 0 0 0, None) /\
  found (fst (splay_min None)) = 0 /\
  found (fst (splay_max None)) = 0.
Proof. repeat split. Qed.

(** * The theorems at concrete inputs *)

(** C3: splay_erase of the absent key 0 on [two_nodes], with an output
    location that holds 9. *)
Lemma splay_erase_absent_keeps_records_witness :
  (0 ∉ keys (root two_nodes)) /\
  let '(rc, t', psat', h') :=
    splay_erase (Some two_nodes) 0 (Some 9) two_nodes_heap in
  rc = EXIT_FAILURE /\ psat' = Some 9 /\ h' = two_nodes_heap /\
  exists t1,
    t' = Some t1 /\ size t1 = size two_nodes /\
    inorder (root t1) = inorder (root two_nodes) /\
    nodes (root t1) = nodes (root two_nodes).
Proof.
  assert (Ha : 0 ∉ keys (root two_nodes)) by absent_by_computation.
  split; [exact Ha|].
  exact (splay_erase_absent_keeps_records two_nodes 0 (Some 9) _ Ha).
Defined.

(** C5: splay_find for key 1 in [two_nodes], which holds it. *)
Lemma splay_find_splays_to_root_witness :
  root two_nodes <> NULL /\
  bst (root two_nodes) /\
  1 ∈ keys (root two_nodes) /\
  exists root',
    snd (splay_find (Some two_nodes) 1)
      = Some (mkTree root' (size two_nodes)) /\
    inorder root' = inorder (root two_nodes) /\
    node_record root' = node_record (search_stop 1 (root two_nodes)) /\
    (bst (root two_nodes) -> 1 ∈ keys (root two_nodes) ->
       fst (splay_find (Some two_nodes) 1)
         = mkResult 1 (node_keiy root') (node_sat root') /\
       node_keiy root' = 1) /\
    (1 ∉ keys (root two_nodes) ->
       fst (splay_find (Some two_nodes) 1) = SPLAY_BLANK_RESULT /\
       node_keiy root' ∈ keys (root two_nodes)).
Proof.
  split; [discriminate|]. split; [bst_by_computation|].
  split; [cbn; rewrite !elem_of_cons; auto|].
  apply (splay_find_splays_to_root two_nodes 1). discriminate.
Defined.

(** C6: splay_insert of key 3 into [two_nodes], malloc offering block 7. *)
Lemma splay_insert_partitions_witness :
  bst (root two_nodes) /\
  0 <= size two_nodes < UINT_MAX /\
  match malloc two_nodes_heap with
  | (Some a, h') =>
      exists L R,
        splay_insert two_nodes 3 30 two_nodes_heap
          = (EXIT_SUCCESS,
             mkTree (Node a 3 30 L R) (unsigned (size two_nodes + 1)), h')
        /\ (a ∉ live two_nodes_heap)
        /\ inorder L ++ inorder R = inorder (root two_nodes)
        /\ (bst (root two_nodes) ->
            inorder L
              = filter (fun x => rkey x < 3) (inorder (root two_nodes)) /\
            inorder R
              = filter (fun x => ~ rkey x < 3) (inorder (root two_nodes)))
        /\ (0 <= size two_nodes < UINT_MAX ->
            unsigned (size two_nodes + 1) = size two_nodes + 1)
  | (None, h') =>
      splay_insert two_nodes 3 30 two_nodes_heap
        = (EXIT_FAILURE, two_nodes, h')
  end.
Proof.
  split; [bst_by_computation|]. split; [unfold UINT_MAX; cbn; lia|].
  exact (splay_insert_partitions two_nodes 3 30 two_nodes_heap).
Defined.

(** C7: insert, find and erase key 3 on [two_nodes]. *)
Lemma insert_find_erase_round_trip_witness :
  let t1 := mkTree (Node 7 3 30 (Node 2 2 20 (Node 1 1 10 NULL NULL) NULL)
                         NULL) 3 in
  let h1 := mkHeap {[1%positive; 2%positive; 7%positive]} [] in
  (3 ∉ keys (root two_nodes)) /\
  splay_insert two_nodes 3 30 two_nodes_heap = (EXIT_SUCCESS, t1, h1) /\
  let '(r1, t2) := splay_find (Some t1) 3 in
  found r1 = 1 /\ sat r1 = 30 /\
  let '(rc, t3, out', h3) := splay_erase t2 3 (Some 0) h1 in
  rc = EXIT_SUCCESS /\ out' = Some 30 /\
  found (fst (splay_find t3 3)) = 0.
Proof.
  cbv zeta.
  assert (Ha : 3 ∉ keys (root two_nodes)) by absent_by_computation.
  assert (Hi : splay_insert two_nodes 3 30 two_nodes_heap
               = (EXIT_SUCCESS,
                  mkTree (Node 7 3 30
                            (Node 2 2 20 (Node 1 1 10 NULL NULL) NULL) NULL) 3,
                  mkHeap {[1%positive; 2%positive; 7%positive]} []))
    by (vm_compute; reflexivity).
  split; [exact Ha|]. split; [exact Hi|].
  exact (insert_find_erase_round_trip two_nodes 3 30 _ _ _ 0 Ha Hi).
Defined.

(** C8: the health check of [two_nodes]. *)
Lemma splay_health_check_iff_witness :
  int_keys (root two_nodes) /\
  (fst (splay_health_check (Some two_nodes)) = EXIT_SUCCESS <->
   size two_nodes = unsigned (Z.of_nat (nodes (root two_nodes))) /\
   (size two_nodes = 0 <-> root two_nodes = NULL) /\
   in_bounds None None (root two_nodes)) /\
  (in_bounds None None (root two_nodes) <-> bst (root two_nodes)) /\
  (Z.of_nat (nodes (root two_nodes)) <= UINT_MAX ->
   (fst (splay_health_check (Some two_nodes)) = EXIT_SUCCESS <->
    count_ok two_nodes /\ in_bounds None None (root two_nodes))).
Proof.
  assert (Hk : int_keys (root two_nodes)).
  { unfold int_keys, INT_MIN, INT_MAX. cbn [inorder two_nodes root app].
    repeat constructor; cbn [rkey fst snd]; lia. }
  split; [exact Hk|].
  exact (splay_health_check_iff two_nodes Hk).
Defined.

(** C9: splay_erase of the absent key 0 on [two_nodes], with a null output
    pointer. *)
Lemma splay_erase_absent_frame_witness :
  (0 ∉ keys (root two_nodes)) /\
  exists root',
    splay_erase (Some two_nodes) 0 None two_nodes_heap
      = (EXIT_FAILURE, Some (mkTree root' (size two_nodes)), None,
         two_nodes_heap) /\
    inorder root' ≡ₚ inorder (root two_nodes) /\
    (root two_nodes <> NULL ->
     node_record root' = node_record (search_stop 0 (root two_nodes))).
Proof.
  assert (Ha : 0 ∉ keys (root two_nodes)) by absent_by_computation.
  split; [exact Ha|].
  exact (splay_erase_absent_frame two_nodes 0 None _ Ha).
Defined.

(** ** The scenarios of the specification *)

(** After each of the fifteen insertions the tree passes the health check,
    and the last one leaves fifteen nodes. *)
Example scenario_health :
  Forall (fun st => splay_health_check (Some (fst st)) = (EXIT_SUCCESS, None))
         scenario_states /\
  size scenario_tree = 15 /\ nodes (root scenario_tree) = 15%nat.
Proof.
  split; [|split; vm_compute; reflexivity].
  unfold scenario_states. cbn [map scenario_keys run_ops].
  repeat (constructor; [vm_compute; reflexivity|]). constructor.
Qed.

(** find(16) reports the root key 16; find(31) reports not-found and changes
    the root, to the node with key 30, where the search ran off the tree. *)
Example scenario_find :
  fst (splay_find (Some scenario_tree) 16) = mkResult 1 16 0 /\
  node_keiy (root scenario_tree) = 16 /\
  fst (splay_find (Some scenario_tree) 31) = SPLAY_BLANK_RESULT /\
  (root <$> snd (splay_find (Some scenario_tree) 31))
    <> Some (root scenario_tree) /\
  (node_keiy <$> (root <$> snd (splay_find (Some scenario_tree) 31))) = Some 30.
Proof.
  repeat split; try (vm_compute; reflexivity). vm_compute. discriminate.
Qed.

(** min() on an empty tree reports not-found; on a one-node tree it reports
    that node's key and leaves the tree as it is. *)
Example scenario_min :
  splay_min (Some (mkTree NULL 0))
    = (SPLAY_BLANK_RESULT, Some (mkTree NULL 0)) /\
  splay_min (Some (mkTree (Node 1 5 50 NULL NULL) 1))
    = (mkResult 1 5 50, Some (mkTree (Node 1 5 50 NULL NULL) 1)).
Proof. split; reflexivity. Qed.

(** After the insertion of the keys 1 to 1000, the searches for 1, 2, 4, 8,
    12, 24, 40 and 56 all report found, and the size is 1000 before and
    after them. *)
Example scenario_thousand :
  let searches :=
    find_each [1; 2; 4; 8; 12; 24; 40; 56] (Some thousand_tree) in
  (size thousand_tree, map found (fst searches), size <$> snd searches)
  = (1000, [1; 1; 1; 1; 1; 1; 1; 1], Some 1000).
Proof. vm_compute. reflexivity. Qed.

(** * Further properties of the code *)

(** ** Helper lemmas *)

(** A search that reports the key leaves a node with that key at the
    root. *)
Lemma search_and_splay_found_shape root k :
  snd (search_and_splay root k) <> 0 ->
  snd (search_and_splay root k) = 1 /\
  exists a s l r, fst (search_and_splay root k) = Node a k s l r.
Proof.
  intros Hf. destruct (search_and_splay_found_key _ _ Hf) as [Hk Hn].
  split; [destruct (search_and_splay_found root k); congruence|].
  destruct (fst (search_and_splay root k)) as [|a k' s l r]; [congruence|].
  cbn in Hk. subst k'. eauto.
Qed.

Lemma mkTree_eta t : mkTree (root t) (size t) = t.
Proof. destruct t; reflexivity. Qed.

(** ** Rotations *)

(** X1.  left_rot and right_rot are inverse to each other: the left
    rotation of the link from a node to its right child gives the tree
    whose right rotation gives the first tree back.  Both trees hold the
    same records in the same symmetric order, so one is ordered exactly
    when the other is. *)
Theorem rotations_keep_order (ax ay : addr) (kx ky : splay_Key)
    (sx sy : splay_Satellite) (A B C : splay_Node) :
  let p := Node ax kx sx A (Node ay ky sy B C) in
  let q := Node ay ky sy (Node ax kx sx A B) C in
  left_rot p = q /\ right_rot q = p /\
  inorder p = inorder q /\ (bst p <-> bst q).
Proof.
  cbv zeta.
  assert (E : inorder (Node ax kx sx A (Node ay ky sy B C))
              = inorder (Node ay ky sy (Node ax kx sx A B) C)).
  { cbn [inorder]. rewrite <- app_assoc. reflexivity. }
  split; [reflexivity|]. split; [reflexivity|]. split; [exact E|].
  rewrite !bst_sorted, E. reflexivity.
Qed.

(** ** Searching *)

(** X2.  splay_find on a tree object reports 0 or 1.  It reports 1 only
    for a key that a record of the tree holds, and the result then carries
    that key and the satellite of such a record; this needs no ordering of
    the tree.  On an ordered tree it reports 1 for every key that a record
    holds. *)
Theorem splay_find_reports_membership (t : splay_Tree) (k : splay_Key) :
  let r := fst (splay_find (Some t) k) in
  (found r = 0 \/ found r = 1) /\
  (found r = 1 -> key r = k /\ exists a, (a, k, sat r) ∈ inorder (root t)) /\
  (found r = 0 -> key r = 0 /\ sat r = 0) /\
  (bst (root t) -> k ∈ keys (root t) -> found r = 1).
Proof.
  cbv zeta. rewrite splay_find_some. cbn [fst found key sat].
  split; [apply search_and_splay_found|]. split; [|split].
  - intros Hf.
    assert (Hn : snd (search_and_splay (root t) k) <> 0) by lia.
    destruct (search_and_splay_found_shape _ _ Hn) as (_ & a & s & l & r & E).
    rewrite Hf. change (1 =? 0) with false. cbv iota.
    split; [reflexivity|]. exists a.
    rewrite <- (inorder_search_and_splay (root t) k), E. cbn.
    rewrite elem_of_app, elem_of_cons. auto.
  - intros ->. split; reflexivity.
  - intros Hb Hin. apply (search_and_splay_present _ _ Hb Hin).
Qed.

(** X3.  A search that has found its key can be repeated at no cost to the
    shape: splay_find for the same key on the tree it left returns the same
    result and leaves the tree as it is. *)
Theorem splay_find_again (t : splay_Tree) (k : splay_Key) :
  found (fst (splay_find (Some t) k)) <> 0 ->
  splay_find (snd (splay_find (Some t) k)) k = splay_find (Some t) k.
Proof.
  rewrite splay_find_some. cbn [fst snd found]. intros Hf.
  destruct (search_and_splay_found_shape _ _ Hf) as (E1 & a & s & l & r & E).
  rewrite E1, E. change (1 =? 0) with false. cbv iota.
  rewrite splay_find_some. cbn [root size].
  rewrite search_and_splay_at_root. reflexivity.
Qed.

(** X4.  splay_min.  On an empty tree it reports not-found and leaves the
    tree as it is.  On a non-empty tree it reports found with the key and
    the satellite of the first record in symmetric order, whose node it
    makes the root, without a left child; the records, their order and the
    size stay.  If the tree is ordered, no record has a smaller key. *)
Theorem splay_min_finds_first (t : splay_Tree) :
  match root t with
  | NULL => splay_min (Some t) = (SPLAY_BLANK_RESULT, Some t)
  | Node _ _ _ _ _ =>
      exists root',
        splay_min (Some t)
          = (mkResult 1 (node_keiy root') (node_sat root'),
             Some (mkTree root' (size t))) /\
        inorder root' = inorder (root t) /\
        node_left root' = NULL /\
        head (inorder (root t)) = node_record root' /\
        (bst (root t) ->
         Forall (fun x => node_keiy root' <= rkey x) (inorder (root t)))
  end.
Proof.
  destruct (root t) as [|a k s l r] eqn:Er.
  - unfold splay_min. rewrite Er. reflexivity.
  - assert (Hnn : root t <> NULL) by congruence.
    destruct (min_root_spec _ Hnn) as (Hi & _ & Hl & Hn).
    exists (min_root (root t)). rewrite <- Er.
    split; [apply splay_min_unfold, Hnn|]. split; [exact Hi|].
    split; [exact Hl|].
    destruct (min_root (root t)) as [|a' k' s' l' r']; [congruence|].
    cbn in Hl. subst l'. cbn in Hi. rewrite <- Hi. split; [reflexivity|].
    intros Hb. apply bst_sorted in Hb. rewrite <- Hi in Hb.
    apply StronglySorted_inv in Hb as [_ Hall]. cbn [node_keiy].
    constructor; [cbn; lia|exact Hall].
Qed.

(** X5.  splay_max.  On an empty tree it reports not-found and leaves the
    tree as it is.  On a non-empty tree it reports found with the key and
    the satellite of the last record in symmetric order, whose node it
    makes the root, without a right child; the records, their order and
    the size stay.  If the tree is ordered, no record has a larger key. *)
Theorem splay_max_finds_last (t : splay_Tree) :
  match root t with
  | NULL => splay_max (Some t) = (SPLAY_BLANK_RESULT, Some t)
  | Node _ _ _ _ _ =>
      exists root',
        splay_max (Some t)
          = (mkResult 1 (node_keiy root') (node_sat root'),
             Some (mkTree root' (size t))) /\
        inorder root' = inorder (root t) /\
        node_right root' = NULL /\
        last (inorder (root t)) = node_record root' /\
        (bst (root t) ->
         Forall (fun x => rkey x <= node_keiy root') (inorder (root t)))
  end.
Proof.
  destruct (root t) as [|a k s l r] eqn:Er.
  - unfold splay_max. rewrite Er. reflexivity.
  - assert (Hnn : root t <> NULL) by congruence.
    destruct (max_root_spec _ Hnn) as (Hi & _ & Hr & Hn).
    exists (max_root (root t)). rewrite <- Er.
    split; [apply splay_max_unfold, Hnn|]. split; [exact Hi|].
    split; [exact Hr|].
    destruct (max_root (root t)) as [|a' k' s' l' r']; [congruence|].
    cbn in Hr. subst r'. cbn in Hi. rewrite <- Hi.
    split; [apply last_snoc|].
    intros Hb. apply bst_sorted in Hb. rewrite <- Hi in Hb.
    cbn [node_keiy]. rewrite Forall_app. split.
    + rewrite Forall_forall. intros x Hx.
      apply (StronglySorted_app_1_elem_of _ _ _ x (a', k', s') Hb Hx). left.
    + constructor; [cbn; lia|constructor].
Qed.

(** ** Updating and erasing *)

Lemma inorder_set_sat a k s0 l r s :
  inorder (set_sat (Node a k s0 l r) s) = inorder l ++ (a, k, s) :: inorder r.
Proof. reflexivity. Qed.

(** X6.  splay_update keeps the size and returns failure for a key that no
    record holds; on an ordered tree it returns success for a key that a
    record holds.  When it fails the records are as they were.  When it
    succeeds, exactly one record with that key has its satellite replaced,
    all other records and the order are as they were, and the node of that
    record is the root. *)
Theorem splay_update_one_record (t : splay_Tree) (k : splay_Key)
    (s : splay_Satellite) :
  let '(rc, t') := splay_update t k s in
  size t' = size t /\
  (k ∉ keys (root t) -> rc = EXIT_FAILURE) /\
  (bst (root t) -> k ∈ keys (root t) -> rc = EXIT_SUCCESS) /\
  (rc = EXIT_FAILURE /\ inorder (root t') = inorder (root t) \/
   rc = EXIT_SUCCESS /\
   exists a s0 l r,
     inorder (root t) = l ++ (a, k, s0) :: r /\
     inorder (root t') = l ++ (a, k, s) :: r /\
     node_record (root t') = Some (a, k, s)).
Proof.
  unfold splay_update.
  pose proof (inorder_search_and_splay (root t) k) as Hi.
  pose proof (search_and_splay_absent (root t) k) as Ha.
  pose proof (search_and_splay_present (root t) k) as Hp.
  pose proof (search_and_splay_found_shape (root t) k) as Hs.
  destruct (search_and_splay (root t) k) as [root' f]. cbn [fst snd] in *.
  destruct (Z.eqb_spec f 0) as [->|Hf]; cbn [root size].
  - split; [reflexivity|]. split; [reflexivity|].
    split; [intros Hb Hin; destruct (Hp Hb Hin); discriminate|].
    left. split; [reflexivity|exact Hi].
  - destruct (Hs Hf) as (_ & a & s0 & l & r & ->).
    split; [reflexivity|]. split; [intros Habs; specialize (Ha Habs); lia|].
    split; [reflexivity|]. right. split; [reflexivity|].
    exists a, s0, (inorder l), (inorder r). rewrite <- Hi.
    repeat split.
Qed.

(** X7.  After a successful splay_update(t, k, s), splay_find(t, k)
    reports found with key [k] and satellite [s], and leaves the tree as
    the update left it. *)
Theorem update_then_find (t : splay_Tree) (k : splay_Key)
    (s : splay_Satellite) :
  fst (splay_update t k s) = EXIT_SUCCESS ->
  splay_find (Some (snd (splay_update t k s))) k
    = (mkResult 1 k s, Some (snd (splay_update t k s))).
Proof.
  unfold splay_update.
  pose proof (search_and_splay_found_shape (root t) k) as Hs.
  destruct (search_and_splay (root t) k) as [root' f]. cbn [fst snd] in *.
  destruct (Z.eqb_spec f 0) as [E|Hf]; cbn [fst snd]; [discriminate|].
  intros _. destruct (Hs Hf) as (_ & a & s0 & l & r & ->).
  rewrite splay_find_some. cbn [root size set_sat].
  rewrite search_and_splay_at_root. reflexivity.
Qed.

(** X8.  splay_erase returns success or failure; on an ordered tree it
    returns success for every key that a record holds.  When it succeeds,
    exactly one record with that key is gone and the other records are in
    their old order; the block of the erased node is freed and no other;
    its satellite is stored through [psat] unless that pointer is null; the
    size is decremented by one in unsigned arithmetic. *)
Theorem splay_erase_removes_one (t : splay_Tree) (k : splay_Key)
    (psat : option splay_Satellite) (h : Heap) :
  let '(rc, t', psat', h') := splay_erase (Some t) k psat h in
  (rc = EXIT_SUCCESS \/ rc = EXIT_FAILURE) /\
  (bst (root t) -> k ∈ keys (root t) -> rc = EXIT_SUCCESS) /\
  (rc = EXIT_SUCCESS ->
   exists a s0 l r new,
     inorder (root t) = l ++ (a, k, s0) :: r /\
     t' = Some (mkTree new (unsigned (size t - 1))) /\
     inorder new = l ++ r /\
     psat' = match psat with Some _ => Some s0 | None => None end /\
     h' = free a h).
Proof.
  pose proof (splay_erase_spec t k psat h) as He. cbv zeta in He.
  pose proof (inorder_search_and_splay (root t) k) as Hi.
  pose proof (search_and_splay_present (root t) k) as Hp.
  pose proof (search_and_splay_found_shape (root t) k) as Hs.
  destruct (search_and_splay (root t) k) as [root' f]. cbn [fst snd] in *.
  destruct (f =? 0) eqn:Ef;
    [apply Z.eqb_eq in Ef as -> | apply Z.eqb_neq in Ef as Hf].
  - rewrite He. split; [right; reflexivity|].
    split; [intros Hb Hin; destruct (Hp Hb Hin); discriminate|].
    discriminate.
  - destruct He as (new & -> & Hn). split; [left; reflexivity|].
    split; [reflexivity|]. intros _.
    destruct (Hs Hf) as (_ & a & s0 & l & r & ->).
    exists a, s0, (inorder l), (inorder r), new. rewrite <- Hi.
    repeat split. exact Hn.
Qed.

Lemma unsigned_succ_pred z :
  0 <= z <= UINT_MAX -> unsigned (unsigned (z + 1) - 1) = z.
Proof.
  unfold unsigned, UINT_MAX. intros Hz.
  rewrite Zminus_mod_idemp_l. replace (z + 1 - 1) with z by lia.
  apply Z.mod_small. lia.
Qed.

(** X9.  An insertion undone.  After a successful splay_insert(t, k, s),
    whether or not other records hold [k], splay_find(t, k) reports the
    new record, and splay_erase(t, k, NULL) succeeds and removes that
    record again: the records and their order, the size and the set of
    live blocks are as before the insertion. *)
Theorem insert_then_erase_restores (t : splay_Tree) (k : splay_Key)
    (s : splay_Satellite) (h : Heap) (t1 : splay_Tree) (h1 : Heap) :
  0 <= size t <= UINT_MAX ->
  splay_insert t k s h = (EXIT_SUCCESS, t1, h1) ->
  fst (splay_find (Some t1) k) = mkResult 1 k s /\
  exists t2 h2,
    splay_erase (Some t1) k None h1 = (EXIT_SUCCESS, Some t2, None, h2) /\
    inorder (root t2) = inorder (root t) /\
    size t2 = size t /\
    live h2 = live h.
Proof.
  intros Hz. rewrite splay_insert_unfold.
  pose proof (malloc_spec h) as Hm.
  destruct (malloc h) as [[a|] h']; [|discriminate].
  destruct (insert_and_splay_spec (root t) a k s) as (L & R & -> & H2 & _).
  intros [= <- <-]. destruct Hm as [Hfresh Hlive].
  rewrite splay_find_some. cbn [root size].
  rewrite search_and_splay_at_root. split; [reflexivity|].
  pose proof (splay_erase_spec
                (mkTree (Node a k s L R) (unsigned (size t + 1))) k
                None h') as He.
  cbv zeta in He. cbn [root size] in He.
  rewrite search_and_splay_at_root in He. cbn [fst snd] in He.
  change (1 =? 0) with false in He.
  destruct He as (new & -> & Hn). cbn [node_left node_right] in Hn.
  eexists _, _. split; [reflexivity|]. cbn [root size].
  split; [congruence|]. split; [apply unsigned_succ_pred, Hz|].
  cbn [FREENODE free live]. rewrite Hlive. set_solver.
Qed.

(** splay_max on a non-empty tree, and the erasure of the key it reports:
    the last record goes, and its block. *)
Lemma splay_max_erase_step t h :
  root t <> NULL ->
  exists a k s rest t1 new,
    inorder (root t) = rest ++ [(a, k, s)] /\
    splay_max (Some t) = (mkResult 1 k s, Some t1) /\
    splay_erase (Some t1) k None h
      = (EXIT_SUCCESS, Some (mkTree new (unsigned (size t - 1))), None,
         free a h) /\
    inorder new = rest.
Proof.
  intros Hnn. rewrite (splay_max_unfold _ Hnn).
  destruct (max_root_spec _ Hnn) as (Hi & _ & Hr & Hn).
  destruct (max_root (root t)) as [|a k s l r]; [congruence|].
  cbn in Hr. subst r. cbn [node_keiy node_sat].
  pose proof (splay_erase_spec (mkTree (Node a k s l NULL) (size t)) k
                None h) as He.
  cbv zeta in He. cbn [root size] in He.
  rewrite search_and_splay_at_root in He. cbn [fst snd] in He.
  change (1 =? 0) with false in He.
  destruct He as (new & He & Hnew). cbn [node_left node_right inorder] in Hnew.
  rewrite app_nil_r in Hnew.
  exists a, k, s, (inorder l), (mkTree (Node a k s l NULL) (size t)), new.
  rewrite <- Hi. repeat split; assumption.
Qed.

(** X10.  The extraction of the maximum, [r = splay_max(&t)] followed by
    [splay_erase(&t, r.key, NULL)], on a non-empty tree: splay_max reports
    found, the erasure succeeds, and what it removes is the record that
    splay_max reported, the last one in symmetric order; the other records
    stay in their order.  No ordering of the tree is needed. *)
Theorem splay_max_then_erase (t : splay_Tree) (h : Heap) :
  root t <> NULL ->
  let '(r, t1) := splay_max (Some t) in
  found r = 1 /\
  exists x rest new,
    inorder (root t) = rest ++ [x] /\
    key r = rkey x /\ sat r = rsat x /\
    splay_erase t1 (key r) None h
      = (EXIT_SUCCESS, Some (mkTree new (unsigned (size t - 1))), None,
         free (raddr x) h) /\
    inorder new = rest.
Proof.
  intros Hnn.
  destruct (splay_max_erase_step t h Hnn)
    as (a & k & s & rest & t1 & new & Hi & -> & He & Hnew).
  split; [reflexivity|]. exists (a, k, s), rest, new.
  repeat split; assumption.
Qed.

(** X11.  An insertion at the end keeps the shape.  If the root has no
    right child and its key is less than the new key, a successful
    splay_insert makes the old tree, as it is, the left subtree of the new
    root, which has no right subtree; if the root has no left child and
    its key is not less than the new key, the old tree becomes the right
    subtree.  Either way the size is incremented in unsigned arithmetic. *)
Theorem splay_insert_at_the_end (t : splay_Tree) (k : splay_Key)
    (s : splay_Satellite) (h : Heap) (a' : addr) (h' : Heap) :
  malloc h = (Some a', h') ->
  (node_right (root t) = NULL -> node_keiy (root t) < k ->
   root t <> NULL ->
   splay_insert t k s h
     = (EXIT_SUCCESS,
        mkTree (Node a' k s (root t) NULL) (unsigned (size t + 1)), h')) /\
  (node_left (root t) = NULL -> k <= node_keiy (root t) ->
   root t <> NULL ->
   splay_insert t k s h
     = (EXIT_SUCCESS,
        mkTree (Node a' k s NULL (root t)) (unsigned (size t + 1)), h')).
Proof.
  intros Hm. rewrite splay_insert_unfold, Hm.
  destruct (root t) as [|a rk rs l r]; split; intros Hc Hk Hnn;
    try congruence; cbn in Hc, Hk; subst;
    unfold insert_and_splay; cbn [node_keiy insert_loop LESSKEY].
  - destruct (Z.ltb_spec rk k); [|lia]. reflexivity.
  - destruct (Z.ltb_spec rk k); [lia|]. reflexivity.
Qed.

(** ** Sequences of operations *)

Lemma splay_min_null t :
  is_null (root t) = true ->
  splay_min (Some t) = (SPLAY_BLANK_RESULT, Some t).
Proof. unfold splay_min. destruct (root t); [reflexivity|discriminate]. Qed.

Lemma splay_max_null t :
  is_null (root t) = true ->
  splay_max (Some t) = (SPLAY_BLANK_RESULT, Some t).
Proof. unfold splay_max. destruct (root t); [reflexivity|discriminate]. Qed.

(** What one dictionary operation does to the records and to the heap:
    an insertion adds one record in a fresh block or changes nothing, an
    update replaces the satellite of at most one record, an erasure removes
    at most one record and frees its block, a search changes neither. *)
Lemma run_op_effect o t h :
  match run_op o (t, h) with
  | (t', h') =>
      match o with
      | op_insert k s =>
          (t' = t /\ live h' = live h) \/
          exists a l r,
            (a ∉ live h) /\ live h' = {[a]} ∪ live h /\
            inorder (root t) = l ++ r /\
            inorder (root t') = l ++ (a, k, s) :: r
      | op_update k s =>
          h' = h /\
          (inorder (root t') = inorder (root t) \/
           exists a s0 l r,
             inorder (root t) = l ++ (a, k, s0) :: r /\
             inorder (root t') = l ++ (a, k, s) :: r)
      | op_erase k _ =>
          (h' = h /\ inorder (root t') = inorder (root t)) \/
          exists a s0 l r,
            inorder (root t) = l ++ (a, k, s0) :: r /\
            inorder (root t') = l ++ r /\ h' = free a h
      | _ => h' = h /\ inorder (root t') = inorder (root t)
      end
  end.
Proof.
  destruct o as [k s|k s|k psat|k| |]; cbn [run_op].
  - rewrite splay_insert_unfold. pose proof (malloc_spec h) as Hm.
    destruct (malloc h) as [[a|] h']; [|left; auto].
    destruct (insert_and_splay_spec (root t) a k s) as (L & R & -> & H2 & _).
    right. exists a, (inorder L), (inorder R). destruct Hm as [Hf Hl].
    cbn [root inorder]. auto.
  - split; [reflexivity|]. unfold splay_update.
    pose proof (inorder_search_and_splay (root t) k) as Hi.
    pose proof (search_and_splay_found_shape (root t) k) as Hs.
    destruct (search_and_splay (root t) k) as [root' f]. cbn [fst snd] in *.
    destruct (f =? 0) eqn:Ef; cbn [snd root]; [left; exact Hi|].
    apply Z.eqb_neq in Ef. destruct (Hs Ef) as (_ & a & s0 & l & r & ->).
    right. exists a, s0, (inorder l), (inorder r). rewrite <- Hi. auto.
  - pose proof (splay_erase_spec t k psat h) as He. cbv zeta in He.
    pose proof (inorder_search_and_splay (root t) k) as Hi.
    pose proof (search_and_splay_found_shape (root t) k) as Hs.
    destruct (search_and_splay (root t) k) as [root' f]. cbn [fst snd] in *.
    destruct (f =? 0) eqn:Ef.
    + rewrite He. cbn [default root]. left. auto.
    + apply Z.eqb_neq in Ef. destruct (Hs Ef) as (_ & a & s0 & l & r & ->).
      destruct He as (new & -> & Hn). cbn [default root]. right.
      exists a, s0, (inorder l), (inorder r). rewrite <- Hi. auto.
  - rewrite splay_find_some. cbn [snd default root].
    split; [reflexivity|apply inorder_search_and_splay].
  - destruct (is_null (root t)) eqn:Er.
    + rewrite (splay_min_null _ Er). auto.
    + assert (Hnn : root t <> NULL)
        by (intros E; rewrite E in Er; discriminate).
      rewrite splay_min_unfold by exact Hnn. cbn [snd default root].
      split; [reflexivity|apply (min_root_spec _ Hnn)].
  - destruct (is_null (root t)) eqn:Er.
    + rewrite (splay_max_null _ Er). auto.
    + assert (Hnn : root t <> NULL)
        by (intros E; rewrite E in Er; discriminate).
      rewrite splay_max_unfold by exact Hnn. cbn [snd default root].
      split; [reflexivity|apply (max_root_spec _ Hnn)].
Qed.

Lemma int_keys_run_op o t h :
  int_keys (root t) -> int_op o -> int_keys (root (fst (run_op o (t, h)))).
Proof.
  intros Hk Ho. pose proof (run_op_effect o t h) as He.
  destruct (run_op o (t, h)) as [t' h']. cbn [fst]. unfold int_keys in *.
  destruct o as [k s|k s|k psat|k| |]; cbn [int_op] in Ho.
  - destruct He as [[-> _]|(a & l & r & _ & _ & E & ->)]; [exact Hk|].
    rewrite E in Hk. rewrite Forall_app in Hk. destruct Hk as [Hl Hr].
    rewrite Forall_app, Forall_cons. auto.
  - destruct He as [_ [->|(a & s0 & l & r & E & ->)]]; [exact Hk|].
    rewrite E, Forall_app, Forall_cons in Hk.
    rewrite Forall_app, Forall_cons. exact Hk.
  - destruct He as [[_ ->]|(a & s0 & l & r & E & -> & _)]; [exact Hk|].
    rewrite E, Forall_app, Forall_cons in Hk.
    rewrite Forall_app. tauto.
  - destruct He as [_ ->]. exact Hk.
  - destruct He as [_ ->]. exact Hk.
  - destruct He as [_ ->]. exact Hk.
Qed.

Lemma breaks_bst_property_false t : forall lo hi,
  fst (breaks_bst_property t lo hi) = false ->
  breaks_bst_property t lo hi = (false, None).
Proof.
  induction t as [|a k s l IHl r IHr]; intros lo hi; cbn [breaks_bst_property].
  - reflexivity.
  - destruct (LESSKEY _ _ || KEYLESS _ _); [discriminate|].
    specialize (IHl lo k).
    destruct (breaks_bst_property l lo k) as [[|] ml]; [discriminate|].
    intros H. apply IHr, H.
Qed.

(** An ordered tree with the right count and keys of type [int] passes the
    health check, and no message is written. *)
Lemma splay_health_check_passes t :
  bst (root t) -> count_ok t -> int_keys (root t) -> size t <= UINT_MAX ->
  splay_health_check (Some t) = (EXIT_SUCCESS, None).
Proof.
  intros Hb [Hs Hz] Hk Hle. unfold splay_health_check, splay_size_failure.
  rewrite splay_nodecount_spec. unfold unsigned.
  rewrite (Z.mod_small (Z.of_nat (nodes (root t))))
    by (unfold UINT_MAX in Hle; lia).
  assert (Hbr : breaks_bst_property (root t) INT_MIN INT_MAX = (false, None)).
  { apply breaks_bst_property_false, breaks_bst_property_spec.
    apply (in_bounds_int _ None None Hk), in_bounds_line_bst, Hb. }
  rewrite Hbr. rewrite <- Hs, Z.eqb_refl. cbn [negb].
  destruct (root t) as [|a k s l r]; cbn [is_null negb andb].
  - assert (size t = 0) as -> by (apply Hz; reflexivity). reflexivity.
  - destruct (Z.eqb_spec (size t) 0) as [E|E]; [|reflexivity].
    apply Hz in E. discriminate.
Qed.

Lemma healthy_run_ops ops : forall t h n,
  bst (root t) -> count_ok t -> int_keys (root t) -> size t <= n ->
  n + Z.of_nat (length ops) <= UINT_MAX ->
  Forall int_op ops ->
  Forall (fun st => splay_health_check (Some (fst st)) = (EXIT_SUCCESS, None))
         (run_ops ops (t, h)).
Proof.
  induction ops as [|o ops IH]; intros t h n Hb Hc Hk Hn Hlen Hops;
    cbn [run_ops]; [constructor|].
  cbn [length] in Hlen. apply Forall_cons in Hops as [Ho Hops].
  destruct (count_ok_run_op o t h Hc) as [Hc' Hs']; [lia|].
  pose proof (bst_run_op o t h Hb) as Hb'.
  pose proof (int_keys_run_op o t h Hk Ho) as Hk'.
  destruct (run_op o (t, h)) as [t' h'] eqn:E. cbn [fst] in *.
  constructor.
  - cbn [fst]. apply splay_health_check_passes; try assumption. lia.
  - apply (IH t' h' (n + 1)); try assumption; lia.
Qed.

(** X12.  The count invariant under the dictionary operations.  After each
    operation of a sequence of at most UINT_MAX insertions, updates,
    erasures and searches on a tree that starts empty, whatever the
    allocator answers, the size field is the number of reachable nodes and
    is zero exactly when the root is null. *)
Theorem count_after_each_operation (ops : list operation) (h : Heap) :
  Z.of_nat (length ops) <= UINT_MAX ->
  Forall (fun st => count_ok (fst st)) (run_ops ops (mkTree NULL 0, h)).
Proof.
  intros Hlen. apply (count_ok_run_ops ops _ h 0).
  - apply count_ok_of_size. reflexivity.
  - cbn. lia.
  - lia.
Qed.

(** X13.  The health check never fails on a tree that the dictionary
    operations have built.  After each operation of a sequence of at most
    UINT_MAX operations on a tree that starts empty, with inserted keys of
    type [int], splay_health_check returns EXIT_SUCCESS and writes no
    message. *)
Theorem health_check_after_each_operation (ops : list operation) (h : Heap) :
  Z.of_nat (length ops) <= UINT_MAX ->
  Forall int_op ops ->
  Forall (fun st => splay_health_check (Some (fst st)) = (EXIT_SUCCESS, None))
         (run_ops ops (mkTree NULL 0, h)).
Proof.
  intros Hlen Hops. apply (healthy_run_ops ops _ h 0).
  - exact I.
  - apply count_ok_of_size. reflexivity.
  - constructor.
  - cbn. lia.
  - lia.
  - exact Hops.
Qed.

(** ** Ownership of the nodes *)

Lemma addrs_inorder t : addrs t = list_to_set (addresses t).
Proof.
  unfold addresses. induction t as [|a k s l IHl r IHr]; cbn [addrs inorder].
  - reflexivity.
  - rewrite map_app, map_cons, list_to_set_app_L, list_to_set_cons.
    rewrite IHl, IHr. cbn [raddr fst]. set_solver.
Qed.

Lemma tree_heap_alt F t h :
  tree_heap F t h <->
  NoDup (map raddr (inorder (root t))) /\
  live h = list_to_set (map raddr (inorder (root t))) ∪ F /\
  list_to_set (map raddr (inorder (root t))) ## F.
Proof. unfold tree_heap. rewrite addrs_inorder. reflexivity. Qed.

(** A dictionary operation keeps the tree's ownership of its nodes and
    touches no block of another owner. *)
Lemma tree_heap_run_op F o t h :
  tree_heap F t h ->
  tree_heap F (fst (run_op o (t, h))) (snd (run_op o (t, h))).
Proof.
  rewrite !tree_heap_alt. intros (Hnd & Hl & Hd).
  pose proof (run_op_effect o t h) as He.
  destruct (run_op o (t, h)) as [t' h']. cbn [fst snd].
  assert (Hsame : h' = h /\ inorder (root t') = inorder (root t) ->
          NoDup (map raddr (inorder (root t'))) /\
          live h' = list_to_set (map raddr (inorder (root t'))) ∪ F /\
          list_to_set (map raddr (inorder (root t'))) ## F).
  { intros [-> ->]. auto. }
  destruct o as [k s|k s|k psat|k| |]; try (apply Hsame, He).
  - destruct He as [[-> E]|(a & l & r & Hf & E1 & E2 & E3)].
    + rewrite E. auto.
    + rewrite E3, E1. rewrite E2 in Hnd, Hl, Hd.
      rewrite Hl in Hf. revert Hnd Hl Hd Hf.
      rewrite !map_app, !map_cons, !list_to_set_app_L, !list_to_set_cons.
      rewrite !NoDup_app, !NoDup_cons. cbn [raddr fst].
      set (Sl := map raddr l). set (Sr := map raddr r).
      intros (N1 & N2 & N3) -> Hd Hf. set_solver.
  - destruct He as [-> [E|(a & s0 & l & r & E1 & E2)]].
    + rewrite E. auto.
    + rewrite E2. rewrite E1 in Hnd, Hl, Hd. revert Hnd Hl Hd.
      rewrite !map_app, !map_cons. cbn [raddr fst]. auto.
  - destruct He as [He|(a & s0 & l & r & E1 & E2 & ->)]; [apply Hsame, He|].
    rewrite E2. rewrite E1 in Hnd, Hl, Hd. revert Hnd Hl Hd.
    rewrite !map_app, !map_cons, !list_to_set_app_L, !list_to_set_cons.
    rewrite !NoDup_app, !NoDup_cons. cbn [raddr fst free live].
    set (Sl := map raddr l). set (Sr := map raddr r).
    intros (N1 & N2 & N3 & N4) -> Hd. set_solver.
Qed.

(** X14.  The tree owns its nodes, and only them.  If the nodes of a tree
    lie in distinct live blocks and the other live blocks are [F], then
    after each operation of any sequence of dictionary operations the nodes
    of the tree lie in distinct live blocks and the other live blocks are
    still [F]: no operation leaks a block, frees a block twice or touches
    one that is not a node of the tree. *)
Theorem heap_after_each_operation (F : gset addr) (ops : list operation)
    (t : splay_Tree) (h : Heap) :
  tree_heap F t h ->
  Forall (fun st => tree_heap F (fst st) (snd st)) (run_ops ops (t, h)).
Proof.
  revert t h. induction ops as [|o ops IH]; intros t h Hth; cbn [run_ops].
  - constructor.
  - pose proof (tree_heap_run_op F o t h Hth) as H1.
    constructor; [exact H1|].
    destruct (run_op o (t, h)) as [t' h']. apply IH, H1.
Qed.

(** ** Clearing, destruction and move *)

(** X15.  splay_tree_clear on a tree object frees the blocks of all
    reachable nodes and no other, leaves the object empty with size 0, and
    returns success; when the tree owned its nodes, the live blocks are
    those of the other owners.  On a null handle it returns failure and
    frees nothing. *)
Theorem splay_tree_clear_frees_the_nodes (t : splay_Tree) (h : Heap) :
  splay_tree_clear None h = (EXIT_FAILURE, None, h) /\
  exists h',
    splay_tree_clear (Some t) h = (EXIT_SUCCESS, Some (mkTree NULL 0), h') /\
    live h' = live h ∖ addrs (root t) /\
    oracle h' = oracle h /\
    (forall F, tree_heap F t h -> tree_heap F (mkTree NULL 0) h').
Proof.
  split; [reflexivity|]. unfold splay_tree_clear. cbn [splay_tree_empty_ctor].
  rewrite splay_dtor_helper_spec. eexists. split; [reflexivity|].
  cbn [live oracle]. split; [reflexivity|]. split; [reflexivity|].
  intros F (Hnd & Hl & Hd). unfold tree_heap. cbn [root addrs live addresses].
  split; [constructor|]. rewrite Hl. set_solver.
Qed.

(** X16.  The destructor is idempotent and accepts a null handle: a second
    splay_tree_dtor on the object that the first one left changes neither
    the object nor the heap, and on a null handle the call does nothing. *)
Theorem splay_tree_dtor_idempotent (t : option splay_Tree) (h : Heap) :
  let '(t1, h1) := splay_tree_dtor t h in
  splay_tree_dtor t1 h1 = (t1, h1) /\
  (t = None -> t1 = None /\ h1 = h) /\
  (t <> None -> t1 = Some (mkTree NULL 0)).
Proof.
  destruct t as [t|]; cbn.
  - split; [reflexivity|]. split; [discriminate|reflexivity].
  - split; [reflexivity|]. split; [auto|congruence].
Qed.

(** X17.  splay_tree_move into an initialised destination succeeds exactly
    when the destination is empty.  Then the destination holds the root and
    the size of the source and the source is empty; no node is allocated,
    copied or freed.  Otherwise both objects stay as they are.  The
    assertion on the size of the destination cannot fail, and the count
    invariant of both objects is kept. *)
Theorem splay_tree_move_transfers (ti to : splay_Tree) :
  count_ok to ->
  splay_tree_move (Some ti) (Some to)
    = (if is_null (root to)
       then Some (EXIT_SUCCESS, Some (mkTree NULL 0), Some ti)
       else Some (EXIT_FAILURE, Some ti, Some to)) /\
  (count_ok ti ->
   forall rc ti' to',
     splay_tree_move (Some ti) (Some to) = Some (rc, Some ti', Some to') ->
     count_ok ti' /\ count_ok to').
Proof.
  intros Hc. split.
  - destruct Hc as [_ Hz]. unfold splay_tree_move.
    destruct (root to) as [|? ? ? ? ?] eqn:Er; cbn [is_null negb];
      [|reflexivity].
    assert (size to = 0) as -> by (apply Hz; reflexivity).
    cbn. rewrite mkTree_eta. reflexivity.
  - intros Hci rc ti' to'. apply count_ok_move; assumption.
Qed.

(** ** Copying *)

(** A successful copy_helper has built the same tree in distinct blocks. *)
Lemma copy_helper_clone ni : forall no h,
  match copy_helper ni no h with
  | (rc, no', h') =>
      rc = EXIT_SUCCESS -> same_tree no' ni /\ NoDup (addresses no')
  end.
Proof.
  induction ni as [|a k s l IHl r IHr]; intros no h; cbn [copy_helper].
  - intros _. split; [exact I|constructor].
  - specialize (IHl NULL h). pose proof (copy_helper_spec l NULL h) as Sl.
    destruct (copy_helper l NULL h) as [[rcl cl] h1].
    destruct (rcl =? EXIT_FAILURE) eqn:El; [discriminate|].
    specialize (IHr NULL h1). pose proof (copy_helper_spec r NULL h1) as Sr.
    destruct (copy_helper r NULL h1) as [[rcr cr] h2].
    destruct (rcr =? EXIT_FAILURE) eqn:Er; [discriminate|].
    unfold node_ctor. pose proof (malloc_spec h2) as Hm.
    destruct (malloc h2) as [[a'|] h3]; cbn [is_null]; [|discriminate].
    intros _. cbn [set_left set_right same_tree].
    destruct Sl as [(-> & _ & _ & Ll & Dl)|(-> & _)]; [|discriminate].
    destruct Sr as [(-> & _ & _ & Lr & Dr)|(-> & _)]; [|discriminate].
    destruct (IHl eq_refl) as [Tl Nl]. destruct (IHr eq_refl) as [Tr Nr].
    split; [auto|]. destruct Hm as [Hf _]. revert Hf Dr.
    rewrite Lr, Ll, !addrs_inorder. unfold addresses in *. cbn [inorder].
    rewrite map_app, map_cons, NoDup_app, NoDup_cons. cbn [raddr fst].
    set (Al := map raddr (inorder cl)) in *.
    set (Ar := map raddr (inorder cr)) in *.
    intros Hf Dr. set_solver.
Qed.

(** The health check looks at keys, shape and size only. *)
Lemma same_tree_nodecount u : forall t,
  same_tree u t -> splay_nodecount u = splay_nodecount t.
Proof.
  induction u as [|a k s l IHl r IHr]; intros [|a' k' s' l' r'];
    cbn [same_tree splay_nodecount]; try tauto.
  intros (_ & _ & Hl & Hr). rewrite (IHl _ Hl), (IHr _ Hr). reflexivity.
Qed.

Lemma same_tree_breaks u : forall t lo hi,
  same_tree u t -> breaks_bst_property u lo hi = breaks_bst_property t lo hi.
Proof.
  induction u as [|a k s l IHl r IHr]; intros [|a' k' s' l' r'] lo hi;
    cbn [same_tree breaks_bst_property]; try tauto.
  intros (-> & _ & Hl & Hr). cbn [LESSKEY KEYLESS].
  rewrite (IHl _ lo k' Hl), (IHr _ k' hi Hr). reflexivity.
Qed.

Lemma same_tree_health u t n :
  same_tree u t ->
  splay_health_check (Some (mkTree u n))
    = splay_health_check (Some (mkTree t n)).
Proof.
  intros H. unfold splay_health_check, splay_size_failure. cbn [root size].
  rewrite (same_tree_nodecount _ _ H), (same_tree_breaks _ _ _ _ H).
  destruct u, t; cbn [same_tree] in H; try contradiction; reflexivity.
Qed.

(** X18.  A successful splay_tree_copy into an empty tree object leaves in
    it a tree with the keys, satellites and shape of the source, node for
    node, in distinct blocks that were not live before and are the only
    new live blocks, and the size of the source; the health check says of
    the copy what it says of the source. *)
Theorem splay_tree_copy_clones (ti : splay_Tree) (h : Heap)
    (to' : option splay_Tree) (h' : Heap) :
  splay_tree_copy (Some ti) (Some (mkTree NULL 0)) h
    = Some (EXIT_SUCCESS, to', h') ->
  exists no,
    to' = Some (mkTree no (size ti)) /\
    same_tree no (root ti) /\
    NoDup (addresses no) /\
    live h' = addrs no ∪ live h /\ addrs no ## live h /\
    splay_health_check to' = splay_health_check (Some ti).
Proof.
  unfold splay_tree_copy. cbn.
  pose proof (copy_helper_spec (root ti) NULL h) as H.
  pose proof (copy_helper_clone (root ti) NULL h) as Hc.
  destruct (copy_helper _ _ _) as [[rc no'] h''].
  intros [= -> <- <-].
  destruct H as [(_ & _ & _ & H3 & H4)|(? & _)]; [|discriminate].
  destruct (Hc eq_refl) as [Hs Hn].
  exists no'. split; [reflexivity|]. do 4 (split; [assumption|]).
  rewrite (same_tree_health _ _ _ Hs), mkTree_eta. reflexivity.
Qed.

(** X19.  When splay_tree_copy into an empty tree object fails, the source
    is not empty, every block that the call allocated is free again (the
    set of live blocks is as before), and the destination has a null root;
    its size field holds the size of the source.  If the source has the
    right count, the destination then fails the health check, with the
    message about a size with a nil root, and a further splay_tree_copy
    into it stops at the assertion on its size. *)
Theorem splay_tree_copy_failure_frees (ti : splay_Tree) (h : Heap)
    (to' : option splay_Tree) (h' : Heap) :
  splay_tree_copy (Some ti) (Some (mkTree NULL 0)) h
    = Some (EXIT_FAILURE, to', h') ->
  root ti <> NULL /\
  live h' = live h /\
  to' = Some (mkTree NULL (size ti)) /\
  (count_ok ti ->
   splay_health_check to' = (EXIT_FAILURE, Some (SizeNilRoot (size ti))) /\
   splay_tree_copy (Some ti) to' h' = None).
Proof.
  unfold splay_tree_copy at 1. cbn.
  pose proof (copy_helper_spec (root ti) NULL h) as H.
  destruct (copy_helper _ _ _) as [[rc no'] h''].
  intros [= -> <- <-].
  destruct H as [(? & _)|(_ & Hnn & Hl & Hn)]; [discriminate|].
  split; [exact Hnn|]. split; [exact Hl|].
  assert (E : no' = NULL) by (destruct Hn; assumption). subst no'.
  split; [reflexivity|]. intros [_ Hz].
  assert (Hs : (size ti =? 0) = false).
  { apply Z.eqb_neq. intros E. apply Hz in E. contradiction. }
  unfold splay_health_check, splay_size_failure, splay_tree_copy.
  cbn [root size is_null negb andb]. rewrite Hs. split; reflexivity.
Qed.

(** ** The messages of the health check *)




(** ** The assertions *)

(** X21.  The assertions that guard the searches cannot fail.  On a
    non-empty tree, the loop of search_and_splay ends at a node, with
    [*found] equal to 1 when that node holds the key and 0 when its key
    differs; the loops of splay_min and splay_max end at a node without a
    left, respectively right, child, and have put nothing into the
    remainder tree of the other side. *)
Theorem search_assertions_hold (root : splay_Node) (k : splay_Key) :
  root <> NULL ->
  (let '(_, root', found') := search_loop k initialize_topdown root in
   search_exit_asserts k root' found' = true) /\
  (let '(td, root') := min_loop initialize_topdown root in
   min_exit_asserts td root' = true) /\
  (let '(td, root') := max_loop initialize_topdown root in
   max_exit_asserts td root' = true).
Proof.
  intros Hnn. split; [|split].
  - pose proof (search_loop_spec k root NULL NULL Hnn) as H.
    change (cursor NULL NULL) with initialize_topdown in H.
    destruct (search_loop k initialize_topdown root) as [[td root'] f].
    destruct H as (L' & R' & _ & _ & -> & ->).
    pose proof (search_stop_nonnull k root Hnn) as Hs.
    destruct (search_stop k root) as [|a k' s l r]; [congruence|].
    unfold search_exit_asserts. cbn [is_null negb node_keiy LESSKEY KEYLESS].
    destruct (Z.eqb_spec k' k) as [->|Hne].
    + rewrite !Z.eqb_refl, Z.ltb_irrefl. reflexivity.
    + destruct (Z.ltb_spec k' k); [reflexivity|].
      destruct (Z.ltb_spec k k'); [reflexivity|lia].
  - pose proof (min_loop_spec root NULL NULL Hnn) as H.
    change (cursor NULL NULL) with initialize_topdown in H.
    destruct (min_loop initialize_topdown root) as [td root'].
    destruct H as (R' & -> & _ & -> & Hl).
    pose proof (leftmost_nonnull root Hnn) as Hs.
    unfold min_exit_asserts. rewrite Hl.
    destruct (leftmost root); [congruence|reflexivity].
  - pose proof (max_loop_spec root NULL NULL Hnn) as H.
    change (cursor NULL NULL) with initialize_topdown in H.
    destruct (max_loop initialize_topdown root) as [td root'].
    destruct H as (L' & -> & _ & -> & Hr).
    pose proof (rightmost_nonnull root Hnn) as Hs.
    unfold max_exit_asserts. rewrite Hr.
    destruct (rightmost root); [congruence|reflexivity].
Qed.

(** X22.  The assertions of splay_erase and splay_insert cannot fail.  When
    the search of splay_erase reports the key, the result carries that key,
    the root is a node with that key and with the satellite reported, and
    the successor search on a non-empty right subtree reports found and
    leaves a root without a left child.  The node that splay_insert has
    obtained is a leaf when it is grafted, and is the root afterwards. *)
Theorem update_assertions_hold (t : splay_Tree) (k : splay_Key)
    (s : splay_Satellite) (h : Heap) :
  erase_asserts (Some t) k = true /\ insert_asserts t k s h = true.
Proof.
  split.
  - unfold erase_asserts. rewrite splay_find_some.
    pose proof (search_and_splay_found_shape (root t) k) as Hs.
    destruct (search_and_splay (root t) k) as [root' f]. cbn [fst snd] in *.
    cbn [found key sat].
    destruct (f =? 0) eqn:Ef; [reflexivity|]. apply Z.eqb_neq in Ef.
    destruct (Hs Ef) as (_ & a & s0 & l & r & ->).
    cbn [root size is_null negb node_keiy node_sat node_right].
    rewrite !Z.eqb_refl. cbn [andb].
    destruct r as [|ra rk rs rl rr]; [reflexivity|]. cbn [is_null negb].
    rewrite splay_min_unfold by discriminate. cbn [root found].
    destruct (min_root_spec (Node ra rk rs rl rr)) as (_ & _ & Hl & Hn);
      [discriminate|].
    rewrite Hl. destruct (min_root _); [congruence|reflexivity].
  - unfold insert_asserts, node_ctor.
    destruct (malloc h) as [[a|] h']; [|reflexivity]. cbn [is_null].
    destruct (insert_and_splay_spec (root t) a k s) as (L & R & -> & _).
    cbn. apply Pos.eqb_refl.
Qed.

(** ** The insertion without splaying *)

Lemma naive_insert_spec radix k s : forall h,
  match malloc h with
  | (Some a, h') =>
      exists radix' l r,
        naive_insert radix k s h = (radix', h') /\
        inorder radix = l ++ r /\
        inorder radix' = l ++ (a, k, s) :: r /\
        (bst radix ->
         Forall (fun x => rkey x < k) l /\ Forall (fun x => k <= rkey x) r)
  | (None, h') => naive_insert radix k s h = (radix, h')
  end.
Proof.
  induction radix as [|a0 k0 s0 l IHl r IHr]; intros h;
    cbn [naive_insert LESSKEY].
  - unfold node_ctor. destruct (malloc h) as [[a|] h']; [|reflexivity].
    exists (Node a k s NULL NULL), [], []. repeat split; constructor.
  - specialize (IHl h). specialize (IHr h).
    destruct (malloc h) as [[a|] h'].
    + destruct (Z.ltb_spec k0 k) as [Hlt|Hge].
      * destruct IHr as (r' & l1 & r1 & -> & E1 & E2 & Hb).
        exists (Node a0 k0 s0 l r'), (inorder l ++ (a0, k0, s0) :: l1), r1.
        cbn [set_right inorder]. rewrite E1, E2, <- !app_assoc.
        split; [reflexivity|]. split; [reflexivity|]. split; [reflexivity|].
        intros (Hl & Hr & Bl & Br). rewrite E1 in Hr.
        destruct (Hb Br) as [F1 F2]. split; [|exact F2].
        rewrite Forall_app, Forall_cons. cbn [rkey fst snd].
        split; [|auto]. eapply Forall_impl; [exact Hl|].
        cbn. intros. lia.
      * destruct IHl as (l' & l1 & r1 & -> & E1 & E2 & Hb).
        exists (Node a0 k0 s0 l' r), l1, (r1 ++ (a0, k0, s0) :: inorder r).
        cbn [set_left inorder]. rewrite E1, E2, <- !app_assoc.
        split; [reflexivity|]. split; [reflexivity|]. split; [reflexivity|].
        intros (Hl & Hr & Bl & Br). rewrite E1 in Hl.
        destruct (Hb Bl) as [F1 F2]. split; [exact F1|].
        rewrite Forall_app, Forall_cons. cbn [rkey fst snd].
        split; [exact F2|]. split; [lia|].
        eapply Forall_impl; [exact Hr|]. cbn. intros. lia.
    + destruct (k0 <? k); [rewrite IHr|rewrite IHl]; reflexivity.
Qed.

Lemma ordered_partition_unique (k : splay_Key) (l r l' r' : list record) :
  Forall (fun x => rkey x < k) l -> Forall (fun x => k <= rkey x) r ->
  Forall (fun x => rkey x < k) l' -> Forall (fun x => k <= rkey x) r' ->
  l ++ r = l' ++ r' -> l = l' /\ r = r'.
Proof.
  intros Hl Hr Hl' Hr' E.
  assert (N : forall q, Forall (fun x => k <= rkey x) q ->
                        Forall (fun x => ~ rkey x < k) q).
  { intros q Hq. eapply Forall_impl; [exact Hq|]. cbn. intros. lia. }
  destruct (filter_partition (fun x => rkey x < k) l r Hl (N _ Hr))
    as [F1 F2].
  destruct (filter_partition (fun x => rkey x < k) l' r' Hl' (N _ Hr'))
    as [G1 G2].
  rewrite E in F1, F2. split; congruence.
Qed.

(** X23.  The insertion of a plain binary search tree, naive_insert (a
    function that the source keeps but compiles out), and splay_insert
    store the same sequence of records.  On an ordered tree both ask
    malloc for one block; if it is granted, both trees hold the old records
    and the new one in the same symmetric order, the new record before the
    old records with a key that is not less, and both are ordered; if it is
    refused, both leave the tree as it was. *)
Theorem naive_insert_same_order (t : splay_Tree) (k : splay_Key)
    (s : splay_Satellite) (h : Heap) :
  bst (root t) ->
  let '(radix', h1) := naive_insert (root t) k s h in
  let '(rc, t', h2) := splay_insert t k s h in
  h1 = h2 /\
  bst radix' /\ bst (root t') /\
  inorder radix' = inorder (root t') /\
  (rc = EXIT_FAILURE -> radix' = root t /\ t' = t) /\
  (rc = EXIT_SUCCESS -> nodes radix' = S (nodes (root t))).
Proof.
  intros Hb. pose proof (naive_insert_spec (root t) k s h) as Hn.
  rewrite splay_insert_unfold.
  destruct (malloc h) as [[a|] h'].
  - destruct Hn as (radix' & l & r & -> & E1 & E2 & Hlr).
    pose proof (bst_insert_and_splay _ a k s Hb) as Hbi.
    destruct (insert_and_splay_spec (root t) a k s) as (L & R & E & H2 & H3).
    rewrite E in Hbi |- *.
    destruct (Hlr Hb) as [Fl Fr]. destruct (H3 Hb) as [FL FR].
    destruct (ordered_partition_unique k l r (inorder L) (inorder R))
      as [-> ->]; try assumption; [congruence|].
    cbn [root]. split; [reflexivity|].
    assert (Es : inorder radix' = inorder (Node a k s L R)) by exact E2.
    split; [exact (bst_of_inorder _ _ Es Hbi)|].
    split; [exact Hbi|]. split; [exact Es|]. split; [discriminate|].
    intros _. rewrite <- !inorder_length, E2, E1, !length_app.
    cbn [length]. lia.
  - rewrite Hn. cbn [root]. split; [reflexivity|].
    split; [exact Hb|]. split; [exact Hb|]. split; [reflexivity|].
    split; [auto|discriminate].
Qed.

(** ** The shutdown of the command-line program *)

Lemma cleanup_loop_spec : forall n t h freed fuel,
  nodes (root t) = n -> (n < fuel)%nat ->
  exists sz h',
    cleanup_loop fuel (Some t) h freed
      = Some (EXIT_SUCCESS, Some (mkTree NULL sz), h',
              map rsat (inorder (root t)) ++ freed) /\
    live h' = live h ∖ addrs (root t) /\
    oracle h' = oracle h.
Proof.
  induction n as [|n IH]; intros t h freed fuel Hn Hf;
    (destruct fuel as [|fuel]; [lia|]); cbn [cleanup_loop].
  - apply nodes_zero in Hn. destruct t as [rt sz]. cbn [root] in Hn.
    subst rt. cbn. exists sz, h. split; [reflexivity|].
    split; [set_solver|reflexivity].
  - assert (Hnn : root t <> NULL).
    { intros E. rewrite E in Hn. discriminate. }
    destruct (splay_max_erase_step t h Hnn)
      as (a & k & s & rest & t1 & new & Hi & -> & He & Hnew).
    cbn [found key sat]. change (1 =? 0) with false. cbv iota.
    rewrite He. change (negb (EXIT_SUCCESS =? EXIT_SUCCESS)) with false.
    cbv iota.
    destruct (IH (mkTree new (unsigned (size t - 1))) (free a h)
                 (s :: freed) fuel) as (sz & h' & E & Hl & Ho).
    { cbn [root]. rewrite <- inorder_length, Hnew.
      rewrite <- inorder_length, Hi, length_app in Hn. cbn in Hn.
      unfold record in *. lia. }
    { lia. }
    exists sz, h'. cbn [root] in E, Hl. rewrite E, Hnew, Hi, map_app.
    cbn [map rsat snd]. rewrite <- app_assoc. split; [reflexivity|].
    split; [|exact Ho]. rewrite Hl, !addrs_inorder. unfold addresses.
    rewrite Hnew, Hi, map_app, list_to_set_app_L. cbn [free live map raddr].
    cbn [fst]. set_solver.
Qed.

(** X24.  cleanup, the shutdown of the command-line program, empties the
    tree.  Run for more turns than the tree has nodes, its loop ends
    without a failed erasure: the function returns EXIT_SUCCESS, whatever
    code it was given, the tree object is empty with size 0, the blocks of
    all nodes are free again and no other block is, and the satellite of
    every record has been passed to free once, in the reverse of the
    symmetric order (the list of the freed satellites, latest first, is
    the list of the satellites in symmetric order). *)
Theorem cleanup_empties_the_tree (fuel : nat) (rc : Z) (t : splay_Tree)
    (h : Heap) :
  (nodes (root t) < fuel)%nat ->
  exists h',
    cleanup fuel rc (Some t) h
      = Some (EXIT_SUCCESS, Some (mkTree NULL 0), h',
              map rsat (inorder (root t))) /\
    live h' = live h ∖ addrs (root t) /\
    oracle h' = oracle h.
Proof.
  intros Hf. unfold cleanup.
  destruct (cleanup_loop_spec _ t h [] fuel eq_refl Hf)
    as (sz & h' & -> & Hl & Ho).
  rewrite app_nil_r. exists h'. split; [|auto].
  destruct h'. reflexivity.
Qed.

(** ** DOT output *)

Lemma Forall_take_add {A} (P : A -> Prop) (n m : nat) : forall l,
  Forall P (take (n + m) l) <->
  Forall P (take n l) /\ Forall P (take m (drop n l)).
Proof.
  induction n as [|n IH]; intros l; cbn [Nat.add take drop].
  - split; [auto|tauto].
  - destruct l as [|x l]; cbn [take drop].
    + rewrite take_nil. split; [auto|intros _; constructor].
    + rewrite !Forall_cons, IH. tauto.
Qed.

Lemma writes_refl f : writes [] f f.
Proof.
  unfold writes. cbn. rewrite app_nil_r, drop_0. repeat split. constructor.
Qed.

Lemma writes_trans b1 b2 f f1 f2 :
  writes b1 f f1 -> writes b2 f1 f2 -> writes (b1 ++ b2) f f2.
Proof.
  intros (A1 & A2 & A3 & A4 & A5) (B1 & B2 & B3 & B4 & B5). unfold writes.
  rewrite length_app, B1, B2, B3, A3, B4, A4, drop_drop, app_assoc.
  rewrite Forall_take_add. rewrite A4 in B5. auto 6.
Qed.

Lemma fprintf_spec x f :
  match fprintf x f with
  | (true, f') => writes [x] f f'
  | (false, f') => ~ Forall (eq true) (take 1 (write_ok f))
  end.
Proof.
  unfold fprintf, writes. destruct (write_ok f) as [|[|] rest] eqn:E; cbn.
  - repeat split. constructor.
  - rewrite drop_0, take_0. repeat split. repeat constructor.
  - rewrite take_0. intros H. apply Forall_cons in H as [? _]. discriminate.
Qed.

Lemma dot_nodes_app w1 w2 : dot_nodes (w1 ++ w2) = dot_nodes w1 ++ dot_nodes w2.
Proof. apply flat_map_app. Qed.

Lemma dot_links_app w1 w2 : dot_links (w1 ++ w2) = dot_links w1 ++ dot_links w2.
Proof. apply flat_map_app. Qed.

Lemma dot_phantoms_app w1 w2 :
  dot_phantoms (w1 ++ w2) = (dot_phantoms w1 + dot_phantoms w2)%nat.
Proof. unfold dot_phantoms. rewrite flat_map_app. apply length_app. Qed.

(** The steps of dot_out_help. *)
Lemma runs_printed x f (P : list dot_text -> Prop) :
  P [x] -> runs (printed (fprintf x f)) f 1 P.
Proof.
  intros HP. pose proof (fprintf_spec x f) as H. unfold runs, printed.
  destruct (fprintf x f) as [[|] f']; cbn [fst snd]; eexists _, _;
    (split; [reflexivity|]).
  - left. split; [reflexivity|]. exists [x]. auto.
  - right. auto.
Qed.

Lemma runs_phantom f pk (P : list dot_text -> Prop) :
  (forall v, P [DotPhantom v pk]) -> runs (Some (print_phantom f pk)) f 1 P.
Proof.
  intros HP. unfold print_phantom.
  assert (Hr : forall v f1, rand f = (v, f1) ->
            fopen_ok f1 = fopen_ok f /\ fclose_ok f1 = fclose_ok f /\
            written f1 = written f /\ write_ok f1 = write_ok f).
  { unfold rand. intros v f1. destruct (rand_values f); intros [= <- <-];
      auto. }
  destruct (rand f) as [v f1].
  destruct (Hr v f1 eq_refl) as (R1 & R2 & R3 & R4).
  pose proof (fprintf_spec (DotPhantom v pk) f1) as H. unfold runs.
  destruct (fprintf _ f1) as [[|] f2]; eexists _, _; (split; [reflexivity|]).
  - left. split; [reflexivity|]. exists [DotPhantom v pk].
    split; [|split; [reflexivity|apply HP]].
    unfold writes in *. rewrite <- R1, <- R2, <- R3, <- R4. exact H.
  - right. rewrite <- R4. auto.
Qed.

Lemma runs_skip f (P : list dot_text -> Prop) :
  P [] -> runs (Some (EXIT_SUCCESS, f)) f 0 P.
Proof.
  intros HP. exists EXIT_SUCCESS, f. split; [reflexivity|]. left.
  split; [reflexivity|]. exists []. split; [apply writes_refl|auto].
Qed.

Lemma runs_and_then e k f n1 n2 (P Q R : list dot_text -> Prop) :
  runs e f n1 P ->
  (forall f', runs (k f') f' n2 Q) ->
  (forall b1 b2, P b1 -> Q b2 -> R (b1 ++ b2)) ->
  runs (and_then e k) f (n1 + n2) R.
Proof.
  intros (rc & f1 & -> & He) Hk HR. unfold and_then.
  destruct He as [(-> & b1 & W1 & L1 & P1)|(-> & Hfail)].
  - change (EXIT_SUCCESS =? EXIT_SUCCESS) with true. cbv iota.
    destruct (Hk f1) as (rc2 & f2 & -> & He2).
    exists rc2, f2. split; [reflexivity|].
    destruct He2 as [(-> & b2 & W2 & L2 & Q2)|(-> & Hfail)].
    + left. split; [reflexivity|]. exists (b1 ++ b2).
      split; [exact (writes_trans _ _ _ _ _ W1 W2)|].
      split; [rewrite length_app; lia|auto].
    + right. split; [reflexivity|]. rewrite Forall_take_add.
      destruct W1 as (_ & _ & _ & W4 & _). rewrite W4, L1 in Hfail. tauto.
  - change (EXIT_FAILURE =? EXIT_SUCCESS) with false. cbv iota.
    exists EXIT_FAILURE, f1. split; [reflexivity|]. right.
    split; [reflexivity|]. rewrite Forall_take_add. tauto.
Qed.

Lemma runs_eq e f n m (P : list dot_text -> Prop) :
  n = m -> runs e f n P -> runs e f m P.
Proof. intros ->. trivial. Qed.

Lemma dot_out_help_eq t tpar f :
  dot_out_help t tpar f =
  and_then
    match tpar with
    | NULL =>
        match t with
        | NULL => None
        | Node _ k _ _ _ => printed (fprintf (DotRoot k) f)
        end
    | Node _ pk _ pl pr =>
        match t with
        | NULL => Some (EXIT_SUCCESS, f)
        | Node _ k _ _ _ =>
            and_then
              (if is_null pl then Some (print_phantom f pk)
               else Some (EXIT_SUCCESS, f))
              (fun f1 =>
                 and_then (printed (fprintf (DotChild k pk) f1))
                   (fun f2 =>
                      if is_null pr then Some (print_phantom f2 pk)
                      else Some (EXIT_SUCCESS, f2)))
        end
    end
    (fun f' =>
       match t with
       | NULL => Some (EXIT_SUCCESS, f')
       | Node _ _ _ l r =>
           and_then (dot_out_help l t f')
             (fun fl =>
                and_then (dot_out_help r t fl)
                  (fun fr => Some (EXIT_SUCCESS, fr)))
       end).
Proof. destruct t; reflexivity. Qed.

(** An invisible sibling, if the link [c] of the parent is null. *)
Lemma runs_sibling (c : splay_Node) pk f :
  runs (if is_null c then Some (print_phantom f pk)
        else Some (EXIT_SUCCESS, f))
       f (if is_null c then 1 else 0)
       (fun b => dot_nodes b = [] /\ dot_links b = [] /\
                 dot_phantoms b = (if is_null c then 1 else 0)%nat).
Proof.
  destruct (is_null c); [apply runs_phantom|apply runs_skip]; repeat split.
Qed.

(** The line of a node: its statement, with the edge from its parent and
    the invisible siblings if it has a parent. *)
Lemma runs_node_line (k : splay_Key) tpar f :
  runs
    match tpar with
    | NULL => printed (fprintf (DotRoot k) f)
    | Node _ pk _ pl pr =>
        and_then
          (if is_null pl then Some (print_phantom f pk)
           else Some (EXIT_SUCCESS, f))
          (fun f1 =>
             and_then (printed (fprintf (DotChild k pk) f1))
               (fun f2 =>
                  if is_null pr then Some (print_phantom f2 pk)
                  else Some (EXIT_SUCCESS, f2)))
    end f (S (phantoms_of tpar))
    (fun b =>
       dot_nodes b = [k] /\
       dot_links b = match tpar with
                     | NULL => []
                     | Node _ pk _ _ _ => [(pk, k)]
                     end /\
       dot_phantoms b = phantoms_of tpar).
Proof.
  destruct tpar as [|pa pk ps pl pr].
  - apply runs_printed. repeat split.
  - cbn [phantoms_of].
    eapply runs_eq;
      [|eapply (runs_and_then _ _ _ _ _ _
                  (fun b => dot_nodes b = [k] /\ dot_links b = [(pk, k)] /\
                            dot_phantoms b
                              = (if is_null pr then 1 else 0)%nat)
                  _ (runs_sibling pl pk f))].
    + instantiate (1 := S (if is_null pr then 1 else 0)). lia.
    + intros f1.
      eapply (runs_and_then _ _ _ 1 _ (fun b => b = [DotChild k pk])).
      * apply runs_printed. reflexivity.
      * intros f2. apply runs_sibling.
      * intros b1 b2 -> (N & L & Ph).
        rewrite dot_nodes_app, dot_links_app, dot_phantoms_app.
        rewrite N, L, Ph. repeat split.
    + intros b1 b2 (N1 & L1 & P1) (N2 & L2 & P2).
      rewrite dot_nodes_app, dot_links_app, dot_phantoms_app.
      rewrite N1, L1, P1, N2, L2, P2. repeat split.
Qed.

(** dot_out_help on a node draws its subtree. *)
Lemma dot_out_help_runs t : forall tpar f,
  t <> NULL ->
  runs (dot_out_help t tpar f) f
       (nodes t + phantoms_of tpar + only_children t) (draws t tpar).
Proof.
  induction t as [|a k s l IHl r IHr]; intros tpar f Hnn; [congruence|].
  rewrite dot_out_help_eq.
  assert (Hsub : forall c f',
            (forall tpar f, c <> NULL ->
               runs (dot_out_help c tpar f) f
                    (nodes c + phantoms_of tpar + only_children c)
                    (draws c tpar)) ->
            runs (dot_out_help c (Node a k s l r) f') f'
                 (if is_null c then 0
                  else nodes c + phantoms_of (Node a k s l r)
                       + only_children c)
                 (fun b =>
                    dot_nodes b = preorder_keys c /\
                    dot_links b = (if is_null c then []
                                   else (k, node_keiy c) :: links c) /\
                    dot_phantoms b
                      = (if is_null c then 0
                         else phantoms_of (Node a k s l r)
                              + only_children c)%nat)).
  { intros c f' IH. destruct c as [|ca ck cs cl cr].
    - rewrite dot_out_help_eq. cbn [and_then].
      change (EXIT_SUCCESS =? EXIT_SUCCESS) with true.
      cbv iota. apply runs_skip. repeat split.
    - apply IH. discriminate. }
  eapply runs_eq;
    [|eapply (runs_and_then _ _ _ _ _ _
                (fun b =>
                   dot_nodes b = preorder_keys l ++ preorder_keys r /\
                   dot_links b = links (Node a k s l r) /\
                   dot_phantoms b = only_children (Node a k s l r))
                _ (runs_node_line k tpar f))].
  - instantiate (1 := (nodes l + nodes r
                       + only_children (Node a k s l r))%nat).
    cbn [nodes]. lia.
  - intros f'. eapply runs_eq;
      [|eapply (runs_and_then _ _ _ _ _ _ _ _ (Hsub l f' IHl))].
    + instantiate (1 := if is_null r then 0%nat
                        else (nodes r + phantoms_of (Node a k s l r)
                              + only_children r)%nat).
      cbn [only_children phantoms_of].
      destruct l, r; cbn [is_null nodes only_children]; lia.
    + intros fl. eapply runs_eq;
        [|eapply (runs_and_then _ _ _ _ 0 _ (fun b => b = []) _
                    (Hsub r fl IHr))].
      * lia.
      * intros fr. apply runs_skip. reflexivity.
      * intros b1 b2 H ->. rewrite app_nil_r. exact H.
    + intros b1 b2 (N1 & L1 & P1) (N2 & L2 & P2).
      rewrite dot_nodes_app, dot_links_app, dot_phantoms_app.
      rewrite N1, L1, P1, N2, L2, P2.
      cbn [links only_children phantoms_of].
      split; [reflexivity|]. split; [reflexivity|].
      destruct l, r; cbn [is_null nodes only_children]; lia.
  - intros b1 b2 (N1 & L1 & P1) (N2 & L2 & P2).
    unfold draws.
    rewrite dot_nodes_app, dot_links_app, dot_phantoms_app.
    rewrite N1, L1, P1, N2, L2, P2.
    cbn [preorder_keys node_keiy].
    split; [reflexivity|]. split; [destruct tpar; reflexivity|lia].
Qed.

(** The writes of splay_dot_output between fopen and fclose, as steps. *)
Lemma splay_dot_output_eq t io :
  root t <> NULL ->
  splay_dot_output (Some t) io =
  match fopen io with
  | None => Some (EXIT_FAILURE, io)
  | Some f =>
      match
        and_then (printed (fputs DotOpen f))
          (fun f1 =>
             and_then (dot_out_help (root t) NULL f1)
               (fun f2 => printed (fputs DotClose f2)))
      with
      | None => None
      | Some (rc, f4) => Some (if fclose f4 then rc else EXIT_FAILURE, f4)
      end
  end.
Proof.
  intros Hnn. unfold splay_dot_output.
  destruct (fopen io) as [f|]; [|reflexivity].
  unfold printed, and_then. destruct (fputs DotOpen f) as [[|] f1];
    cbn [fst snd]; [|reflexivity].
  change (EXIT_SUCCESS =? EXIT_SUCCESS) with true. cbv iota.
  destruct (dot_out_help_runs (root t) NULL f1 Hnn)
    as (rc & f2 & -> & [(-> & _)|(-> & _)]).
  - change (EXIT_SUCCESS =? EXIT_SUCCESS) with true. cbv iota.
    destruct (fputs DotClose f2) as [[|] f3]; reflexivity.
  - reflexivity.
Qed.

Lemma runs_dot_file t f :
  root t <> NULL ->
  runs
    (and_then (printed (fputs DotOpen f))
       (fun f1 =>
          and_then (dot_out_help (root t) NULL f1)
            (fun f2 => printed (fputs DotClose f2))))
    f (nodes (root t) + only_children (root t) + 2)
    (fun b => exists body,
       b = DotOpen :: body ++ [DotClose] /\ draws (root t) NULL body).
Proof.
  intros Hnn. eapply runs_eq;
    [|eapply (runs_and_then _ _ _ 1 _ (fun b => b = [DotOpen])
                (fun b => exists body,
                   b = body ++ [DotClose] /\ draws (root t) NULL body))].
  - instantiate (1 := (nodes (root t) + only_children (root t) + 1)%nat).
    lia.
  - apply runs_printed. reflexivity.
  - intros f1. eapply runs_eq;
      [|eapply (runs_and_then _ _ _ _ 1 _ (fun b => b = [DotClose]) _
                  (dot_out_help_runs (root t) NULL f1 Hnn))].
    + cbn [phantoms_of]. lia.
    + intros f2. apply runs_printed. reflexivity.
    + intros b1 b2 H ->. exists b1. auto.
  - intros b1 b2 -> (body & -> & H). exists body. auto.
Qed.

(** X25.  splay_dot_output on an empty tree dereferences a null pointer.
    When the handle is not null, the file opens and the opening line is
    written, dot_out_help is called with the null root and no parent, and
    reads the key through the null root. *)
Theorem splay_dot_output_empty_tree (t : splay_Tree) (io : Stdio) :
  root t = NULL ->
  fopen_ok io = true ->
  head (write_ok io) <> Some false ->
  splay_dot_output (Some t) io = None.
Proof.
  intros Hr Ho Hw. unfold splay_dot_output, fopen, fputs, fprintf.
  rewrite Ho, Hr. cbn [write_ok].
  destruct (write_ok io) as [|[|] rest]; cbn in Hw |- *; congruence.
Qed.

(** X26.  splay_dot_output on a non-empty tree dereferences no null pointer
    and returns EXIT_SUCCESS or EXIT_FAILURE.  It returns EXIT_SUCCESS
    exactly when fopen and fclose succeed and none of its writes fails;
    there are two more writes than the tree has nodes and nodes with
    exactly one child.  After a success the file holds the opening line, a
    body and the closing line, where the body declares the keys of the
    nodes, each node before its subtrees, one edge for every link of the
    tree, from the key of the parent to the key of the child, and one
    invisible node for every node that has exactly one child. *)
Theorem splay_dot_output_draws_the_tree (t : splay_Tree) (io : Stdio) :
  root t <> NULL ->
  exists rc io',
    splay_dot_output (Some t) io = Some (rc, io') /\
    (rc = EXIT_SUCCESS \/ rc = EXIT_FAILURE) /\
    (rc = EXIT_SUCCESS <->
     fopen_ok io = true /\ fclose_ok io = true /\
     Forall (eq true)
            (take (nodes (root t) + only_children (root t) + 2)
                  (write_ok io))) /\
    (rc = EXIT_SUCCESS ->
     exists body,
       written io' = DotOpen :: body ++ [DotClose] /\
       dot_nodes body = preorder_keys (root t) /\
       dot_links body = links (root t) /\
       dot_phantoms body = only_children (root t)).
Proof.
  intros Hnn. rewrite (splay_dot_output_eq _ _ Hnn). unfold fopen.
  destruct (fopen_ok io) eqn:Eo.
  - set (f := mkStdio true (fclose_ok io) (write_ok io) (rand_values io) []).
    destruct (runs_dot_file t f Hnn) as (rc & f4 & -> & Hrc). unfold fclose.
    eexists _, f4. split; [reflexivity|].
    destruct Hrc as [(-> & b & W & Lb & body & -> & D)|(-> & Hfail)].
    + destruct W as (_ & W2 & W3 & _ & W5). rewrite Lb in W5.
      cbn [fclose_ok write_ok written f app] in W2, W3, W5. rewrite W2.
      split; [destruct (fclose_ok io); auto|]. split.
      * destruct (fclose_ok io); [tauto|].
        split; [discriminate|]. intros (_ & ? & _). discriminate.
      * intros _. destruct D as (D1 & D2 & D3). exists body.
        cbn [phantoms_of] in D3. auto.
    + cbn [write_ok f] in Hfail.
      split; [destruct (fclose_ok f4); auto|]. split.
      * split; [destruct (fclose_ok f4); discriminate|]. tauto.
      * destruct (fclose_ok f4); discriminate.
  - exists EXIT_FAILURE, io. split; [reflexivity|]. split; [auto|].
    split; [|discriminate]. split; [discriminate|].
    intros (? & _). discriminate.
Qed.

(** ** A failed search splits the tree *)

(** In an ordered tree the loop of search_and_splay puts nodes with keys
    less than [k] in the left remainder tree and nodes with keys greater
    than [k] in the right one; when it does not find [k], the node it
    stops at has no subtree on the side of [k]. *)
Lemma search_loop_bounds k : forall root L R,
  root <> NULL ->
  match search_loop k (cursor L R) root with
  | (td', root', f) =>
      exists L' R',
        final_zig td' = cursor L' R' /\
        (bst root ->
         Forall (fun x => rkey x < k) (inorder L) ->
         Forall (fun x => k < rkey x) (inorder R) ->
         Forall (fun x => rkey x < k) (inorder L') /\
         Forall (fun x => k < rkey x) (inorder R') /\
         bst root' /\
         (f = 0 ->
          node_keiy root' < k /\ node_right root' = NULL \/
          k < node_keiy root' /\ node_left root' = NULL))
  end.
Proof.
  intros root. induction root as [root IH] using nodes_ind. intros L R Hnn.
  destruct root as [|a tk s l r]; [congruence|].
  rewrite search_loop_eq. crunch.
  all: try (unfold final_zig; td_compute; eexists _, _;
            split; [reflexivity|]; intros Hb HL HR; bst_facts;
            split; [flatten_lists; forall_keys|];
            split; [flatten_lists; forall_keys|];
            split; [cbn [bst]; auto|];
            first [ intros; discriminate
                  | intros _; left; split; [cbn; lia|reflexivity]
                  | intros _; right; split; [cbn; lia|reflexivity] ]).
  all: match goal with
       | |- context [search_loop _ (mkTopdown (left_rem ?L') (right_rem ?R')
                                               _ _ _ _) ?n] =>
           specialize (IH n ltac:(simpl; lia) L' R' ltac:(discriminate));
           unfold cursor in IH
       end;
       destruct (search_loop _ _ _) as [[td' root'] f];
       destruct IH as (L1 & R1 & IH0 & IH1);
       exists L1, R1; (split; [exact IH0|]);
       intros Hb HL HR; bst_facts;
       apply IH1; [cbn [bst]; auto | flatten_lists; forall_keys ..].
Qed.

(** X27.  A failed search splits an ordered tree at the key.  After
    splay_find for a key that no record of a non-empty ordered tree holds,
    every record in the left subtree of the root has a smaller key than
    the one sought and every record in the right subtree a greater key;
    the key of the root differs from it.  So the root holds the greatest
    key below the one sought or the least key above it. *)
Theorem failed_find_splits (t : splay_Tree) (k : splay_Key) :
  bst (root t) -> root t <> NULL -> k ∉ keys (root t) ->
  exists a k' s l r,
    splay_find (Some t) k
      = (SPLAY_BLANK_RESULT, Some (mkTree (Node a k' s l r) (size t))) /\
    inorder l ++ (a, k', s) :: inorder r = inorder (root t) /\
    k' <> k /\
    Forall (fun x => rkey x < k) (inorder l) /\
    Forall (fun x => k < rkey x) (inorder r) /\
    (k' < k /\
     Forall (fun x => rkey x < k -> rkey x <= k') (inorder (root t)) \/
     k < k' /\
     Forall (fun x => k < rkey x -> k' <= rkey x) (inorder (root t))).
Proof.
  intros Hb Hnn Habs. rewrite splay_find_some.
  pose proof (search_and_splay_absent _ _ Habs) as Hf.
  pose proof (inorder_search_and_splay (root t) k) as Hi.
  pose proof (bst_search_and_splay _ k Hb) as Hb'.
  rewrite Hf. change (0 =? 0) with true. cbv iota.
  rewrite (search_and_splay_unfold _ _ Hnn) in Hf, Hi, Hb' |- *.
  pose proof (search_loop_bounds k (root t) NULL NULL Hnn) as H.
  destruct (search_loop k (cursor NULL NULL) (root t)) as [[td root'] f].
  cbn [fst snd] in *. subst f.
  destruct H as (L' & R' & E & H). rewrite E in Hi, Hb' |- *.
  destruct (H Hb ltac:(constructor) ltac:(constructor))
    as (HL & HR & Hbr & Hside).
  specialize (Hside eq_refl).
  destruct root' as [|a k' s l r];
    [destruct Hside as [[_ ?]|[_ ?]]; cbn in Hi;
     apply eq_sym, inorder_nil in Hi; congruence|].
  unfold cursor in Hi, Hb' |- *. cbn [splice rem0 rem1] in Hi, Hb' |- *.
  rewrite store_tip0_left_rem, store_tip1_right_rem in Hi, Hb' |- *.
  exists a, k', s, (graft_right L' l), (graft_left R' r).
  split; [reflexivity|]. split; [exact Hi|].
  cbn [bst inorder] in Hbr, Hb'. destruct Hbr as (Hl & Hr & _ & _).
  destruct Hb' as (Hl' & Hr' & _ & _).
  cbn [inorder] in Hi.
  rewrite inorder_graft_right, inorder_graft_left in Hi.
  rewrite inorder_graft_right in Hl'. rewrite inorder_graft_left in Hr'.
  rewrite inorder_graft_right, inorder_graft_left.
  cbn [node_keiy node_left node_right] in Hside.
  assert (Hall : inorder (root t)
                 = (inorder L' ++ inorder l) ++ (a, k', s)
                   :: (inorder r ++ inorder R')) by (symmetry; exact Hi).
  destruct Hside as [[Hlt ->]|[Hgt ->]].
  - split; [lia|]. split; [|split; [exact HR|]].
    + rewrite Forall_app. split; [exact HL|].
      eapply Forall_impl; [exact Hl|]. cbn. intros. lia.
    + left. split; [exact Hlt|]. rewrite Hall, Forall_app, Forall_cons.
      split; [|split; [cbn; lia|]].
      * eapply Forall_impl; [exact Hl'|]. cbn. intros. lia.
      * cbn [inorder app]. eapply Forall_impl; [exact HR|]. cbn. intros. lia.
  - split; [lia|]. split; [cbn [inorder]; rewrite app_nil_r; exact HL|].
    split.
    + rewrite Forall_app. split; [|exact HR].
      eapply Forall_impl; [exact Hr|]. cbn. intros. lia.
    + right. split; [exact Hgt|]. rewrite Hall, Forall_app, Forall_cons.
      split; [|split; [cbn; lia|]].
      * cbn [inorder]. rewrite app_nil_r. eapply Forall_impl; [exact HL|].
        cbn. intros. lia.
      * eapply Forall_impl; [exact Hr'|]. cbn. intros. lia.
Qed.

(** ** Insertions sort *)

Lemma last_cons_default {A} (l : list A) : forall x d,
  List.last (x :: l) d = List.last l x.
Proof.
  induction l as [|y l IH]; intros x d; [reflexivity|].
  change (List.last (x :: y :: l) d) with (List.last (y :: l) d).
  rewrite !IH. reflexivity.
Qed.

Lemma Forall_last {A} (P : A -> Prop) (l : list A) (d : A) :
  Forall P l -> P d -> P (List.last l d).
Proof.
  revert d. induction l as [|x l IH]; intros d Hl Hd; [exact Hd|].
  rewrite last_cons_default. apply Forall_cons in Hl as [Hx Hl]. auto.
Qed.

Lemma sorted_keys t : bst t -> StronglySorted Z.le (keys t).
Proof.
  rewrite bst_sorted. unfold keys.
  induction (inorder t) as [|x l IH]; intros H; cbn [map]; [constructor|].
  apply StronglySorted_inv in H as [Hs Hall]. constructor; [auto|].
  apply List.Forall_map. exact Hall.
Qed.

(** An insertion adds one node and one record, or nothing. *)
Lemma insert_effect k s t h :
  let t' := fst (run_op (op_insert k s) (t, h)) in
  t' = t \/
  nodes (root t') = S (nodes (root t)) /\
  contents (root t') ≡ₚ (k, s) :: contents (root t).
Proof.
  cbv zeta. pose proof (run_op_effect (op_insert k s) t h) as He.
  destruct (run_op (op_insert k s) (t, h)) as [t' h']. cbn [fst].
  destruct He as [[-> _]|(a & l & r & _ & _ & E1 & E2)]; [auto|]. right.
  unfold contents. rewrite <- !inorder_length, E1, E2, !map_app, !length_app.
  cbn [map length rkey rsat fst snd]. split; [lia|].
  symmetry. apply Permutation_middle.
Qed.

Lemma inserts_all_succeed xs : forall t h,
  let ops := map (fun x => op_insert (fst x) (snd x)) xs in
  let t' := fst (List.last (run_ops ops (t, h)) (t, h)) in
  (nodes (root t') <= nodes (root t) + length xs)%nat /\
  (nodes (root t') = (nodes (root t) + length xs)%nat ->
   contents (root t') ≡ₚ xs ++ contents (root t)).
Proof.
  induction xs as [|[k s] xs IH]; intros t h; cbv zeta; cbn [map run_ops].
  - cbn. split; [lia|reflexivity].
  - rewrite last_cons_default. cbn [fst snd length].
    pose proof (insert_effect k s t h) as He. cbv zeta in He.
    destruct (run_op (op_insert k s) (t, h)) as [t1 h1]. cbn [fst] in He.
    destruct (IH t1 h1) as [Hle Heq]. cbv zeta in Hle, Heq.
    destruct He as [->|[Hn Hp]].
    + split; [lia|]. intros E. exfalso. lia.
    + rewrite Hn in Hle, Heq. split; [lia|]. intros E.
      rewrite Heq by lia. rewrite Hp. cbn [app].
      symmetry. apply Permutation_middle.
Qed.

(** X28.  Insertions sort.  When the records [xs] are inserted one after
    the other into an empty tree and every insertion succeeds (the tree
    then has as many nodes as there are records), the tree holds exactly
    these records, each as often as it was inserted, and its keys in
    symmetric order are sorted. *)
Theorem inserts_sort (xs : list (splay_Key * splay_Satellite)) (h : Heap) :
  let ops := map (fun x => op_insert (fst x) (snd x)) xs in
  let t := fst (List.last (run_ops ops (mkTree NULL 0, h))
                          (mkTree NULL 0, h)) in
  nodes (root t) = length xs ->
  contents (root t) ≡ₚ xs /\ StronglySorted Z.le (keys (root t)).
Proof.
  cbv zeta. intros Hn. split.
  - destruct (inserts_all_succeed xs (mkTree NULL 0) h) as [_ H].
    cbv zeta in H. rewrite H by exact Hn. cbn. rewrite app_nil_r.
    reflexivity.
  - apply sorted_keys.
    apply (Forall_last (fun st => bst (root (fst st)))); [|exact I].
    apply bst_run_ops. exact I.
Qed.

(** ** Null handles *)

(** X29.  The functions that test their handle accept a null one.
    splay_erase then returns failure without a store through [psat] and
    without freeing anything; splay_health_check returns success and
    writes nothing; splay_tree_copy and splay_tree_move return failure when
    either handle is null and leave the other object and the heap as they
    are; splay_tree_clear and splay_tree_empty_ctor return failure; and
    splay_dot_output returns failure and opens no file. *)
Theorem null_handles_are_tolerated (k : splay_Key)
    (psat : option splay_Satellite) (h : Heap) (t : option splay_Tree)
    (io : Stdio) :
  splay_erase None k psat h = (EXIT_FAILURE, None, psat, h) /\
  splay_health_check None = (EXIT_SUCCESS, None) /\
  splay_tree_copy None t h = Some (EXIT_FAILURE, t, h) /\
  splay_tree_copy t None h = Some (EXIT_FAILURE, None, h) /\
  splay_tree_move None t = Some (EXIT_FAILURE, None, t) /\
  splay_tree_move t None = Some (EXIT_FAILURE, t, None) /\
  splay_tree_clear None h = (EXIT_FAILURE, None, h) /\
  splay_tree_empty_ctor None = (EXIT_FAILURE, None) /\
  splay_dot_output None io = Some (EXIT_FAILURE, io).
Proof. destruct t; repeat split. Qed.

(** ** The further theorems at concrete inputs *)

(** X3: a second search for key 1 in [two_nodes]. *)
Lemma splay_find_again_witness :
  found (fst (splay_find (Some two_nodes) 1)) <> 0 /\
  splay_find (snd (splay_find (Some two_nodes) 1)) 1
    = splay_find (Some two_nodes) 1.
Proof.
  assert (H : found (fst (splay_find (Some two_nodes) 1)) <> 0)
    by (vm_compute; discriminate).
  split; [exact H|exact (splay_find_again two_nodes 1 H)].
Defined.

(** X7: the update of key 1 in [two_nodes], then the search for it. *)
Lemma update_then_find_witness :
  fst (splay_update two_nodes 1 11) = EXIT_SUCCESS /\
  splay_find (Some (snd (splay_update two_nodes 1 11))) 1
    = (mkResult 1 1 11, Some (snd (splay_update two_nodes 1 11))).
Proof.
  assert (H : fst (splay_update two_nodes 1 11) = EXIT_SUCCESS)
    by reflexivity.
  split; [exact H|exact (update_then_find two_nodes 1 11 H)].
Defined.

(** X9: a second record with key 2 inserted into [two_nodes] and erased
    again. *)
Lemma insert_then_erase_restores_witness :
  let t1 :=
    mkTree (Node 7 2 30 (Node 1 1 10 NULL NULL) (Node 2 2 20 NULL NULL)) 3 in
  let h1 := mkHeap {[1%positive; 2%positive; 7%positive]} [] in
  0 <= size two_nodes <= UINT_MAX /\
  splay_insert two_nodes 2 30 two_nodes_heap = (EXIT_SUCCESS, t1, h1) /\
  fst (splay_find (Some t1) 2) = mkResult 1 2 30 /\
  exists t2 h2,
    splay_erase (Some t1) 2 None h1 = (EXIT_SUCCESS, Some t2, None, h2) /\
    inorder (root t2) = inorder (root two_nodes) /\
    size t2 = size two_nodes /\
    live h2 = live two_nodes_heap.
Proof.
  cbv zeta.
  assert (Hz : 0 <= size two_nodes <= UINT_MAX)
    by (unfold UINT_MAX; cbn; lia).
  assert (Hi : splay_insert two_nodes 2 30 two_nodes_heap
               = (EXIT_SUCCESS,
                  mkTree (Node 7 2 30 (Node 1 1 10 NULL NULL)
                            (Node 2 2 20 NULL NULL)) 3,
                  mkHeap {[1%positive; 2%positive; 7%positive]} []))
    by (vm_compute; reflexivity).
  split; [exact Hz|]. split; [exact Hi|].
  exact (insert_then_erase_restores two_nodes 2 30 _ _ _ Hz Hi).
Defined.

(** X10: the extraction of the maximum of [two_nodes]. *)
Lemma splay_max_then_erase_witness :
  root two_nodes <> NULL /\
  let '(r, t1) := splay_max (Some two_nodes) in
  found r = 1 /\
  exists x rest new,
    inorder (root two_nodes) = rest ++ [x] /\
    key r = rkey x /\ sat r = rsat x /\
    splay_erase t1 (key r) None two_nodes_heap
      = (EXIT_SUCCESS, Some (mkTree new (unsigned (size two_nodes - 1))),
         None, free (raddr x) two_nodes_heap) /\
    inorder new = rest.
Proof.
  assert (H : root two_nodes <> NULL) by discriminate.
  split; [exact H|exact (splay_max_then_erase two_nodes two_nodes_heap H)].
Defined.

(** X11: key 3 inserted into [two_nodes], whose root holds 2 and has no
    right child. *)
Lemma splay_insert_at_the_end_witness :
  let h' := mkHeap ({[7%positive]} ∪ {[1%positive; 2%positive]}) [] in
  malloc two_nodes_heap = (Some 7%positive, h') /\
  node_right (root two_nodes) = NULL /\
  node_keiy (root two_nodes) < 3 /\
  (node_right (root two_nodes) = NULL -> node_keiy (root two_nodes) < 3 ->
   root two_nodes <> NULL ->
   splay_insert two_nodes 3 30 two_nodes_heap
     = (EXIT_SUCCESS,
        mkTree (Node 7 3 30 (root two_nodes) NULL)
               (unsigned (size two_nodes + 1)), h')) /\
  (node_left (root two_nodes) = NULL -> 3 <= node_keiy (root two_nodes) ->
   root two_nodes <> NULL ->
   splay_insert two_nodes 3 30 two_nodes_heap
     = (EXIT_SUCCESS,
        mkTree (Node 7 3 30 NULL (root two_nodes))
               (unsigned (size two_nodes + 1)), h')).
Proof.
  cbv zeta.
  assert (Hm : malloc two_nodes_heap
               = (Some 7%positive,
                  mkHeap ({[7%positive]} ∪ {[1%positive; 2%positive]}) []))
    by reflexivity.
  split; [exact Hm|]. split; [reflexivity|]. split; [cbn; lia|].
  exact (splay_insert_at_the_end two_nodes 3 30 _ _ _ Hm).
Defined.

(** X12: an insertion, a search and an erasure on an empty tree. *)
Lemma count_after_each_operation_witness :
  Z.of_nat (length three_ops) <= UINT_MAX /\
  Forall (fun st => count_ok (fst st))
         (run_ops three_ops (mkTree NULL 0, one_block_heap)).
Proof.
  assert (H : Z.of_nat (length three_ops) <= UINT_MAX)
    by (unfold UINT_MAX; cbn; lia).
  split; [exact H|exact (count_after_each_operation _ one_block_heap H)].
Defined.

(** X13: the same three operations. *)
Lemma health_check_after_each_operation_witness :
  Z.of_nat (length three_ops) <= UINT_MAX /\
  Forall int_op three_ops /\
  Forall (fun st => splay_health_check (Some (fst st)) = (EXIT_SUCCESS, None))
         (run_ops three_ops (mkTree NULL 0, one_block_heap)).
Proof.
  assert (H : Z.of_nat (length three_ops) <= UINT_MAX)
    by (unfold UINT_MAX; cbn; lia).
  assert (Hi : Forall int_op three_ops).
  { repeat constructor; unfold INT_MIN, INT_MAX; lia. }
  split; [exact H|]. split; [exact Hi|].
  exact (health_check_after_each_operation _ one_block_heap H Hi).
Defined.

(** X14: [two_nodes] in a heap that holds its two blocks and no other. *)
Lemma heap_after_each_operation_witness :
  tree_heap ∅ two_nodes two_nodes_heap /\
  Forall (fun st => tree_heap ∅ (fst st) (snd st))
         (run_ops [op_erase 1 None; op_insert 5 50]
                  (two_nodes, two_nodes_heap)).
Proof.
  assert (H : tree_heap ∅ two_nodes two_nodes_heap).
  { unfold tree_heap, addresses. cbn.
    split; [repeat constructor; set_solver|]. split; set_solver. }
  split; [exact H|exact (heap_after_each_operation ∅ _ _ _ H)].
Defined.

(** X17: [two_nodes] moved into an empty tree object. *)
Lemma splay_tree_move_transfers_witness :
  count_ok (mkTree NULL 0) /\
  splay_tree_move (Some two_nodes) (Some (mkTree NULL 0))
    = (if is_null (root (mkTree NULL 0))
       then Some (EXIT_SUCCESS, Some (mkTree NULL 0), Some two_nodes)
       else Some (EXIT_FAILURE, Some two_nodes, Some (mkTree NULL 0))) /\
  (count_ok two_nodes ->
   forall rc ti' to',
     splay_tree_move (Some two_nodes) (Some (mkTree NULL 0))
       = Some (rc, Some ti', Some to') ->
     count_ok ti' /\ count_ok to').
Proof.
  assert (H : count_ok (mkTree NULL 0))
    by (apply count_ok_of_size; reflexivity).
  split; [exact H|exact (splay_tree_move_transfers two_nodes _ H)].
Defined.

(** X18: a copy of [two_nodes] into the blocks 7 and 8. *)
Lemma splay_tree_copy_clones_witness :
  let to' := Some (mkTree (Node 8 2 20 (Node 7 1 10 NULL NULL) NULL) 2) in
  let h' :=
    mkHeap {[1%positive; 2%positive; 7%positive; 8%positive]} [] in
  splay_tree_copy (Some two_nodes) (Some (mkTree NULL 0)) copy_heap
    = Some (EXIT_SUCCESS, to', h') /\
  exists no,
    to' = Some (mkTree no (size two_nodes)) /\
    same_tree no (root two_nodes) /\
    NoDup (addresses no) /\
    live h' = addrs no ∪ live copy_heap /\ addrs no ## live copy_heap /\
    splay_health_check to' = splay_health_check (Some two_nodes).
Proof.
  cbv zeta.
  assert (H : splay_tree_copy (Some two_nodes) (Some (mkTree NULL 0))
                copy_heap
              = Some (EXIT_SUCCESS,
                      Some (mkTree (Node 8 2 20 (Node 7 1 10 NULL NULL) NULL)
                                   2),
                      mkHeap {[1%positive; 2%positive; 7%positive;
                               8%positive]} []))
    by (vm_compute; reflexivity).
  split; [exact H|exact (splay_tree_copy_clones _ _ _ _ H)].
Defined.

(** X19: a copy of [two_nodes] whose second allocation fails. *)
Lemma splay_tree_copy_failure_frees_witness :
  let to' := Some (mkTree NULL 2) in
  let h' := mkHeap {[1%positive; 2%positive]} [] in
  splay_tree_copy (Some two_nodes) (Some (mkTree NULL 0)) short_heap
    = Some (EXIT_FAILURE, to', h') /\
  root two_nodes <> NULL /\
  live h' = live short_heap /\
  to' = Some (mkTree NULL (size two_nodes)) /\
  (count_ok two_nodes ->
   splay_health_check to'
     = (EXIT_FAILURE, Some (SizeNilRoot (size two_nodes))) /\
   splay_tree_copy (Some two_nodes) to' h' = None).
Proof.
  cbv zeta.
  assert (H : splay_tree_copy (Some two_nodes) (Some (mkTree NULL 0))
                short_heap
              = Some (EXIT_FAILURE, Some (mkTree NULL 2),
                      mkHeap {[1%positive; 2%positive]} []))
    by (vm_compute; reflexivity).
  split; [exact H|exact (splay_tree_copy_failure_frees _ _ _ _ H)].
Defined.

(** X21: the searches in the tree of [two_nodes], for the absent key 0. *)
Lemma search_assertions_hold_witness :
  root two_nodes <> NULL /\
  (let '(_, root', found') :=
     search_loop 0 initialize_topdown (root two_nodes) in
   search_exit_asserts 0 root' found' = true) /\
  (let '(td, root') := min_loop initialize_topdown (root two_nodes) in
   min_exit_asserts td root' = true) /\
  (let '(td, root') := max_loop initialize_topdown (root two_nodes) in
   max_exit_asserts td root' = true).
Proof.
  assert (H : root two_nodes <> NULL) by discriminate.
  split; [exact H|exact (search_assertions_hold _ 0 H)].
Defined.

(** X23: key 3 inserted into [two_nodes] in both ways. *)
Lemma naive_insert_same_order_witness :
  bst (root two_nodes) /\
  let '(radix', h1) := naive_insert (root two_nodes) 3 30 two_nodes_heap in
  let '(rc, t', h2) := splay_insert two_nodes 3 30 two_nodes_heap in
  h1 = h2 /\
  bst radix' /\ bst (root t') /\
  inorder radix' = inorder (root t') /\
  (rc = EXIT_FAILURE -> radix' = root two_nodes /\ t' = two_nodes) /\
  (rc = EXIT_SUCCESS -> nodes radix' = S (nodes (root two_nodes))).
Proof.
  assert (H : bst (root two_nodes)) by bst_by_computation.
  split; [exact H|].
  exact (naive_insert_same_order two_nodes 3 30 two_nodes_heap H).
Defined.

(** X24: the shutdown with [two_nodes] as the tree, run for three turns. *)
Lemma cleanup_empties_the_tree_witness :
  (nodes (root two_nodes) < 3)%nat /\
  exists h',
    cleanup 3 EXIT_FAILURE (Some two_nodes) two_nodes_heap
      = Some (EXIT_SUCCESS, Some (mkTree NULL 0), h',
              map rsat (inorder (root two_nodes))) /\
    live h' = live two_nodes_heap ∖ addrs (root two_nodes) /\
    oracle h' = oracle two_nodes_heap.
Proof.
  assert (H : (nodes (root two_nodes) < 3)%nat) by (cbn; lia).
  split; [exact H|].
  exact (cleanup_empties_the_tree 3 EXIT_FAILURE two_nodes two_nodes_heap H).
Defined.

(** X25: the DOT output of an empty tree when nothing fails. *)
Lemma splay_dot_output_empty_tree_witness :
  root (mkTree NULL 0) = NULL /\
  fopen_ok quiet_stdio = true /\
  head (write_ok quiet_stdio) <> Some false /\
  splay_dot_output (Some (mkTree NULL 0)) quiet_stdio = None.
Proof.
  assert (H : head (write_ok quiet_stdio) <> Some false) by discriminate.
  split; [reflexivity|]. split; [reflexivity|]. split; [exact H|].
  exact (splay_dot_output_empty_tree (mkTree NULL 0) quiet_stdio
           eq_refl eq_refl H).
Defined.

(** X26: the DOT output of [two_nodes] when nothing fails. *)
Lemma splay_dot_output_draws_the_tree_witness :
  root two_nodes <> NULL /\
  exists rc io',
    splay_dot_output (Some two_nodes) quiet_stdio = Some (rc, io') /\
    (rc = EXIT_SUCCESS \/ rc = EXIT_FAILURE) /\
    (rc = EXIT_SUCCESS <->
     fopen_ok quiet_stdio = true /\ fclose_ok quiet_stdio = true /\
     Forall (eq true)
            (take (nodes (root two_nodes) + only_children (root two_nodes)
                   + 2)
                  (write_ok quiet_stdio))) /\
    (rc = EXIT_SUCCESS ->
     exists body,
       written io' = DotOpen :: body ++ [DotClose] /\
       dot_nodes body = preorder_keys (root two_nodes) /\
       dot_links body = links (root two_nodes) /\
       dot_phantoms body = only_children (root two_nodes)).
Proof.
  assert (H : root two_nodes <> NULL) by discriminate.
  split; [exact H|].
  exact (splay_dot_output_draws_the_tree two_nodes quiet_stdio H).
Defined.

(** X27: the search for the absent key 0 in [two_nodes]. *)
Lemma failed_find_splits_witness :
  bst (root two_nodes) /\ root two_nodes <> NULL /\
  (0 ∉ keys (root two_nodes)) /\
  exists a k' s l r,
    splay_find (Some two_nodes) 0
      = (SPLAY_BLANK_RESULT,
         Some (mkTree (Node a k' s l r) (size two_nodes))) /\
    inorder l ++ (a, k', s) :: inorder r = inorder (root two_nodes) /\
    k' <> 0 /\
    Forall (fun x => rkey x < 0) (inorder l) /\
    Forall (fun x => 0 < rkey x) (inorder r) /\
    (k' < 0 /\
     Forall (fun x => rkey x < 0 -> rkey x <= k') (inorder (root two_nodes))
     \/
     0 < k' /\
     Forall (fun x => 0 < rkey x -> k' <= rkey x)
            (inorder (root two_nodes))).
Proof.
  assert (Hb : bst (root two_nodes)) by bst_by_computation.
  assert (Hn : root two_nodes <> NULL) by discriminate.
  assert (Ha : 0 ∉ keys (root two_nodes)) by absent_by_computation.
  split; [exact Hb|]. split; [exact Hn|]. split; [exact Ha|].
  exact (failed_find_splits two_nodes 0 Hb Hn Ha).
Defined.

(** X28: the records (2, 20), (1, 10), (2, 21) inserted into an empty
    tree, malloc offering the blocks 1, 2 and 3. *)
Lemma inserts_sort_witness :
  let xs := [(2, 20); (1, 10); (2, 21)] in
  let h := mkHeap ∅ [Some 1%positive; Some 2%positive; Some 3%positive] in
  let ops := map (fun x => op_insert (fst x) (snd x)) xs in
  let t := fst (List.last (run_ops ops (mkTree NULL 0, h))
                          (mkTree NULL 0, h)) in
  nodes (root t) = length xs /\
  contents (root t) ≡ₚ xs /\ StronglySorted Z.le (keys (root t)).
Proof.
  cbv zeta.
  assert (H : nodes (root (fst (List.last
                (run_ops (map (fun x => op_insert (fst x) (snd x))
                              [(2, 20); (1, 10); (2, 21)])
                   (mkTree NULL 0,
                    mkHeap ∅ [Some 1%positive; Some 2%positive;
                              Some 3%positive]))
                (mkTree NULL 0,
                 mkHeap ∅ [Some 1%positive; Some 2%positive;
                           Some 3%positive]))))
              = length [(2, 20); (1, 10); (2, 21)])
    by (vm_compute; reflexivity).
  split; [exact H|exact (inserts_sort _ _ H)].
Defined.

(** The DOT text of [two_nodes]: the root 2, its left child 1 with the edge
    from 2, and an invisible right sibling, named by rand(). *)
Example dot_of_two_nodes :
  option_map (fun r => (fst r, written (snd r)))
    (splay_dot_output (Some two_nodes) (mkStdio true true [] [5] []))
  = Some (EXIT_SUCCESS,
          [DotOpen; DotRoot 2; DotChild 1 2; DotPhantom 5 2; DotClose]).
Proof. reflexivity. Qed.
